(** * Master-schedule normalisation pipeline of lucid-north-tools

    A shallow embedding of the master-schedule parser (cell parser, column
    mapper, schedule normaliser, validator, CSV serialiser) and of the CSV
    line reader of the absence-report generator, with the properties of
    the specification stated and proved over it.

    JavaScript strings are modelled as [string]: sequences of code units
    in the range U+0000..U+00FF.  White space and case folding follow
    ECMAScript on that range. *)

From Stdlib Require Import Ascii NArith.
From stdpp Require Import base list strings gmap pretty.

#[global] Arguments String.append !s1 s2 : simpl nomatch.

(** ** String primitives *)

Module Js.

(** The characters [String.prototype.trim] strips and the class [\s]
    accepts: TAB, LF, VT, FF, CR, SPACE and NBSP. *)
Definition isSpace (c : ascii) : bool :=
  match N_of_ascii c with
  | 9 | 10 | 11 | 12 | 13 | 32 | 160 => true
  | _ => false
  end%N.

(** [toLowerCase] on one code unit: A-Z and the Latin-1 capitals
    U+00C0..U+00DE (U+00D7, the multiplication sign, apart). *)
Definition lowerChar (c : ascii) : ascii :=
  let n := N_of_ascii c in
  if ((65 <=? n) && (n <=? 90) || (192 <=? n) && (n <=? 222) && negb (n =? 215))%N
  then ascii_of_N (n + 32)
  else c.

Fixpoint toLowerCase (s : string) : string :=
  match s with
  | "" => ""
  | String c s' => String (lowerChar c) (toLowerCase s')
  end.

Fixpoint trimStart (s : string) : string :=
  match s with
  | "" => ""
  | String c s' => if isSpace c then trimStart s' else s
  end.

Definition isEmpty (s : string) : bool :=
  match s with "" => true | _ => false end.

Fixpoint trimEnd (s : string) : string :=
  match s with
  | "" => ""
  | String c s' =>
      let t := trimEnd s' in
      if isSpace c && isEmpty t then "" else String c t
  end.

Definition trim (s : string) : string := trimEnd (trimStart s).

(** [s.includes(sub)] *)
Fixpoint includes (s sub : string) : bool :=
  String.prefix sub s ||
  match s with
  | "" => false
  | String _ s' => includes s' sub
  end.

(** [s.split(sep)] for a one-character separator. *)
Fixpoint split (sep : ascii) (s : string) : list string :=
  match s with
  | "" => [""]
  | String c s' =>
      if Ascii.eqb c sep then "" :: split sep s'
      else match split sep s' with
           | [] => [String c ""]
           | w :: ws => String c w :: ws
           end
  end.

(** [l.join(sep)] *)
Fixpoint join (sep : string) (l : list string) : string :=
  match l with
  | [] => ""
  | [x] => x
  | x :: rest => x +:+ sep +:+ join sep rest
  end.

(** The remainder of [s] after the literal [p], when [s] starts with it. *)
Fixpoint stripPrefix (p s : string) : option string :=
  match p, s with
  | "", _ => Some s
  | String a p', String b s' => if Ascii.eqb a b then stripPrefix p' s' else None
  | String _ _, "" => None
  end.

(** The longest prefix of non-space characters: what [\S+] or [\S*]
    consumes. *)
Fixpoint nonSpaceRun (s : string) : string :=
  match s with
  | "" => ""
  | String c s' => if isSpace c then "" else String c (nonSpaceRun s')
  end.

(** An unanchored regular expression: the pattern [m] is tried at every
    position from the left, and the first position where it matches gives
    the result ([RegExp.prototype.exec] without the sticky flag). *)
Fixpoint search {A : Type} (m : string → option A) (s : string) : option A :=
  match m s with
  | Some x => Some x
  | None =>
      match s with
      | "" => None
      | String _ s' => search m s'
      end
  end.

(** Strings of white space only, and strings with none. *)
Fixpoint allSpace (s : string) : bool :=
  match s with
  | "" => true
  | String c s' => isSpace c && allSpace s'
  end.

Fixpoint noSpace (s : string) : bool :=
  match s with
  | "" => true
  | String c s' => negb (isSpace c) && noSpace s'
  end.

(** The maximal runs of non-space characters of [s], from the left. *)
Fixpoint tokens (s : string) : list string :=
  match s with
  | "" => []
  | String c s' =>
      if isSpace c then tokens s'
      else
        match s' with
        | "" => [String c ""]
        | String c' _ =>
            if isSpace c' then String c "" :: tokens s'
            else
              match tokens s' with
              | t :: ts => String c t :: ts
              | [] => [String c ""]
              end
        end
  end.

(** [hasChar c s]: the character [c] occurs in [s]. *)
Fixpoint hasChar (c : ascii) (s : string) : bool :=
  match s with
  | "" => false
  | String a s' => Ascii.eqb a c || hasChar c s'
  end.

(** [atGap s]: [s] is empty or starts with white space, so a token that
    stands before [s] ends there. *)
Definition atGap (s : string) : bool :=
  match s with
  | "" => true
  | String c _ => isSpace c
  end.

(** The first defined entry of a list. *)
Fixpoint firstSome {A : Type} (l : list (option A)) : option A :=
  match l with
  | [] => None
  | Some x :: _ => Some x
  | None :: rest => firstSome rest
  end.

(** [localAt m]: within a token, what the pattern [m] finds does not
    depend on the text after the token. *)
Definition localAt {A : Type} (m : string → option A) : Prop :=
  ∀ q rest, noSpace q = true → atGap rest = true → m (q +:+ rest) = m q.

(** The line feed and the double quote, as characters and as strings. *)
Definition LF : ascii := "010"%char.
Definition DQ : ascii := "034"%char.
Definition lf : string := String LF "".
Definition dq : string := String DQ "".

(** What reading a property of a plain object [{}] gives when the own
    properties of the object hold strings: [undefined], a string, or what
    every object inherits under that name (the function [Object] under
    [constructor], the prototype itself under [__proto__], a method under
    the other names).  [Null] is the [null] the column mapper returns. *)
Inductive value :=
  | Undefined
  | Null
  | Text (s : string)
  | Inherited (name : string).

(** The properties of [Object.prototype]. *)
Definition inheritedNames : list string :=
  ["constructor"; "hasOwnProperty"; "isPrototypeOf"; "propertyIsEnumerable";
   "toLocaleString"; "toString"; "valueOf";
   "__defineGetter__"; "__defineSetter__"; "__lookupGetter__"; "__lookupSetter__";
   "__proto__"].

(** [o[key]], for an object with the own properties [o]. *)
Definition objectGet (o : gmap string string) (key : string) : value :=
  match o !! key with
  | Some s => Text s
  | None => if existsb (String.eqb key) inheritedNames then Inherited key else Undefined
  end.

(** [o[key] = s] for a string [s]: the own property is made or
    overwritten; only under [__proto__] the assignment of a string does
    nothing. *)
Definition objectSet (o : gmap string string) (key s : string) : gmap string string :=
  if String.eqb key "__proto__" then o else <[key := s]> o.

(** [if (v)] *)
Definition truthy (v : value) : bool :=
  match v with
  | Undefined | Null => false
  | Text s => negb (isEmpty s)
  | Inherited _ => true
  end.

(** The property key a value used as an index stands for.  The text of a
    built-in function is left to the implementation; it is given as V8
    prints it. *)
Definition propertyKey (v : value) : string :=
  match v with
  | Undefined => "undefined"
  | Null => "null"
  | Text s => s
  | Inherited name =>
      if String.eqb name "__proto__" then "[object Object]"
      else "function " +:+ (if String.eqb name "constructor" then "Object" else name)
           +:+ "() { [native code] }"
  end.

End Js.

Import Js.

(** ** Cell parser *)

Inductive termType := FY | S1 | S2 | Q1 | Q2 | Q3 | Q4.

Definition termTypeText (t : termType) : string :=
  match t with
  | FY => "FY" | S1 => "S1" | S2 => "S2"
  | Q1 => "Q1" | Q2 => "Q2" | Q3 => "Q3" | Q4 => "Q4"
  end.

Inductive dayFlag := DayA | DayB.

Definition dayFlagText (d : dayFlag) : string :=
  match d with DayA => "A" | DayB => "B" end.

(** [{ course, room, type }] *)
Record classObj := ClassObj {
  course : string;
  room : string;
  type : termType
}.

(** [{ aDayClasses, bDayClasses }] *)
Record dayClasses := DayClasses {
  aDayClasses : list classObj;
  bDayClasses : list classObj
}.

(** [/Room:(\S+)/] at one position: the capture group. *)
Definition roomAt (s : string) : option string :=
  match stripPrefix "Room:" s with
  | Some rest =>
      match nonSpaceRun rest with
      | "" => None
      | r => Some r
      end
  | None => None
  end.

(** [/(FY|S1|S2|Q1|Q2|Q3|Q4)/] at one position, alternatives in order. *)
Definition typeAt (s : string) : option termType :=
  if String.prefix "FY" s then Some FY
  else if String.prefix "S1" s then Some S1
  else if String.prefix "S2" s then Some S2
  else if String.prefix "Q1" s then Some Q1
  else if String.prefix "Q2" s then Some Q2
  else if String.prefix "Q3" s then Some Q3
  else if String.prefix "Q4" s then Some Q4
  else None.

(** [/Days:\s*([AB])/] at one position.  [A] and [B] are not white space,
    so the greedy [\s*] never has to give a character back. *)
Definition daysAt (s : string) : option dayFlag :=
  match stripPrefix "Days:" s with
  | Some rest =>
      match trimStart rest with
      | String c _ =>
          if Ascii.eqb c "A" then Some DayA
          else if Ascii.eqb c "B" then Some DayB
          else None
      | "" => None
      end
  | None => None
  end.

Definition roomMatch (detailsLine : string) : option string := search roomAt detailsLine.
Definition typeMatch (detailsLine : string) : option termType := search typeAt detailsLine.
Definition daysMatch (detailsLine : string) : option dayFlag := search daysAt detailsLine.

(** What the three expressions read off a details line: [room], [type]
    and [days], the last one [None] for JavaScript's [null]. *)
Definition scanDetails (detailsLine : string) : string * termType * option dayFlag :=
  (default "" (roomMatch detailsLine),
   default FY (typeMatch detailsLine),
   daysMatch detailsLine).

(** The fields of a details line as tokens: [Room:r], a term type and
    [Days:f], each of them present or not. *)
Definition detailFields (r : option string) (t : option termType) (f : option dayFlag)
    : list string :=
  option_list ((λ r, "Room:" +:+ r) <$> r) ++
  option_list (termTypeText <$> t) ++
  option_list ((λ f, "Days:" +:+ dayFlagText f) <$> f).

(** The details line of the doc comment of [parsePeriodCell]. *)
Definition sampleDetails : string := "      FY  Room:B208  Days:A".

(** [lines[i + 1].includes('Room:') || lines[i + 1].includes('Days:')] *)
Definition isDetails (l : string) : bool :=
  includes l "Room:" || includes l "Days:".

Definition hasDetailsLine (lines : list string) (i : nat) : bool :=
  match lines !! (i + 1) with
  | Some l => isDetails l
  | None => false
  end.

(** The object built from a course line and its details line. *)
Definition detailedClass (line detailsLine : string) : classObj :=
  {| course := trim line;
     room := default "" (roomMatch detailsLine);
     type := default FY (typeMatch detailsLine) |}.

(** The [while (i < lines.length)] loop.  Every turn advances [i] by one
    or two, so [length lines - i] turns suffice; [fuel] bounds the number
    of turns ([parseLoop_fuel] shows the bound is never met). *)
Fixpoint parseLoop (fuel : nat) (lines : list string) (i : nat)
    (aDay bDay : list classObj) : dayClasses :=
  match fuel, lines !! i with
  | S fuel', Some line =>
      if hasDetailsLine lines i then
        let detailsLine := default "" (lines !! (i + 1)) in
        let classObj := detailedClass line detailsLine in
        match daysMatch detailsLine with
        | Some DayA => parseLoop fuel' lines (i + 2) (aDay ++ [classObj]) bDay
        | Some DayB => parseLoop fuel' lines (i + 2) aDay (bDay ++ [classObj])
        | None =>
            parseLoop fuel' lines (i + 2) (aDay ++ [classObj]) (bDay ++ [classObj])
        end
      else
        let course := trim line in
        if isEmpty course then parseLoop fuel' lines (i + 1) aDay bDay
        else
          let classObj := {| course := course; room := ""; type := FY |} in
          parseLoop fuel' lines (i + 1) (aDay ++ [classObj]) (bDay ++ [classObj])
  | _, _ => DayClasses aDay bDay
  end.

Definition noClasses : dayClasses := DayClasses [] [].

Definition parsePeriodCell (cellValue : string) : dayClasses :=
  if isEmpty cellValue || isEmpty (trim cellValue) then noClasses
  else
    let lines := split LF cellValue in
    parseLoop (length lines) lines 0 [] [].

(** *** The loop, turn by turn

    What one turn of the loop contributes to the two tracks, and the loop
    as a recursion over the lines still to be read. *)

Definition appendClasses (x y : dayClasses) : dayClasses :=
  DayClasses (aDayClasses x ++ aDayClasses y) (bDayClasses x ++ bDayClasses y).

(** A course line with its details line. *)
Definition pairClasses (line detailsLine : string) : dayClasses :=
  let c := detailedClass line detailsLine in
  match daysMatch detailsLine with
  | Some DayA => DayClasses [c] []
  | Some DayB => DayClasses [] [c]
  | None => DayClasses [c] [c]
  end.

(** A line with no details line after it. *)
Definition loneClasses (line : string) : dayClasses :=
  if isEmpty (trim line) then noClasses
  else
    let c := {| course := trim line; room := ""; type := FY |} in
    DayClasses [c] [c].

Fixpoint parseLines (lines : list string) : dayClasses :=
  match lines with
  | [] => noClasses
  | line :: rest =>
      match rest with
      | detailsLine :: rest' =>
          if isDetails detailsLine
          then appendClasses (pairClasses line detailsLine) (parseLines rest')
          else appendClasses (loneClasses line) (parseLines rest)
      | [] => appendClasses (loneClasses line) (parseLines rest)
      end
  end.

(** [courseLineAt lines k]: the loop over [lines] starts a turn at index
    [k], that is, [lines[k]] is read as a course line and not consumed as
    the details line of the line before it. *)
Fixpoint courseLineAt (lines : list string) (k : nat) {struct lines} : bool :=
  match lines, k with
  | [], _ => false
  | _ :: _, 0 => true
  | _ :: rest, S k' =>
      match rest with
      | detailsLine :: rest' =>
          if isDetails detailsLine
          then match k' with
               | 0 => false
               | S k'' => courseLineAt rest' k''
               end
          else courseLineAt rest k'
      | [] => false
      end
  end.

(** [formatClassForCsv]: only the first class of the day is kept. *)
Definition formatClassForCsv (classes : list classObj) : string :=
  match classes with
  | [] => ""
  | firstClass :: _ =>
      if negb (isEmpty (room firstClass))
      then course firstClass +:+ " (Room: " +:+ room firstClass +:+ ")"
      else course firstClass
  end.

(** ** Column mapper *)

(** [h.toLowerCase().trim()], the key under which a header is filed and a
    candidate is looked up. *)
Definition headerKey (h : string) : string := trim (toLowerCase h).

(** [headers.forEach(h => { lowerMap[h.toLowerCase().trim()] = h; })] on
    the object literal [{}], given by its own properties; a later header
    overwrites an earlier one filed under the same key. *)
Definition lowerMapOf (headers : list string) : gmap string string :=
  foldl (λ lowerMap h, objectSet lowerMap (headerKey h) h) ∅ headers.

(** The [for (const name of possibleNames)] loop; [if (match)] is false
    for a missing key and for the empty string, and true for what the
    object inherits.  [Null] when the loop ends. *)
Fixpoint firstMatch (lowerMap : gmap string string) (possibleNames : list string)
    : value :=
  match possibleNames with
  | [] => Null
  | name :: rest =>
      let found := objectGet lowerMap (headerKey name) in
      if truthy found then found else firstMatch lowerMap rest
  end.

Definition findColumn (headers possibleNames : list string) : value :=
  firstMatch (lowerMapOf headers) possibleNames.

(** The source repeats the body of [findColumn] under a second name. *)
Definition findColumnName (headers possibleNames : list string) : value :=
  firstMatch (lowerMapOf headers) possibleNames.

(** [matches h name]: header and candidate are equal once case-folded and
    trimmed. *)
Definition matches (h name : string) : Prop := headerKey h = headerKey name.

(** ** Edit distance *)

(** The table [dp], an array of rows. *)
Definition dpGet (dp : list (list nat)) (i j : nat) : nat :=
  default 0 (dp !! i ≫= (.!! j)).

Definition dpSet (dp : list (list nat)) (i j v : nat) : list (list nat) :=
  alter (λ row, <[j := v]> row) i dp.

(** [a[i - 1] === b[j - 1] ? 0 : 1] *)
Definition substCost (a b : string) (i j : nat) : nat :=
  if bool_decide (String.get (i - 1) a = String.get (j - 1) b) then 0 else 1.

Definition dpCell (a b : string) (dp : list (list nat)) (i j : nat) : nat :=
  Nat.min (dpGet dp (i - 1) j + 1)
    (Nat.min (dpGet dp i (j - 1) + 1)
             (dpGet dp (i - 1) (j - 1) + substCost a b i j)).

Definition levenshteinDistance (a b : string) : nat :=
  let aLen := String.length a in
  let bLen := String.length b in
  let dp := replicate (aLen + 1) (replicate (bLen + 1) 0) in
  let dp := foldl (λ dp i, dpSet dp i 0 i) dp (seq 0 (aLen + 1)) in
  let dp := foldl (λ dp j, dpSet dp 0 j j) dp (seq 0 (bLen + 1)) in
  let dp :=
    foldl (λ dp i,
      foldl (λ dp j, dpSet dp i j (dpCell a b dp i j)) dp (seq 1 bLen))
      dp (seq 1 aLen) in
  dpGet dp aLen bLen.

(** The edit distance between the first [i] characters of [a] and the
    first [j] characters of [b], by the recurrence of Wagner and Fischer:
    unit cost for an insertion, a deletion and a substitution. *)
Fixpoint editDistance (a b : string) (i : nat) : nat → nat :=
  match i with
  | 0 => λ j, j
  | S i' =>
      fix row (j : nat) : nat :=
        match j with
        | 0 => S i'
        | S j' =>
            Nat.min (editDistance a b i' (S j') + 1)
              (Nat.min (row j' + 1)
                       (editDistance a b i' j' + substCost a b (S i') (S j')))
        end
  end.

(** [known a b dp K]: the table has its full size, and holds the distance
    of the prefixes wherever [K] says it is filled in. *)
Definition known (a b : string) (dp : list (list nat)) (K : nat → nat → Prop) : Prop :=
  length dp = String.length a + 1 ∧
  Forall (λ row, length row = String.length b + 1) dp ∧
  ∀ i j, i ≤ String.length a → j ≤ String.length b → K i j →
         dpGet dp i j = editDistance a b i j.

(** ** CSV serialiser *)

(** The global replace of [escapeCsv]: every double quote is doubled. *)
Fixpoint doubleQuotes (str : string) : string :=
  match str with
  | "" => ""
  | String c rest =>
      if Ascii.eqb c DQ then String DQ (String DQ (doubleQuotes rest))
      else String c (doubleQuotes rest)
  end.

Definition needsQuoting (str : string) : bool :=
  includes str "," || includes str dq || includes str lf.

Definition escapeCsv (str : string) : string :=
  if needsQuoting str then dq +:+ doubleQuotes str +:+ dq else str.

(** [special str]: a comma, a double quote or a line feed occurs in
    [str]. *)
Definition special (str : string) : bool :=
  hasChar "," str || hasChar DQ str || hasChar LF str.

(** The field of the round-trip example of the specification. *)
Definition sampleField : string := "He said " +:+ dq +:+ "hi" +:+ dq +:+ ", ok".

(** ** Schedule normaliser *)

(** A [Set] of strings: its elements in insertion order, each once. *)
Definition setHas (s : list string) (x : string) : bool := bool_decide (x ∈ s).

Definition setAdd (s : list string) (x : string) : list string :=
  if setHas s x then s else s ++ [x].

Definition newSet (l : list string) : list string := foldl setAdd [] l.

(** [new Set(nonTeachingLabelsStr.split(',').map(s => s.trim().toLowerCase()))] *)
Definition nonTeachingSetOf (nonTeachingLabelsStr : string) : list string :=
  newSet (map (λ s, toLowerCase (trim s)) (split "," nonTeachingLabelsStr)).

(** A row of the sheet as the loader hands it over: an object from header
    to cell text, its keys in column order. *)
Definition row := list (string * string).

Fixpoint rowGet (r : row) (key : string) : option string :=
  match r with
  | [] => None
  | (k, v) :: rest => if String.eqb k key then Some v else rowGet rest key
  end.

(** [String(row[col] || '').trim()] *)
Definition cellText (r : row) (col : string) : string :=
  trim (default "" (rowGet r col)).

(** [{ teacher, dept, data }] *)
Record teacherRow := TeacherRow {
  teacher : string;
  dept : string;
  data : list string
}.

(** [{ headers, teachers, periodCols }] *)
Record parseResult := ParseResult {
  headers : list string;
  teachers : list teacherRow;
  periodCols : list string
}.

(** [formatted || 'Prep'] *)
Definition orPrep (formatted : string) : string :=
  if isEmpty formatted then "Prep" else formatted.

(** The cell of one day in the words of the specification: the first
    assignment, with its room when it has one, and [Prep] for an empty
    list. *)
Definition specDayCell (classes : list classObj) : string :=
  match classes with
  | [] => "Prep"
  | c :: _ =>
      if isEmpty (room c) then course c
      else course c +:+ " (Room: " +:+ room c +:+ ")"
  end.

(** The same, with the case the code adds: a first assignment with
    neither course nor room also gives [Prep]. *)
Definition dayCell (classes : list classObj) : string :=
  match classes with
  | [] => "Prep"
  | c :: _ =>
      if isEmpty (room c) then (if isEmpty (course c) then "Prep" else course c)
      else course c +:+ " (Room: " +:+ room c +:+ ")"
  end.

(** The two cells one period column contributes to a row. *)
Definition periodCells (nonTeachingSet : list string) (cellValue : string)
    : list string :=
  if setHas nonTeachingSet (toLowerCase cellValue) then ["Prep"; "Prep"]
  else
    let parsed := parsePeriodCell cellValue in
    let aDayFormatted := orPrep (formatClassForCsv (aDayClasses parsed)) in
    let bDayFormatted := orPrep (formatClassForCsv (bDayClasses parsed)) in
    [aDayFormatted; bDayFormatted].

(** The [for (const periodCol of periodColNames)] loop of one row. *)
Definition outputRowOf (nonTeachingSet periodColNames : list string) (r : row)
    (dept teacherName : string) : list string :=
  foldl (λ outputRow periodCol,
           outputRow ++ periodCells nonTeachingSet (cellText r periodCol))
        [dept; teacherName] periodColNames.

(** [colName ? String(row[colName] || '').trim() : '']; the column is a
    header for the candidate lists of the parser. *)
Definition resolveCell (colName : value) (r : row) : string :=
  if truthy colName then cellText r (propertyKey colName) else "".

(** One turn of [for (const row of data)]; a row with no teacher name is
    skipped by [continue]. *)
Definition addTeacher (nonTeachingSet : list string)
    (teacherColName deptColName : value) (periodColNames : list string)
    (teachers : list teacherRow) (r : row) : list teacherRow :=
  let teacherName := resolveCell teacherColName r in
  let dept := resolveCell deptColName r in
  if isEmpty teacherName then teachers
  else
    teachers ++
      [{| teacher := teacherName; dept := dept;
          data := outputRowOf nonTeachingSet periodColNames r dept teacherName |}].

Definition outputHeadersOf (periodColNames : list string) : list string :=
  foldl (λ outputHeaders periodCol,
           outputHeaders ++ [periodCol +:+ " A Day"; periodCol +:+ " B Day"])
        ["Department"; "Teacher"] periodColNames.

Definition teacherCandidates : list string :=
  ["Teacher Name"; "Teacher"; "Name"; "Staff"; "Staff Name"; "Instructor"].

Definition deptCandidates : list string :=
  ["Department"; "Dept"; "Subject"; "Subject Area"].

(** [parseExcelSchedule], from the rows [sheet_to_json] returns. *)
Definition parseExcelSchedule (sheetData : list row) (nonTeachingLabelsStr : string)
    : parseResult :=
  match sheetData with
  | [] => {| headers := ["Department"; "Teacher"]; teachers := []; periodCols := [] |}
  | first :: _ =>
      let nonTeachingSet := nonTeachingSetOf nonTeachingLabelsStr in
      let sheetHeaders := map fst first in
      let teacherColName := findColumnName sheetHeaders teacherCandidates in
      let deptColName := findColumnName sheetHeaders deptCandidates in
      let periodColNames :=
        filter (λ h, Is_true (includes (toLowerCase h) "period")) sheetHeaders in
      {| headers := outputHeadersOf periodColNames;
         teachers :=
           foldl (addTeacher nonTeachingSet teacherColName deptColName periodColNames)
                 [] sheetData;
         periodCols := periodColNames |}
  end.

(** The teacher name the normaliser resolves for a row of the sheet, by
    the column the column mapper finds among the keys of the first row. *)
Definition teacherNameOf (sheetData : list row) (r : row) : string :=
  match sheetData with
  | [] => ""
  | first :: _ => resolveCell (findColumnName (map fst first) teacherCandidates) r
  end.

(** ** Validator *)

Inductive severity := Error | Warning.

(** The four kinds of issue [validateSchedule] pushes, one constructor for
    each object literal; [issueSeverity] and [issueMessage] give the two
    fields of the object. *)
Inductive issue :=
  | MissingName
  | DuplicateTeacher (name : string)
  | AllPrep (name : string)
  | PossibleTypo (courseText label : string).

Definition issueSeverity (i : issue) : severity :=
  match i with
  | MissingName => Error
  | _ => Warning
  end.

Definition issueMessage (i : issue) : string :=
  match i with
  | MissingName => "Missing teacher name in one row"
  | DuplicateTeacher name => "Duplicate teacher: " +:+ name
  | AllPrep name => "All-prep schedule: " +:+ name
  | PossibleTypo c label =>
      "Possible typo: " +:+ dq +:+ c +:+ dq +:+ " (similar to " +:+ dq +:+ label +:+ dq +:+ ")"
  end.

(** The variables the loop over the teachers updates. *)
Record validatorState := ValidatorState {
  issues : list issue;
  seenTeachers : list string;
  allCoursesStr : list string
}.

(** [c === 'Prep' || c === ''] *)
Definition isPrepOrEmpty (c : string) : bool :=
  String.eqb c "Prep" || String.eqb c "".

(** [cell && !cell.includes('(Room:') && cell !== 'Prep'] *)
Definition isCourseRef (cell : string) : bool :=
  negb (isEmpty cell) && negb (includes cell "(Room:") && negb (String.eqb cell "Prep").

Definition isAllPrep (t : teacherRow) : bool :=
  let dataStr := toLowerCase (join "|" (data t)) in
  negb (includes dataStr "(room:") && forallb isPrepOrEmpty (drop 2 (data t)).

(** One turn of [for (const teacher of teachers)]. *)
Definition validateTeacher (st : validatorState) (t : teacherRow) : validatorState :=
  let issues1 :=
    if isEmpty (teacher t) || isEmpty (trim (teacher t))
    then issues st ++ [MissingName] else issues st in
  let teacherLower := toLowerCase (teacher t) in
  let issues2 :=
    if setHas (seenTeachers st) teacherLower
    then issues1 ++ [DuplicateTeacher (teacher t)] else issues1 in
  let issues3 :=
    if isAllPrep t then issues2 ++ [AllPrep (teacher t)] else issues2 in
  {| issues := issues3;
     seenTeachers := setAdd (seenTeachers st) teacherLower;
     allCoursesStr :=
       foldl (λ courses cell, if isCourseRef cell then courses ++ [cell] else courses)
             (allCoursesStr st) (drop 2 (data t)) |}.

(** [dist > 0 && dist <= 2 && !courseLower.includes('(room:')] *)
Definition looksLikeTypo (courseLower label : string) : bool :=
  let dist := levenshteinDistance courseLower label in
  (0 <? dist) && (dist <=? 2) && negb (includes courseLower "(room:").

(** The inner [for (const label of knownLabels)] loop with its [break]. *)
Fixpoint typoLabel (courseLower : string) (knownLabels : list string) : option string :=
  match knownLabels with
  | [] => None
  | label :: rest =>
      if looksLikeTypo courseLower label then Some label
      else typoLabel courseLower rest
  end.

Definition typoCheck (knownLabels : list string) (issues : list issue)
    (courseText : string) : list issue :=
  match typoLabel (toLowerCase courseText) knownLabels with
  | Some label => issues ++ [PossibleTypo courseText label]
  | None => issues
  end.

Definition validateSchedule (teachers : list teacherRow) (nonTeachingLabelsStr : string)
    : list issue :=
  let nonTeachingSet := nonTeachingSetOf nonTeachingLabelsStr in
  let st := foldl validateTeacher (ValidatorState [] [] []) teachers in
  let knownLabels := nonTeachingSet in
  let uniqueCourses := newSet (allCoursesStr st) in
  foldl (typoCheck knownLabels) (issues st) uniqueCourses.

(** *** The issues, kind by kind *)

(** What one turn of the loop pushes, given the names seen before it. *)
Definition teacherIssues (seen : list string) (t : teacherRow) : list issue :=
  (if isEmpty (teacher t) || isEmpty (trim (teacher t)) then [MissingName] else []) ++
  (if setHas seen (toLowerCase (teacher t)) then [DuplicateTeacher (teacher t)] else []) ++
  (if isAllPrep t then [AllPrep (teacher t)] else []).

Fixpoint rowIssues (seen : list string) (teachers : list teacherRow) : list issue :=
  match teachers with
  | [] => []
  | t :: rest =>
      teacherIssues seen t ++ rowIssues (setAdd seen (toLowerCase (teacher t))) rest
  end.

(** The cells of a row collected for the typo check. *)
Definition coursesOf (t : teacherRow) : list string :=
  filter (λ cell, Is_true (isCourseRef cell)) (drop 2 (data t)).

Definition isDuplicateIssue (i : issue) : bool :=
  match i with DuplicateTeacher _ => true | _ => false end.

Definition isAllPrepIssue (i : issue) : bool :=
  match i with AllPrep _ => true | _ => false end.

Definition isTypoIssue (i : issue) : bool :=
  match i with PossibleTypo _ _ => true | _ => false end.

Definition isTypoFor (courseText : string) (i : issue) : bool :=
  match i with PossibleTypo c _ => String.eqb c courseText | _ => false end.

(** The names that repeat an earlier name of the list up to letter case,
    in list order: the second and later occurrences. *)
Definition repeatedNames (names : list string) : list string :=
  omap id
    (imap (λ i name,
             if bool_decide (toLowerCase name ∈ toLowerCase <$> take i names)
             then Some name else None)
          names).

(** A row with a blank teaching load, as the code decides it: every
    period cell is [Prep] or empty, and no entry of the row (department,
    teacher name or period cell) contains [(room:] in any letter case. *)
Definition allPrepRow (t : teacherRow) : bool :=
  forallb isPrepOrEmpty (drop 2 (data t)) &&
  forallb (λ entry, negb (includes (toLowerCase entry) "(room:")) (data t).

(** The same in the words of the specification: the substring is
    [(Room:], as written. *)
Definition specAllPrepRow (t : teacherRow) : bool :=
  forallb isPrepOrEmpty (drop 2 (data t)) &&
  forallb (λ cell, negb (includes cell "(Room:")) (data t).

(** [distance courseLower label] is the edit distance of the two
    strings; [withinTypoDistance] says it is 1 or 2. *)
Definition distance (courseLower label : string) : nat :=
  editDistance courseLower label (String.length courseLower) (String.length label).

Definition withinTypoDistance (courseLower label : string) : bool :=
  (1 <=? distance courseLower label) && (distance courseLower label <=? 2).

(** [exactLabel knownLabels courseLower]: the case-folded course text is
    itself a configured label (at distance 0 from it); [nearLabel]: some
    configured label is at distance 1 or 2 from it. *)
Definition exactLabel (knownLabels : list string) (courseLower : string) : bool :=
  existsb (λ label, distance courseLower label =? 0) knownLabels.

Definition nearLabel (knownLabels : list string) (courseLower : string) : bool :=
  existsb (withinTypoDistance courseLower) knownLabels.

(** A course cell value in the words of the specification: a period cell
    of some row that is not [Prep] and does not contain [(Room:]. *)
Definition specCourseCell (teachers : list teacherRow) (c : string) : Prop :=
  ∃ t, t ∈ teachers ∧ c ∈ drop 2 (data t) ∧
       c ≠ "Prep" ∧ includes c "(Room:" = false.

(** The row of the all-prep example of the specification that gets no
    warning. *)
Definition biologyRow : teacherRow :=
  {| teacher := "Lee, Anna"; dept := "Science";
     data := ["Science"; "Lee, Anna"; "Biology (Room: 101)"; "Prep"; "Prep"] |}.

(** A row named with a room in capitals, all of whose periods are [Prep]. *)
Definition capitalRoomRow : teacherRow :=
  {| teacher := "Lee (ROOM: 12)"; dept := "Math";
     data := ["Math"; "Lee (ROOM: 12)"; "Prep"; "Prep"] |}.

(** The row of the typo examples of the specification. *)
Definition typoRow : teacherRow :=
  {| teacher := "Lee, Anna"; dept := "Math";
     data := ["Math"; "Lee, Anna"; "perp"; "xprep"; "math"; "PREP"] |}.

(** A row with a period cell that is a configured label, in its own
    letter case. *)
Definition lunchRow : teacherRow :=
  {| teacher := "Lee, Anna"; dept := "Math";
     data := ["Math"; "Lee, Anna"; "Lunch"; "Algebra I (Room: 204)"] |}.

(** A row with an empty period cell. *)
Definition emptyCellRow : teacherRow :=
  {| teacher := "Lee, Anna"; dept := "Math";
     data := ["Math"; "Lee, Anna"; ""] |}.

(** A row with one cell that holds a room marker in capitals. *)
Definition capitalRoomCellRow : teacherRow :=
  {| teacher := "Lee, Anna"; dept := "Math";
     data := ["Math"; "Lee, Anna"; "(ROOM:x"] |}.

(** ** CSV line reader (absence-report generator) *)

(** The state of [parseCSVLine]'s scan: the fields closed so far, the field
    being read and whether the scan is inside quotes. *)
Fixpoint scanCSV (line : string) (result : list string) (current : string)
    (inQuotes : bool) : list string :=
  match line with
  | "" => result ++ [current]
  | String ch rest =>
      if inQuotes then
        if Ascii.eqb ch DQ then
          match rest with
          | String next rest' =>
              if Ascii.eqb next DQ
              then scanCSV rest' result (current +:+ dq) true
              else scanCSV rest result current false
          | "" => scanCSV rest result current false
          end
        else scanCSV rest result (current +:+ String ch "") true
      else if Ascii.eqb ch DQ then scanCSV rest result current true
      else if Ascii.eqb ch "," then scanCSV rest (result ++ [current]) "" false
      else scanCSV rest result (current +:+ String ch "") false
  end.

(** [parseCSVLine]: the [for] loop reads [line] from the left, and skips
    the second quote of a doubled one with its extra [i++]. *)
Definition parseCSVLine (line : string) : list string :=
  scanCSV line [] "" false.

(** ** Sample inputs *)

(** The cell of the doc comment of [parsePeriodCell]. *)
Definition sampleCell : string :=
  "AP Statistics" +:+ lf +:+ "      FY  Room:B208  Days:A" +:+ lf +:+
  "Geometry" +:+ lf +:+ "      FY  Room:B208  Days:B".

(** A cell whose B-day track starts with a blank course line. *)
Definition blankCourseCell : string :=
  "Math" +:+ lf +:+ "Days:A" +:+ lf +:+ lf +:+ "Days:B".

(** The row of the end-to-end example of the specification. *)
Definition sampleRow : row :=
  [("Teacher", "Lee, Anna"); ("Department", "Math");
   ("Period 1",
    "Algebra I" +:+ lf +:+ "      FY  Room:204  Days:A" +:+ lf +:+
    "Geometry" +:+ lf +:+ "      FY  Room:204  Days:B")].

(** * Further code of the tools

    The rest of the master-schedule parser ([generateCsv] and the test of
    [onParse]), the CSV reader and the roster of the absence-report
    generator, the seed hash and the seeded generator of the
    sample-schedule generator, [kebabCase] of the two libraries, and the
    time and period checks of the bell-schedule builder. *)

(** ** Master-schedule parser *)

(** The classes of both day tracks. *)
Definition allClasses (r : dayClasses) : list classObj :=
  aDayClasses r ++ bDayClasses r.

(** [generateCsv]: the header line, then one line for each teacher row. *)
Definition generateCsv (headers : list string) (teachers : list teacherRow) : string :=
  let rows :=
    foldl (λ rows t, rows ++ [join "," (escapeCsv <$> data t)])
          [join "," (escapeCsv <$> headers)] teachers in
  join lf rows.

(** The cell that stands for the doc comment's class in the output. *)
Definition sampleClass : classObj :=
  {| course := "AP Statistics"; room := "B208"; type := FY |}.

(** [i.severity === 'error'] *)
Definition isErrorIssue (i : issue) : bool :=
  match issueSeverity i with Error => true | Warning => false end.

(** [currentIssues.some(i => i.severity === 'error')], the test of
    [onParse] that disables the download button. *)
Definition hasErrors (currentIssues : list issue) : bool :=
  existsb isErrorIssue currentIssues.

(** [!teacher.teacher || teacher.teacher.trim() === ''] *)
Definition blankName (t : teacherRow) : bool :=
  isEmpty (teacher t) || isEmpty (trim (teacher t)).

(** ** CSV reader and roster of the absence-report generator *)

Definition CR : ascii := "013"%char.

(** [s] starts with a line feed. *)
Definition startsWithLF (s : string) : bool :=
  match s with
  | "" => false
  | String c _ => Ascii.eqb c LF
  end.

(** [text.split(/\r?\n/)]: the text is cut at every line feed, and a
    carriage return that stands right before the line feed goes with it. *)
Fixpoint splitLines (text : string) : list string :=
  match text with
  | "" => [""]
  | String c rest =>
      if Ascii.eqb c LF then "" :: splitLines rest
      else if Ascii.eqb c CR && startsWithLF rest then splitLines rest
      else match splitLines rest with
           | [] => [String c ""]
           | line :: lines => String c line :: lines
           end
  end.

(** [s] ends with a carriage return. *)
Fixpoint endsWithCR (s : string) : bool :=
  match s with
  | "" => false
  | String c "" => Ascii.eqb c CR
  | String _ rest => endsWithCR rest
  end.

Module Roster.

(** [{ headers, rows }]; a row is an object [{}] from header to cell
    text, given by its own properties. *)
Record parsed := Parsed {
  headers : list string;
  rows : list (gmap string string)
}.

(** The loop [for (let j = 0; j < headers.length; j++)] from index [j]
    on, over the headers that are left:
    [row[headers[j]] = (values[j] || '').trim()]. *)
Fixpoint fillRow (row : gmap string string) (headersLeft values : list string)
    (j : nat) : gmap string string :=
  match headersLeft with
  | [] => row
  | h :: rest =>
      fillRow (objectSet row h (trim (default "" (values !! j)))) rest values (S j)
  end.

Definition rowOf (headers values : list string) : gmap string string :=
  fillRow ∅ headers values 0.

(** [line => line.trim()] as a filter: the line is kept when it is not
    blank. *)
Definition notBlank (line : string) : bool := negb (isEmpty (trim line)).

Definition parseCSV (text : string) : parsed :=
  let lines := filter (λ line, Is_true (notBlank line)) (splitLines text) in
  match lines with
  | [] => {| headers := []; rows := [] |}
  | first :: others =>
      let headers := parseCSVLine first in
      {| headers := headers;
         rows :=
           foldl (λ rows line,
                    let values := parseCSVLine line in
                    if 0 <? length values then rows ++ [rowOf headers values]
                    else rows)
                 [] others |}
  end.

(** [if (!dept || dept === 'nan') dept = 'General'] *)
Definition orGeneral (dept : string) : string :=
  if isEmpty dept || String.eqb dept "nan" then "General" else dept.

(** [{ teachers, teacherCount, departments }]; [departments] is the
    object [deptCounts], read as a finite map over the keys assigned to it
    (a department named like a property every object inherits is outside
    this reading). *)
Record roster := MkRoster {
  teachers : list (string * string);
  teacherCount : nat;
  departments : gmap string nat
}.

(** One turn of [for (const row of rows)] of [parseTeacherRoster], on
    [teachers] and [deptCounts]; a row with no name is skipped by
    [continue].  [Teacher] and [Department] are no names an object
    inherits, so the own properties of the row decide what is read. *)
Definition addRosterRow (st : list (string * string) * gmap string nat)
    (row : gmap string string) : list (string * string) * gmap string nat :=
  let '(teachers, deptCounts) := st in
  let name := trim (default "" (row !! "Teacher")) in
  let dept := trim (default "" (row !! "Department")) in
  if isEmpty name then (teachers, deptCounts)
  else
    let dept := orGeneral dept in
    (teachers ++ [(name, dept)],
     <[dept := default 0 (deptCounts !! dept) + 1]> deptCounts).

Definition parseTeacherRoster (csvText : string) : roster :=
  let '(teachers, deptCounts) :=
    foldl addRosterRow ([], ∅) (rows (parseCSV csvText)) in
  {| teachers := teachers; teacherCount := length teachers;
     departments := deptCounts |}.

End Roster.

(** A row that [generateCsv] writes on a line of its own which
    [parseCSV] keeps: at least two fields, no line feed in any of them,
    no carriage return at the end of the last one. *)
Definition csvRowOk (fields : list string) : bool :=
  (2 <=? length fields) && forallb (λ f, negb (hasChar LF f)) fields &&
  negb (endsWithCR (default "" (last fields))).

(** The line of one row in the file. *)
Definition csvLine (fields : list string) : string :=
  join "," (escapeCsv <$> fields).

(** The last character of a string. *)
Fixpoint lastChar (s : string) : option ascii :=
  match s with
  | "" => None
  | String c "" => Some c
  | String _ rest => lastChar rest
  end.

(** The teacher row the normaliser makes of [sampleRow]. *)
Definition sampleTeacherRow : teacherRow :=
  {| teacher := "Lee, Anna"; dept := "Math";
     data := ["Math"; "Lee, Anna"; "Algebra I (Room: 204)"; "Geometry (Room: 204)"] |}.

(** ** Seed of the sample-schedule generator *)

(** 32-bit integers: [ToInt32] and [ToUint32] of ECMAScript on the
    integers. *)
Definition toInt32 (x : Z) : Z := ((x + 2 ^ 31) mod 2 ^ 32 - 2 ^ 31)%Z.
Definition toUint32 (x : Z) : Z := (x mod 2 ^ 32)%Z.

(** [str.charCodeAt(i)] *)
Definition charCode (c : ascii) : Z := Z.of_N (N_of_ascii c).

(** One turn of the loop of [hashSeed]:
    [hash = ((hash << 5) - hash) + char; hash = hash & hash]. *)
Definition hashStep (hash : Z) (c : ascii) : Z :=
  let char := charCode c in
  let hash := (toInt32 (Z.shiftl (toInt32 hash) 5) - hash + char)%Z in
  Z.land (toInt32 hash) (toInt32 hash).

Fixpoint hashLoop (str : string) (hash : Z) : Z :=
  match str with
  | "" => hash
  | String c rest => hashLoop rest (hashStep hash c)
  end.

(** [hashSeed]: [Math.abs(hash) >>> 0] at the end. *)
Definition hashSeed (str : string) : Z := toUint32 (Z.abs (hashLoop str 0)).

(** The polynomial in 31 with the character codes as coefficients, the
    first character with the highest power, on top of [acc]. *)
Fixpoint polynomial31 (str : string) (acc : Z) : Z :=
  match str with
  | "" => acc
  | String c rest => polynomial31 rest (31 * acc + charCode c)%Z
  end.

(** ** Seeded random number generator *)

(** [roundToEven n e]: the multiple of 2^e nearest to [n], and of the two
    nearest ones the even multiple when [n] is half way between them. *)
Definition roundToEven (n e : Z) : Z :=
  let q := (n / 2 ^ e)%Z in
  let r := (n mod 2 ^ e)%Z in
  let half := (2 ^ (e - 1))%Z in
  if (r <? half)%Z then (q * 2 ^ e)%Z
  else if (half <? r)%Z then ((q + 1) * 2 ^ e)%Z
  else if Z.even q then (q * 2 ^ e)%Z
  else ((q + 1) * 2 ^ e)%Z.

(** The double nearest to the integer [n], below the overflow of
    doubles: [n] itself when it has no more than 53 significant bits, and
    [n] rounded to 53 significant bits otherwise.  A fraction over a power
    of two is rounded as its numerator is. *)
Definition round53 (n : Z) : Z :=
  let bits := (Z.log2 (Z.abs n) + 1)%Z in
  if (bits <=? 53)%Z then n else roundToEven n (bits - 53).

Module SeededRandom.

(** [Math.imul], and the bit operations on the 32-bit readings of their
    operands. *)
Definition imul (a b : Z) : Z := toInt32 (toInt32 a * toInt32 b).
Definition xor32 (a b : Z) : Z := Z.lxor (toInt32 a) (toInt32 b).
Definition or32 (a b : Z) : Z := Z.lor (toInt32 a) (toInt32 b).

(** [a >>> n] *)
Definition ushr (a n : Z) : Z := Z.shiftr (toUint32 a) n.

(** [constructor(seed)]: the state of the generator is [this.seed]. *)
Definition constructor (seed : Z) : Z := toUint32 seed.

(** [random()], on the state [seed]: the new state, and the numerator of
    the fraction over 4294967296 that is returned. *)
Definition random (seed : Z) : Z * Z :=
  let seed := (seed + 0x6d2b79f5)%Z in
  let x := seed in
  let x := imul (xor32 x (ushr x 15)) (or32 1 x) in
  let x := xor32 x (x + imul (xor32 x (ushr x 7)) (or32 61 x)) in
  let seed := xor32 x (ushr x 14) in
  (seed, toUint32 seed).

(** [randint(min, max)]: [Math.floor(this.random() * (max - min)) + min]
    for integers [min] and [max], in the arithmetic of doubles: the
    difference, the product with the fraction and the sum are rounded. *)
Definition randint (seed min max : Z) : Z * Z :=
  let '(seed, numerator) := random seed in
  let width := round53 (max - min) in
  (seed, round53 (round53 (numerator * width) / 4294967296 + min)%Z).

(** [choice(arr)]; [None] is [undefined]. *)
Definition choice {A} (seed : Z) (arr : list A) : Z * option A :=
  if length arr =? 0 then (seed, None)
  else
    let '(seed, idx) := randint seed 0 (Z.of_nat (length arr)) in
    (seed, if (idx <? 0)%Z then None else arr !! Z.to_nat idx).

(** One turn of the loop of [sample], on the state of the generator,
    [copy] and [result]: the swap of [copy[i]] and [copy[idx]], then the
    push of [copy[i]].  The last case (an index outside [copy]) does not
    arise: [idx] is drawn from [i] to the length of [copy]. *)
Definition sampleStep {A} (st : Z * list A * list A) (i : nat) : Z * list A * list A :=
  let '(seed, copy, result) := st in
  let '(seed, idx) := randint seed (Z.of_nat i) (Z.of_nat (length copy)) in
  match copy !! Z.to_nat idx, copy !! i with
  | Some atIdx, Some atI =>
      let copy := <[Z.to_nat idx := atI]> (<[i := atIdx]> copy) in
      (seed, copy, result ++ option_list (copy !! i))
  | _, _ => (seed, copy, result)
  end.

(** [sample(arr, n)] for a count [n]: the new state and [result]. *)
Definition sample {A} (seed : Z) (arr : list A) (n : nat) : Z * list A :=
  let '(seed, _, result) :=
    foldl sampleStep (seed, arr, []) (seq 0 (Nat.min n (length arr))) in
  (seed, result).

End SeededRandom.

(** ** File names of the libraries *)

(** The class [\w]: a letter of the English alphabet, a digit or the
    underscore. *)
Definition isWordChar (c : ascii) : bool :=
  let n := N_of_ascii c in
  ((48 <=? n) && (n <=? 57) || (65 <=? n) && (n <=? 90) ||
   (97 <=? n) && (n <=? 122) || (n =? 95))%N.

Definition HYPHEN : ascii := "-"%char.
Definition isHyphen (c : ascii) : bool := Ascii.eqb c HYPHEN.

(** [s] starts with a character of the class [p]. *)
Definition startsWith (p : ascii → bool) (s : string) : bool :=
  match s with
  | "" => false
  | String c _ => p c
  end.

(** [replace(/[^\w\s-]/g, '')] *)
Fixpoint removeOther (s : string) : string :=
  match s with
  | "" => ""
  | String c rest =>
      if isWordChar c || isSpace c || isHyphen c then String c (removeOther rest)
      else removeOther rest
  end.

(** [replace(/p+/g, '-')]: every maximal run of characters of the class
    [p] becomes one hyphen, written where the run ends. *)
Fixpoint collapseRuns (p : ascii → bool) (s : string) : string :=
  match s with
  | "" => ""
  | String c rest =>
      if p c then
        if startsWith p rest then collapseRuns p rest
        else String HYPHEN (collapseRuns p rest)
      else String c (collapseRuns p rest)
  end.

(** The match [-$] of the last replacement. *)
Fixpoint dropLastHyphen (s : string) : string :=
  match s with
  | "" => ""
  | String c "" => if isHyphen c then "" else s
  | String c rest => String c (dropLastHyphen rest)
  end.

(** [replace(/^-|-$/g, '')]: a hyphen at the start is removed, and then a
    hyphen at the end of what follows it. *)
Definition stripEdgeHyphens (s : string) : string :=
  match s with
  | String c rest => if isHyphen c then dropLastHyphen rest else dropLastHyphen s
  | "" => ""
  end.

Definition kebabCase (str : string) : string :=
  stripEdgeHyphens
    (collapseRuns isHyphen
       (collapseRuns isSpace
          (removeOther (toLowerCase str)))).

(** The characters of a file name stem: a small letter, a digit, the
    underscore or the hyphen. *)
Definition isStemChar (c : ascii) : bool :=
  let n := N_of_ascii c in
  ((48 <=? n) && (n <=? 57) || (97 <=? n) && (n <=? 122) || (n =? 95) || (n =? 45))%N.

Fixpoint allChars (p : ascii → bool) (s : string) : bool :=
  match s with
  | "" => true
  | String c rest => p c && allChars p rest
  end.

(** No two hyphens in a row. *)
Fixpoint noDoubleHyphen (s : string) : bool :=
  match s with
  | "" => true
  | String c rest => negb (isHyphen c && startsWith isHyphen rest) && noDoubleHyphen rest
  end.

(** A stem as [kebabCase] leaves it: stem characters only, no hyphen at
    either end, no two hyphens in a row. *)
Definition isStem (s : string) : bool :=
  allChars isStemChar s && negb (startsWith isHyphen s) &&
  negb (bool_decide (lastChar s = Some HYPHEN)) && noDoubleHyphen s.

(** ** Bell-schedule builder: times and periods *)

Module Bell.

(** The class [\d]. *)
Definition isDigit (c : ascii) : bool :=
  let n := N_of_ascii c in ((48 <=? n) && (n <=? 57))%N.

Definition digitValue (c : ascii) : nat := N.to_nat (N_of_ascii c) - 48.

(** The number a run of decimal digits denotes. *)
Fixpoint decimalLoop (digits : string) (acc : nat) : nat :=
  match digits with
  | "" => acc
  | String c rest => decimalLoop rest (10 * acc + digitValue c)
  end.

Definition decimalValue (digits : string) : nat := decimalLoop digits 0.

(** [parseInt] on what the groups of the time pattern capture: a run of
    two decimal digits. *)
Definition parseInt (digits : string) : nat := decimalValue digits.

(** [Number(s)]: for a run of one to fifteen decimal digits the number
    they denote; the conversion of any other text (the empty string,
    signs, fractions, exponents, text that is no number) is not modelled
    and shown as [OtherNumber]. *)
Inductive number := Num (n : nat) | OtherNumber.

Definition Number (s : string) : number :=
  if negb (isEmpty s) && allChars isDigit s && (String.length s <=? 15)
  then Num (decimalValue s) else OtherNumber.

(** The result of [parseTimeToMinutes]: [null], a number of minutes, or a
    number the model of [Number] does not give. *)
Inductive minutes := Null | Minutes (n : nat) | OtherMinutes.

Definition parseTimeToMinutes (timeStr : string) : minutes :=
  if isEmpty timeStr then Null
  else
    match Number <$> split ":" timeStr with
    | Num hours :: Num mins :: _ => Minutes (hours * 60 + mins)
    | _ => OtherMinutes
    end.

(** [s.padStart(2, '0')] *)
Definition padStart2 (s : string) : string :=
  match String.length s with
  | 0 => "00"
  | 1 => "0" +:+ s
  | _ => s
  end.

(** [minutesToTime] for [null] ([None]) and for a count of minutes;
    [pretty] writes a number in decimal, as [String] does. *)
Definition minutesToTime (mins : option nat) : string :=
  match mins with
  | None => ""
  | Some m =>
      let hours := m / 60 in
      let mins := m mod 60 in
      padStart2 (pretty hours) +:+ ":" +:+ padStart2 (pretty mins)
  end.

(** [{ valid, error }] *)
Record timeCheck := TimeCheck {
  valid : bool;
  error : option string
}.

(** [str.match(/^(\d{2}):(\d{2})$/)]: the two groups. *)
Definition matchTime (str : string) : option (string * string) :=
  match str with
  | String a (String b (String c (String d (String e "")))) =>
      if isDigit a && isDigit b && Ascii.eqb c ":" && isDigit d && isDigit e
      then Some (String a (String b ""), String d (String e ""))
      else None
  | _ => None
  end.

Definition validateTimeFormat (str : string) : timeCheck :=
  if isEmpty str then {| valid := false; error := Some "Time is required" |}
  else
    match matchTime str with
    | None => {| valid := false; error := Some "Time must be in HH:MM format" |}
    | Some (hours, mins) =>
        let h := parseInt hours in
        let m := parseInt mins in
        if (h <? 0) || (23 <? h)
        then {| valid := false; error := Some "Hours must be 00-23" |}
        else if (m <? 0) || (59 <? m)
        then {| valid := false; error := Some "Minutes must be 00-59" |}
        else {| valid := true; error := None |}
    end.

(** [{ name, startTime, endTime }] *)
Record period := Period {
  name : string;
  startTime : string;
  endTime : string
}.

Inductive severity := SevError | SevWarning | SevInfo.

(** [{ severity, scheduleName, periodName, message, suggestion }] *)
Record issue := Issue {
  issueSeverity : severity;
  scheduleName : string;
  periodName : string;
  message : string;
  suggestion : string
}.

(** [period.name || '(unnamed)'] *)
Definition orUnnamed (name : string) : string :=
  if isEmpty name then "(unnamed)" else name.

(** [`${x}`] for a value that is a string or [null]. *)
Definition orNull (x : option string) : string := default "null" x.

(** The part of [validatePeriod] under
    [if (startValid.valid && endValid.valid)].  The last case (a time
    that is valid and gives no minutes) does not arise. *)
Definition durationIssues (p : period) (schedule : string) : list issue :=
  match parseTimeToMinutes (startTime p), parseTimeToMinutes (endTime p) with
  | Minutes startMin, Minutes endMin =>
      if endMin <=? startMin then
        [{| issueSeverity := SevError; scheduleName := schedule;
            periodName := orUnnamed (name p);
            message := "Start time must be before end time";
            suggestion := "Adjust times (currently " +:+ startTime p +:+ " - " +:+
                          endTime p +:+ ")" |}]
      else
        let duration := endMin - startMin in
        (if duration <? 5 then
           [{| issueSeverity := SevWarning; scheduleName := schedule;
               periodName := orUnnamed (name p);
               message := "Period duration is very short (" +:+ pretty duration +:+
                          " minutes)";
               suggestion := "Ensure this is intentional" |}]
         else []) ++
        (if 120 <? duration then
           [{| issueSeverity := SevWarning; scheduleName := schedule;
               periodName := orUnnamed (name p);
               message := "Period duration is very long (" +:+ pretty duration +:+
                          " minutes)";
               suggestion := "Ensure this is intentional" |}]
         else [])
  | _, _ => []
  end.

Definition validatePeriod (p : period) (schedule : string) : list issue :=
  let issues := [] in
  let issues :=
    if isEmpty (name p) || isEmpty (trim (name p))
    then issues ++
         [{| issueSeverity := SevError; scheduleName := schedule;
             periodName := "(unnamed)";
             message := "Period name is required";
             suggestion := "Enter a period name (e.g., " +:+ dq +:+ "Period 1" +:+ dq +:+ ")" |}]
    else issues in
  let startValid := validateTimeFormat (startTime p) in
  let issues :=
    if negb (valid startValid)
    then issues ++
         [{| issueSeverity := SevError; scheduleName := schedule;
             periodName := orUnnamed (name p);
             message := "Start time: " +:+ orNull (error startValid);
             suggestion := "Use HH:MM format (e.g., 08:00)" |}]
    else issues in
  let endValid := validateTimeFormat (endTime p) in
  let issues :=
    if negb (valid endValid)
    then issues ++
         [{| issueSeverity := SevError; scheduleName := schedule;
             periodName := orUnnamed (name p);
             message := "End time: " +:+ orNull (error endValid);
             suggestion := "Use HH:MM format (e.g., 09:00)" |}]
    else issues in
  if valid startValid && valid endValid
  then issues ++ durationIssues p schedule
  else issues.

(** [{ parsedName, masterName, startTime, endTime }] *)
Record segment := Segment {
  parsedName : string;
  masterName : string;
  segStartTime : string;
  segEndTime : string
}.

(** [`${splitName} > ${segment.parsedName || '(unnamed)'}`] *)
Definition segmentLabel (seg : segment) (splitName : string) : string :=
  splitName +:+ " > " +:+ orUnnamed (parsedName seg).

Definition validateSegment (seg : segment) (schedule splitName : string) : list issue :=
  let periodLike :=
    {| name := parsedName seg; startTime := segStartTime seg; endTime := segEndTime seg |} in
  let issues := validatePeriod periodLike schedule in
  let issues :=
    (λ i, {| issueSeverity := issueSeverity i; scheduleName := scheduleName i;
             periodName := segmentLabel seg splitName;
             message := message i; suggestion := suggestion i |}) <$> issues in
  if isEmpty (masterName seg) || isEmpty (trim (masterName seg))
  then issues ++
       [{| issueSeverity := SevError; scheduleName := schedule;
           periodName := segmentLabel seg splitName;
           message := "Master period name is required";
           suggestion := "Enter the master schedule period name for this segment" |}]
  else issues.

(** The checks of the round trip between a count of minutes and its
    text, for one count and for one pair of digits. *)
Definition minutes_eqb (a b : minutes) : bool :=
  match a, b with
  | Null, Null | OtherMinutes, OtherMinutes => true
  | Minutes x, Minutes y => x =? y
  | _, _ => false
  end.

Definition roundTripOk (n : nat) : bool :=
  valid (validateTimeFormat (minutesToTime (Some n))) &&
  minutes_eqb (parseTimeToMinutes (minutesToTime (Some n))) (Minutes n).

Definition digitChars : list ascii :=
  ["0"; "1"; "2"; "3"; "4"; "5"; "6"; "7"; "8"; "9"]%char.

Definition twoDigitsOk (a b : ascii) : bool :=
  let n := 10 * digitValue a + digitValue b in
  (decimalValue (String a (String b "")) =? n) &&
  String.eqb (padStart2 (pretty n)) (String a (String b "")).

End Bell.

(** A period [validatePeriod] has nothing to say about, for times given
    as minutes of the day. *)
Definition periodFine (p : Bell.period) (startMin endMin : nat) : Prop :=
  trim (Bell.name p) ≠ "" ∧
  startMin < 1440 ∧ endMin < 1440 ∧
  Bell.startTime p = Bell.minutesToTime (Some startMin) ∧
  Bell.endTime p = Bell.minutesToTime (Some endMin) ∧
  startMin + 5 ≤ endMin ∧ endMin ≤ startMin + 120.

(** The period of the suggestion texts: 08:00 to 09:00. *)
Definition samplePeriod : Bell.period :=
  {| Bell.name := "Period 1"; Bell.startTime := "08:00"; Bell.endTime := "09:00" |}.

(** [i.severity === 'error'] for the issues of the builder. *)
Definition isBellError (i : Bell.issue) : bool :=
  match Bell.issueSeverity i with Bell.SevError => true | _ => false end.

Definition sampleSegment : Bell.segment :=
  {| Bell.parsedName := "Lunch A"; Bell.masterName := "Period 4";
     Bell.segStartTime := "11:00"; Bell.segEndTime := "11:30" |}.

(** The class of a course line that has no details line. *)
Definition loneClass (line : string) : classObj :=
  {| course := trim line; room := ""; type := FY |}.

(** A cell with a course and its details, then a course with none. *)
Definition loneLineCell : string :=
  "AP Statistics" +:+ lf +:+ "      FY  Room:B208  Days:A" +:+ lf +:+ " Study Hall ".

(** The line end of a file written on Windows. *)
Definition crlf : string := String CR lf.

(** * Properties *)

(** ** Cell parser: the loop and its turns *)

Lemma appendClasses_noClasses_r x : appendClasses x noClasses = x.
Proof. destruct x as [a b]. unfold appendClasses; simpl. by rewrite !app_nil_r. Qed.

Lemma appendClasses_assoc x y z :
  appendClasses (appendClasses x y) z = appendClasses x (appendClasses y z).
Proof. unfold appendClasses; simpl. by rewrite !app_assoc. Qed.

Lemma parseLines_pair line detailsLine rest :
  isDetails detailsLine = true →
  parseLines (line :: detailsLine :: rest)
  = appendClasses (pairClasses line detailsLine) (parseLines rest).
Proof. intros Hd. simpl. by rewrite Hd. Qed.

Lemma parseLines_lone line rest :
  match rest with d :: _ => isDetails d = false | [] => True end →
  parseLines (line :: rest) = appendClasses (loneClasses line) (parseLines rest).
Proof. destruct rest as [|d rest]; [done|]. intros Hd. simpl. by rewrite Hd. Qed.

(** The index loop, given at least [length lines - i] turns, computes what
    the recursion over the remaining lines computes: the bound on the
    turns is never met. *)
Lemma parseLoop_fuel fuel lines i aDay bDay :
  length lines - i ≤ fuel →
  parseLoop fuel lines i aDay bDay
  = appendClasses (DayClasses aDay bDay) (parseLines (drop i lines)).
Proof.
  revert i aDay bDay.
  induction fuel as [|fuel IH]; intros i aDay bDay Hfuel.
  - rewrite drop_ge by lia. simpl. by rewrite appendClasses_noClasses_r.
  - simpl. destruct (lines !! i) as [line|] eqn:Hi.
    2:{ apply lookup_ge_None in Hi. rewrite drop_ge by lia.
        by rewrite appendClasses_noClasses_r. }
    pose proof (lookup_lt_Some _ _ _ Hi) as Hlt.
    rewrite (drop_S _ _ _ Hi).
    unfold hasDetailsLine.
    replace (i + 1) with (S i) by lia.
    replace (i + 2) with (S (S i)) by lia.
    destruct (lines !! S i) as [detailsLine|] eqn:Hi1.
    + cbn [from_option]; unfold id.
      destruct (isDetails detailsLine) eqn:Hd.
      * rewrite (drop_S _ _ _ Hi1), parseLines_pair by done.
        unfold pairClasses.
        destruct (daysMatch detailsLine) as [[]|];
          rewrite IH by lia; unfold appendClasses; simpl;
          by rewrite <- ?app_assoc.
      * rewrite parseLines_lone by (by rewrite (drop_S _ _ _ Hi1)).
        unfold loneClasses.
        destruct (isEmpty (trim line));
          rewrite IH by lia; unfold appendClasses; simpl;
          by rewrite <- ?app_assoc.
    + apply lookup_ge_None in Hi1. rewrite (drop_ge _ (S i)) by lia.
      cbn [parseLines]. unfold loneClasses.
      destruct (isEmpty (trim line));
        rewrite IH by lia; rewrite (drop_ge _ (S i)) by lia;
        unfold appendClasses; simpl; by rewrite ?app_nil_r.
Qed.

Lemma parsePeriodCell_lines cellValue :
  isEmpty (trim cellValue) = false →
  parsePeriodCell cellValue = parseLines (split LF cellValue).
Proof.
  intros Hne. unfold parsePeriodCell.
  destruct cellValue as [|c s]; [done|].
  rewrite Hne. cbn [isEmpty orb].
  rewrite parseLoop_fuel by lia. rewrite drop_0.
  by destruct (parseLines _).
Qed.

(** Lines read in whole turns before index [length pre] contribute what
    they contribute on their own. *)
Lemma parseLines_course_line pre line detailsLine post :
  courseLineAt (pre ++ line :: detailsLine :: post) (length pre) = true →
  isDetails detailsLine = true →
  parseLines (pre ++ line :: detailsLine :: post)
  = appendClasses (parseLines pre)
      (appendClasses (pairClasses line detailsLine) (parseLines post)).
Proof.
  intros Hat Hd.
  remember (length pre) as n eqn:Hn.
  revert pre Hn Hat.
  induction n as [n IH] using lt_wf_ind. intros pre -> Hat.
  destruct pre as [|p [|q pre]].
  - cbn [app]. rewrite parseLines_pair by done.
    by destruct (appendClasses _ _).
  - cbn [app length courseLineAt] in *.
    destruct (isDetails line) eqn:Hl; [done|].
    rewrite parseLines_lone by done.
    rewrite (parseLines_lone p []) by done.
    rewrite parseLines_pair by done.
    by rewrite appendClasses_assoc.
  - cbn [app length courseLineAt] in *.
    destruct (isDetails q) eqn:Hq.
    + rewrite !(parseLines_pair p q) by done.
      rewrite (IH (length pre)) by (done || lia).
      by rewrite appendClasses_assoc.
    + rewrite !(parseLines_lone p) by done.
      change (q :: pre ++ line :: detailsLine :: post)
        with ((q :: pre) ++ line :: detailsLine :: post) in *.
      rewrite (IH (S (length pre))) by (done || cbn [length]; lia).
      by rewrite appendClasses_assoc.
Qed.

(** C1.  In a cell where the loop reads [line] as a course line (it starts
    a turn there) and the next line is a details line, the class built
    from the two goes to the A-day track alone when the day flag is A, to
    the B-day track alone when it is B, and to both tracks, as the same
    value, when there is no day flag.  In each track it stands after all
    that the lines before it contribute and before all that the lines
    after it contribute: source order is kept. *)
Theorem parsePeriodCell_day_flag cellValue pre line detailsLine post :
  isEmpty (trim cellValue) = false →
  split LF cellValue = pre ++ line :: detailsLine :: post →
  courseLineAt (split LF cellValue) (length pre) = true →
  isDetails detailsLine = true →
  let c := detailedClass line detailsLine in
  let parsed := parsePeriodCell cellValue in
  let before := parseLines pre in
  let after := parseLines post in
  match daysMatch detailsLine with
  | Some DayA =>
      aDayClasses parsed = aDayClasses before ++ [c] ++ aDayClasses after ∧
      bDayClasses parsed = bDayClasses before ++ bDayClasses after
  | Some DayB =>
      aDayClasses parsed = aDayClasses before ++ aDayClasses after ∧
      bDayClasses parsed = bDayClasses before ++ [c] ++ bDayClasses after
  | None =>
      aDayClasses parsed = aDayClasses before ++ [c] ++ aDayClasses after ∧
      bDayClasses parsed = bDayClasses before ++ [c] ++ bDayClasses after
  end.
Proof.
  intros Hne Hsplit Hat Hd. cbv zeta.
  rewrite parsePeriodCell_lines by done.
  rewrite Hsplit in *.
  rewrite parseLines_course_line by done.
  unfold pairClasses.
  by destruct (daysMatch detailsLine) as [[]|].
Qed.

Lemma parsePeriodCell_day_flag_witness :
  let pre := ["AP Statistics"; "      FY  Room:B208  Days:A"] in
  let c := detailedClass "Geometry" "      FY  Room:B208  Days:B" in
  aDayClasses (parsePeriodCell sampleCell) = aDayClasses (parseLines pre) ++ [] ∧
  bDayClasses (parsePeriodCell sampleCell) = bDayClasses (parseLines pre) ++ [c] ++ [].
Proof.
  exact (parsePeriodCell_day_flag sampleCell
           ["AP Statistics"; "      FY  Room:B208  Days:A"]
           "Geometry" "      FY  Room:B208  Days:B" []
           eq_refl eq_refl eq_refl eq_refl).
Defined.

(** ** Strings, white space and unanchored search *)

Lemma str_app_nil_r (s : string) : s +:+ "" = s.
Proof. induction s as [|c s IH]; simpl; [done|by rewrite IH]. Qed.

Lemma str_app_assoc (a b c : string) : (a +:+ b) +:+ c = a +:+ b +:+ c.
Proof. induction a as [|x a IH]; simpl; [done|by rewrite IH]. Qed.

Lemma isSpace_cases c :
  isSpace c = true →
  c ∈ ["009"; "010"; "011"; "012"; "013"; " "; "160"]%char.
Proof.
  destruct c as [[] [] [] [] [] [] [] []]; vm_compute; intros H;
    first [discriminate H | set_solver].
Qed.

(** A literal without white space begins [q +:+ rest], where [rest] is at
    a gap, only if it begins [q]. *)
Lemma prefix_app_gap p q rest :
  noSpace p = true → atGap rest = true →
  String.prefix p (q +:+ rest) = String.prefix p q.
Proof.
  revert q. induction p as [|a p IH]; intros q Hp Hrest.
  - by destruct q, rest.
  - simpl in Hp. apply andb_true_iff in Hp as [Ha Hp].
    destruct q as [|b q]; simpl.
    + destruct rest as [|c rest]; [done|]. simpl in Hrest. simpl.
      destruct (ascii_dec a c) as [->|]; [|done].
      by rewrite Hrest in Ha.
    + destruct (ascii_dec a b); [by apply IH|done].
Qed.

Lemma stripPrefix_prefix p s :
  String.prefix p s = false → stripPrefix p s = None.
Proof.
  revert s. induction p as [|a p IH]; intros [|b s]; simpl; try done.
  destruct (ascii_dec a b) as [->|Hne].
  - rewrite Ascii.eqb_refl. apply IH.
  - intros _. by apply Ascii.eqb_neq in Hne as ->.
Qed.

Lemma stripPrefix_Some p s rest :
  stripPrefix p s = Some rest → s = p +:+ rest.
Proof.
  revert s. induction p as [|a p IH]; intros [|b s]; simpl; try congruence.
  destruct (Ascii.eqb_spec a b) as [->|]; [|done].
  intros H. by rewrite (IH _ H).
Qed.

Lemma stripPrefix_app p rest : stripPrefix p (p +:+ rest) = Some rest.
Proof. induction p as [|a p IH]; simpl; [done|]. by rewrite Ascii.eqb_refl. Qed.

Lemma nonSpaceRun_app_gap q rest :
  noSpace q = true → atGap rest = true → nonSpaceRun (q +:+ rest) = q.
Proof.
  induction q as [|c q IH]; simpl; intros Hq Hrest.
  - destruct rest as [|c rest]; [done|]. simpl in *. by rewrite Hrest.
  - apply andb_true_iff in Hq as [Hc Hq].
    destruct (isSpace c); [done|]. by rewrite IH.
Qed.

Lemma nonSpaceRun_noSpace q : noSpace q = true → nonSpaceRun q = q.
Proof.
  intros Hq. rewrite <- (str_app_nil_r q) at 1. by apply nonSpaceRun_app_gap.
Qed.

Lemma search_hit {A} (m : string → option A) s x :
  m s = Some x → search m s = Some x.
Proof. intros H. destruct s; simpl; by rewrite H. Qed.

(** White space before the text is passed over by a pattern that cannot
    start with white space. *)
Lemma search_gap {A} (m : string → option A) g rest :
  (∀ c s, isSpace c = true → m (String c s) = None) →
  allSpace g = true →
  search m (g +:+ rest) = search m rest.
Proof.
  intros Hm. induction g as [|c g IH]; simpl; [done|].
  intros [Hc Hg]%andb_true_iff. rewrite (Hm _ _ Hc). by apply IH.
Qed.

Lemma search_token {A} (m : string → option A) tok rest :
  localAt m → noSpace tok = true → atGap rest = true →
  search m (tok +:+ rest)
  = match search m tok with Some x => Some x | None => search m rest end.
Proof.
  intros Hm. induction tok as [|c tok IH]; intros Htok Hrest.
  - simpl. specialize (Hm "" rest eq_refl Hrest). simpl in Hm.
    destruct (m "") eqn:E0; [|done].
    by apply search_hit.
  - change (String c tok +:+ rest) with (String c (tok +:+ rest)).
    cbn [search].
    change (String c (tok +:+ rest)) with (String c tok +:+ rest).
    rewrite (Hm (String c tok) rest Htok Hrest).
    destruct (m (String c tok)); [done|].
    simpl in Htok. apply andb_true_iff in Htok as [_ Htok].
    by apply IH.
Qed.

(** *** Tokens *)

(** The first token of a text, the white space before it and the text
    after it. *)
Lemma tokens_inv s :
  match tokens s with
  | [] => allSpace s = true
  | t :: ts =>
      ∃ g rest, s = g +:+ t +:+ rest ∧ allSpace g = true ∧ noSpace t = true ∧
                t ≠ "" ∧ atGap rest = true ∧ tokens rest = ts
  end.
Proof.
  induction s as [|c s IH]; simpl; [done|].
  destruct (isSpace c) eqn:Hc.
  - destruct (tokens s) as [|t ts]; [done|].
    destruct IH as (g & rest & -> & Hg & Ht & Hne & Hrest & Hts).
    exists (String c g), rest. simpl. by rewrite Hc, Hg.
  - destruct s as [|c' s'].
    + exists "", "". simpl. by rewrite Hc.
    + destruct (isSpace c') eqn:Hc'.
      * exists "", (String c' s'). simpl. by rewrite Hc, Hc'.
      * revert IH. cbn [tokens]. rewrite Hc'.
        set (ts0 := match s' with "" => _ | String _ _ => _ end).
        destruct ts0 as [|t ts].
        { simpl. by rewrite Hc'. }
        intros (g & rest & Hs & Hg & Ht & Hne & Hrest & Hts).
        destruct g as [|cg g].
        -- exists "", rest. simpl in *. rewrite Hs, Hc, Ht. done.
        -- simpl in Hs, Hg. injection Hs as -> ->.
           by rewrite Hc' in Hg.
Qed.

Lemma tokens_noSpace s : Forall (λ t, noSpace t = true) (tokens s).
Proof.
  remember (length (tokens s)) as n eqn:Hn. revert s Hn.
  induction n as [|n IH]; intros s Hn.
  - by destruct (tokens s).
  - pose proof (tokens_inv s) as Hinv.
    destruct (tokens s) as [|t ts]; [done|].
    destruct Hinv as (g & rest & -> & Hg & Ht & Hne & Hrest & Hts).
    constructor; [done|]. rewrite <- Hts. apply IH.
    rewrite Hts. simpl in Hn. lia.
Qed.

(** A local pattern finds in a text what it finds in the first token that
    has a match. *)
Lemma search_tokens {A} (m : string → option A) s :
  localAt m →
  (∀ c s, isSpace c = true → m (String c s) = None) →
  search m s = firstSome (search m <$> tokens s).
Proof.
  intros Hloc Hsp.
  assert (H0 : m "" = None).
  { specialize (Hloc "" " " eq_refl eq_refl). simpl in Hloc.
    rewrite <- Hloc. by apply Hsp. }
  remember (length (tokens s)) as n eqn:Hn. revert s Hn.
  induction n as [|n IH]; intros s Hn; pose proof (tokens_inv s) as Hinv.
  - destruct (tokens s) as [|t ts]; [|done]. simpl.
    rewrite <- (str_app_nil_r s), search_gap by done. simpl. by rewrite H0.
  - destruct (tokens s) as [|t ts]; [done|].
    destruct Hinv as (g & rest & -> & Hg & Ht & Hne & Hrest & Hts).
    rewrite search_gap, search_token by done.
    cbn [fmap list_fmap firstSome].
    destruct (search m t); [done|].
    rewrite <- Hts. apply IH. rewrite Hts. simpl in Hn. lia.
Qed.

(** ** Cell parser: the details line *)

Ltac space_cases H :=
  apply isSpace_cases in H;
  repeat (apply elem_of_cons in H as [->|H]); try reflexivity;
  by apply elem_of_nil in H.

Lemma roomAt_space c s : isSpace c = true → roomAt (String c s) = None.
Proof. intros H. space_cases H. Qed.

Lemma typeAt_space c s : isSpace c = true → typeAt (String c s) = None.
Proof. intros H. space_cases H. Qed.

Lemma daysAt_space c s : isSpace c = true → daysAt (String c s) = None.
Proof. intros H. space_cases H. Qed.

Lemma stripPrefix_None p s :
  stripPrefix p s = None → String.prefix p s = false.
Proof.
  revert s. induction p as [|a p IH]; intros [|b s]; simpl; try done.
  destruct (Ascii.eqb_spec a b) as [->|Hne].
  - destruct (ascii_dec b b); [apply IH|done].
  - by destruct (ascii_dec a b).
Qed.

Lemma noSpace_app a b : noSpace (a +:+ b) = noSpace a && noSpace b.
Proof. induction a as [|c a IH]; simpl; [done|]. by rewrite IH, andb_assoc. Qed.

Lemma typeAt_local : localAt typeAt.
Proof. intros q rest Hq Hrest. unfold typeAt. by rewrite !prefix_app_gap. Qed.

Lemma roomAt_local : localAt roomAt.
Proof.
  intros q rest Hq Hrest. unfold roomAt.
  destruct (stripPrefix "Room:" q) as [q'|] eqn:Hs.
  - apply stripPrefix_Some in Hs as ->.
    rewrite str_app_assoc, stripPrefix_app.
    rewrite noSpace_app in Hq. apply andb_true_iff in Hq as [_ Hq].
    by rewrite nonSpaceRun_app_gap, nonSpaceRun_noSpace.
  - apply stripPrefix_None in Hs.
    rewrite stripPrefix_prefix; [done|]. by rewrite prefix_app_gap.
Qed.

(** The room and the term type of a line are those of its first token
    that has one. *)
Lemma roomMatch_tokens s : roomMatch s = firstSome (roomMatch <$> tokens s).
Proof. apply search_tokens; [apply roomAt_local|apply roomAt_space]. Qed.

Lemma typeMatch_tokens s : typeMatch s = firstSome (typeMatch <$> tokens s).
Proof. apply search_tokens; [apply typeAt_local|apply typeAt_space]. Qed.

Lemma includes_false_prefix s p : includes s p = false → String.prefix p s = false.
Proof. destruct s; simpl; by intros [? _]%orb_false_iff. Qed.

(** A token without [Days:] in it has no match of the day pattern, also
    none that would run on into the text after the token. *)
Lemma daysAt_skip tok rest :
  includes tok "Days:" = false → atGap rest = true →
  search daysAt (tok +:+ rest) = search daysAt rest.
Proof.
  intros Hinc Hrest. induction tok as [|c tok IH]; [done|].
  pose proof (includes_false_prefix _ _ Hinc) as Hp.
  change (String c tok +:+ rest) with (String c (tok +:+ rest)).
  cbn [search].
  change (String c (tok +:+ rest)) with (String c tok +:+ rest).
  unfold daysAt at 1.
  rewrite stripPrefix_prefix by (by rewrite prefix_app_gap).
  apply IH. simpl in Hinc. by apply orb_false_iff in Hinc as [_ ?].
Qed.

Lemma daysAt_here tok rest f :
  noSpace tok = true → daysAt tok = Some f → daysAt (tok +:+ rest) = Some f.
Proof.
  intros Htok. unfold daysAt.
  destruct (stripPrefix "Days:" tok) as [q|] eqn:Hs; [|done].
  apply stripPrefix_Some in Hs as ->.
  rewrite str_app_assoc, stripPrefix_app.
  rewrite noSpace_app in Htok. apply andb_true_iff in Htok as [_ Hq].
  destruct q as [|c q]; [done|]. simpl in *.
  apply andb_true_iff in Hq as [Hc _].
  by destruct (isSpace c).
Qed.

Lemma daysMatch_tokens s :
  Forall (λ t, includes t "Days:" = false ∨ is_Some (daysAt t)) (tokens s) →
  daysMatch s = firstSome (daysAt <$> tokens s).
Proof.
  unfold daysMatch.
  remember (length (tokens s)) as n eqn:Hn. revert s Hn.
  induction n as [|n IH]; intros s Hn Hall;
    pose proof (tokens_inv s) as Hinv; pose proof (tokens_noSpace s) as Hns.
  - destruct (tokens s) as [|t ts]; [|done]. simpl.
    rewrite <- (str_app_nil_r s), search_gap by (done || apply daysAt_space).
    done.
  - destruct (tokens s) as [|t ts]; [done|].
    destruct Hinv as (g & rest & -> & Hg & Ht & Hne & Hrest & Hts).
    rewrite search_gap by (done || apply daysAt_space).
    apply Forall_cons in Hall as [Hhd Hall].
    cbn [fmap list_fmap firstSome].
    destruct Hhd as [Hinc|[f Hf]].
    + rewrite daysAt_skip by done.
      assert (daysAt t = None) as ->.
      { unfold daysAt. by rewrite stripPrefix_prefix by by apply includes_false_prefix. }
      rewrite <- Hts. apply IH; rewrite Hts; [simpl in Hn; lia|done].
    + rewrite Hf. apply search_hit. by apply daysAt_here.
Qed.

(** *** What each field token yields *)

Lemma firstSome_None {A B} (f : A → option B) l :
  (∀ y, y ∈ l → f y = None) → firstSome (f <$> l) = None.
Proof.
  induction l as [|x l IH]; intros H; [done|]. simpl.
  rewrite (H x) by (by left). apply IH. intros y Hy. apply H. by right.
Qed.

Lemma firstSome_Some {A B} (f : A → option B) l v :
  (∀ y, y ∈ l → f y = None ∨ f y = Some v) →
  (∃ y, y ∈ l ∧ f y = Some v) →
  firstSome (f <$> l) = Some v.
Proof.
  induction l as [|x l IH]; intros Hall (y & Hy & Hfy); [by apply elem_of_nil in Hy|].
  simpl. destruct (Hall x) as [Hx|Hx]; [by left| |by rewrite Hx].
  rewrite Hx. apply IH; [intros z Hz; apply Hall; by right|].
  exists y. split; [|done].
  apply elem_of_cons in Hy as [->|Hy]; [congruence|done].
Qed.

Lemma termToken_scan t :
  roomMatch (termTypeText t) = None ∧ typeMatch (termTypeText t) = Some t ∧
  daysAt (termTypeText t) = None ∧ includes (termTypeText t) "Days:" = false.
Proof. by destruct t. Qed.

Lemma daysToken_scan f :
  roomMatch ("Days:" +:+ dayFlagText f) = None ∧
  typeMatch ("Days:" +:+ dayFlagText f) = None ∧
  daysAt ("Days:" +:+ dayFlagText f) = Some f.
Proof. by destruct f. Qed.

Lemma roomToken_scan r :
  noSpace r = true →
  roomMatch ("Room:" +:+ r) = (if isEmpty r then None else Some r) ∧
  typeMatch ("Room:" +:+ r) = typeMatch r ∧
  includes ("Room:" +:+ r) "Days:" = includes r "Days:".
Proof.
  intros Hr. split; [|split].
  - destruct r as [|c r]; [done|].
    apply search_hit. unfold roomAt. rewrite stripPrefix_app.
    by rewrite nonSpaceRun_noSpace.
  - unfold typeMatch. by destruct r as [|c r].
  - by destruct r as [|c r].
Qed.

Lemma elem_of_option_list_fmap {A} (g : A → string) (o : option A) y :
  y ∈ option_list (g <$> o) ↔ ∃ x, o = Some x ∧ y = g x.
Proof.
  destruct o as [x|]; simpl.
  - rewrite list_elem_of_singleton. split; [intros ->; eauto|].
    by intros (? & [= <-] & ->).
  - rewrite elem_of_nil. split; [done|]. by intros (? & [=] & _).
Qed.

Lemma elem_of_detailFields y r t f :
  y ∈ detailFields r t f ↔
  (∃ room, r = Some room ∧ y = "Room:" +:+ room) ∨
  (∃ t', t = Some t' ∧ y = termTypeText t') ∨
  (∃ f', f = Some f' ∧ y = "Days:" +:+ dayFlagText f').
Proof.
  unfold detailFields. by rewrite !elem_of_app, !elem_of_option_list_fmap.
Qed.

(** What one token of a well-formed details line yields. *)
Lemma fieldToken_scan y r t f extra :
  (∀ room, r = Some room → typeMatch room = None ∧ includes room "Days:" = false) →
  (∀ y, y ∈ extra →
        roomMatch y = None ∧ typeMatch y = None ∧ includes y "Days:" = false) →
  noSpace y = true →
  y ∈ detailFields r t f ++ extra →
  (roomMatch y = None ∨ ∃ room, r = Some room ∧ isEmpty room = false ∧ roomMatch y = Some room) ∧
  (typeMatch y = None ∨ typeMatch y = t) ∧
  (daysAt y = None ∧ includes y "Days:" = false ∨
   ∃ f', f = Some f' ∧ daysAt y = Some f').
Proof.
  intros Hr Hextra Hy
    [[(room & -> & ->)|[(t' & -> & ->)|(f' & -> & ->)]]%elem_of_detailFields|Hin]%elem_of_app.
  - destruct (Hr room eq_refl) as [Ht Hd].
    rewrite noSpace_app in Hy. apply andb_true_iff in Hy as [_ Hy].
    destruct (roomToken_scan room Hy) as (Hroom & Htype & Hdays).
    rewrite Hroom, Htype, Hdays, Ht, Hd.
    split; [|split; [by left|left]].
    + destruct (isEmpty room) eqn:He; [by left|right; eauto].
    + split; [|done]. unfold daysAt.
      rewrite stripPrefix_prefix; [done|].
      apply includes_false_prefix. by rewrite Hdays.
  - destruct (termToken_scan t') as (-> & -> & -> & ->). auto.
  - destruct (daysToken_scan f') as (-> & -> & ->).
    split; [by left|split; [by left|right; eauto]].
  - destruct (Hextra y Hin) as (-> & -> & Hd).
    split; [by left|split; [by left|left]].
    split; [|done]. unfold daysAt.
    rewrite stripPrefix_prefix; [done|]. by apply includes_false_prefix.
Qed.

(** C7, as the code has it.  The three fields are found each by its own
    leftmost search over the whole details line, and a term-type code is
    matched wherever it stands, also inside another token.  So for a
    details line whose tokens are, in any order and with any white space
    between and around them, some of [Room:r], one term type and
    [Days:f], where the room [r] contains none of the seven codes and no
    [Days:], and other tokens that hold no [Days:] and in which neither
    the room pattern nor the term-type pattern matches: the room read is
    [r] (the empty string when the field is absent), the term type is the
    one present ([FY] when absent) and the day flag is [f] (none when
    absent). *)
Theorem scanDetails_fields detailsLine r t f extra :
  (∀ room, r = Some room → typeMatch room = None ∧ includes room "Days:" = false) →
  (∀ y, y ∈ extra →
        roomMatch y = None ∧ typeMatch y = None ∧ includes y "Days:" = false) →
  tokens detailsLine ≡ₚ detailFields r t f ++ extra →
  scanDetails detailsLine = (default "" r, default FY t, f).
Proof.
  intros Hr Hextra Hperm.
  assert (Hni : ∀ y, y ∈ detailFields r t f → y ∈ tokens detailsLine).
  { intros y Hy. rewrite Hperm. apply elem_of_app. by left. }
  assert (Hns : ∀ y, y ∈ tokens detailsLine → noSpace y = true).
  { apply Forall_forall, tokens_noSpace. }
  assert (Hscan : ∀ y, y ∈ tokens detailsLine →
    (roomMatch y = None ∨
     ∃ room, r = Some room ∧ isEmpty room = false ∧ roomMatch y = Some room) ∧
    (typeMatch y = None ∨ typeMatch y = t) ∧
    (daysAt y = None ∧ includes y "Days:" = false ∨
     ∃ f', f = Some f' ∧ daysAt y = Some f')).
  { intros y Hy. apply (fieldToken_scan y r t f extra); auto. by rewrite <- Hperm. }
  unfold scanDetails. f_equal; [f_equal|].
  - (* room *)
    rewrite roomMatch_tokens.
    destruct r as [room|]; simpl.
    + destruct (isEmpty room) eqn:He.
      * destruct room; [|done].
        rewrite firstSome_None; [done|].
        intros y Hy. destruct (Hscan y Hy) as ([|(? & [= <-] & ? & ?)] & _); done.
      * erewrite firstSome_Some; [done| |].
        -- intros y Hy.
           destruct (Hscan y Hy) as ([|(? & [= <-] & ? & ?)] & _); eauto.
        -- exists ("Room:" +:+ room).
           assert (Hy : "Room:" +:+ room ∈ tokens detailsLine).
           { apply Hni, elem_of_detailFields. left. eauto. }
           split; [done|].
           pose proof (Hns _ Hy) as Hsp.
           rewrite noSpace_app in Hsp. apply andb_true_iff in Hsp as [_ Hsp].
           destruct (roomToken_scan room Hsp) as (-> & _). by rewrite He.
    + rewrite firstSome_None; [done|].
      intros y Hy. destruct (Hscan y Hy) as ([|(? & [=] & _)] & _); done.
  - (* term type *)
    rewrite typeMatch_tokens.
    destruct t as [t'|]; simpl.
    + erewrite firstSome_Some; [done| |].
      * intros y Hy. by destruct (Hscan y Hy) as (_ & ? & _).
      * exists (termTypeText t'). split.
        -- apply Hni, elem_of_detailFields. right; left. eauto.
        -- by destruct t'.
    + rewrite firstSome_None; [done|].
      intros y Hy. by destruct (Hscan y Hy) as (_ & [|] & _).
  - (* day flag *)
    rewrite daysMatch_tokens.
    2:{ apply Forall_forall. intros y Hy.
        destruct (Hscan y Hy) as (_ & _ & [[_ ?]|(f' & _ & Hd)]); [by left|].
        right. by rewrite Hd. }
    destruct f as [f'|].
    + erewrite firstSome_Some; [done| |].
      * intros y Hy.
        destruct (Hscan y Hy) as (_ & _ & [[? _]|(? & [= <-] & ?)]); auto.
      * exists ("Days:" +:+ dayFlagText f'). split.
        -- apply Hni, elem_of_detailFields. right; right. eauto.
        -- by destruct f'.
    + rewrite firstSome_None; [done|].
      intros y Hy. by destruct (Hscan y Hy) as (_ & _ & [[? _]|(? & [=] & _)]).
Qed.

Lemma scanDetails_fields_witness :
  scanDetails sampleDetails = ("B208", FY, Some DayA).
Proof.
  apply (scanDetails_fields sampleDetails (Some "B208") (Some FY) (Some DayA) []).
  - intros room [= <-]. split; reflexivity.
  - intros y Hy. by apply elem_of_nil in Hy.
  - apply perm_swap.
Defined.

(** C7, as stated, fails: the same three tokens give the term type [S2]
    in one order and [S1] in another, because the room [S101] contains
    the code [S1] and stands before the term-type token; and with no
    term-type token at all the term type read is [S1], not [FY]. *)
Lemma scanDetails_order_counterexample :
  tokens "Room:S101 S2 Days:A" = detailFields (Some "S101") (Some S2) (Some DayA) ∧
  tokens "S2 Room:S101 Days:A" ≡ₚ detailFields (Some "S101") (Some S2) (Some DayA) ∧
  scanDetails "S2 Room:S101 Days:A" = ("S101", S2, Some DayA) ∧
  scanDetails "Room:S101 S2 Days:A" ≠ ("S101", S2, Some DayA) ∧
  tokens "Room:S101 Days:A" = detailFields (Some "S101") None (Some DayA) ∧
  scanDetails "Room:S101 Days:A" ≠ ("S101", FY, Some DayA).
Proof.
  repeat split; try reflexivity; try discriminate.
  apply perm_swap.
Qed.

(** The day pattern reads across tokens: white space may stand between
    [Days:] and the letter.  So a token that holds [Days:] makes the day
    flag depend on the token after it, and the same tokens give day A in
    one order and no day flag in another; the theorem above asks the
    other tokens to hold no [Days:]. *)
Lemma scanDetails_days_across_tokens_example :
  tokens "FY Room:B208 Days: A" ≡ₚ tokens "A FY Room:B208 Days:" ∧
  scanDetails "FY Room:B208 Days: A" = ("B208", FY, Some DayA) ∧
  scanDetails "A FY Room:B208 Days:" = ("B208", FY, None).
Proof.
  split; [|by vm_compute].
  change (["FY"; "Room:B208"; "Days:"] ++ ["A"] ≡ₚ "A" :: ["FY"; "Room:B208"; "Days:"]).
  symmetry. apply Permutation_cons_append.
Qed.

(** ** Characters kept by trimming *)

Lemma hasChar_trimStart c s : hasChar c (trimStart s) = true → hasChar c s = true.
Proof.
  induction s as [|a s IH]; simpl; [done|].
  destruct (isSpace a); simpl; [|done].
  intros H. rewrite (IH H). apply orb_true_r.
Qed.

Lemma hasChar_trimEnd c s : hasChar c (trimEnd s) = true → hasChar c s = true.
Proof.
  induction s as [|a s IH]; simpl; [done|].
  destruct (isSpace a && isEmpty (trimEnd s)); simpl; [done|].
  intros [->|H]%orb_true_iff; [done|]. rewrite (IH H). apply orb_true_r.
Qed.

(** Trimming adds no character. *)
Lemma hasChar_trim c s : hasChar c s = false → hasChar c (trim s) = false.
Proof.
  intros Hs. apply not_true_is_false. intros Ht.
  apply hasChar_trimEnd, hasChar_trimStart in Ht. congruence.
Qed.

(** ** Schedule normaliser *)

Lemma elem_of_setAdd s x y : y ∈ setAdd s x ↔ y ∈ s ∨ y = x.
Proof.
  unfold setAdd, setHas. case_bool_decide as Hx.
  - split; [by left|]. intros [?| ->]; done.
  - by rewrite elem_of_app, list_elem_of_singleton.
Qed.

Lemma elem_of_foldl_setAdd l s y : y ∈ foldl setAdd s l ↔ y ∈ s ∨ y ∈ l.
Proof.
  revert s. induction l as [|x l IH]; intros s; simpl.
  - rewrite elem_of_nil. tauto.
  - rewrite IH, elem_of_setAdd, elem_of_cons. tauto.
Qed.

(** A set has the elements that were added to it. *)
Lemma elem_of_newSet l y : y ∈ newSet l ↔ y ∈ l.
Proof. unfold newSet. rewrite elem_of_foldl_setAdd, elem_of_nil. tauto. Qed.

Lemma elem_of_nonTeachingSetOf str x :
  x ∈ nonTeachingSetOf str ↔ ∃ label, label ∈ split "," str ∧ x = toLowerCase (trim label).
Proof.
  unfold nonTeachingSetOf. rewrite elem_of_newSet.
  change (map ?f ?l) with (f <$> l). rewrite list_elem_of_fmap.
  split; intros (l & ? & ?); eauto.
Qed.

(** Pushing onto an array in a loop appends the pushed blocks in order. *)
Lemma foldl_push {A B} (f : B → list A) (init : list A) (l : list B) :
  foldl (λ acc x, acc ++ f x) init l = init ++ concat (f <$> l).
Proof.
  revert init. induction l as [|x l IH]; intros init; simpl.
  - by rewrite app_nil_r.
  - by rewrite IH, app_assoc.
Qed.

Lemma outputRowOf_blocks nonTeachingSet periodColNames r dept teacherName :
  outputRowOf nonTeachingSet periodColNames r dept teacherName
  = [dept; teacherName] ++
    concat ((λ col, periodCells nonTeachingSet (cellText r col)) <$> periodColNames).
Proof. apply foldl_push. Qed.

Lemma outputHeadersOf_blocks periodColNames :
  outputHeadersOf periodColNames
  = ["Department"; "Teacher"] ++
    concat ((λ col, [col +:+ " A Day"; col +:+ " B Day"]) <$> periodColNames).
Proof. apply foldl_push. Qed.

(** Blocks of two: the [k]-th block fills positions [2k] and [2k+1]. *)
Lemma concat_pairs_lookup {A B} (f : B → list A) (l : list B) k x a b :
  (∀ y, length (f y) = 2) →
  l !! k = Some x → f x = [a; b] →
  concat (f <$> l) !! (2 * k) = Some a ∧ concat (f <$> l) !! (2 * k + 1) = Some b.
Proof.
  intros Hlen. revert k. induction l as [|y l IH]; intros k Hk Hx; [done|].
  rewrite fmap_cons. cbn [concat].
  destruct k as [|k].
  - injection Hk as ->. by rewrite Hx.
  - pose proof (Hlen y) as Hy.
    destruct (f y) as [|a' [|b' [|]]]; try done.
    replace (2 * S k) with (S (S (2 * k))) by lia.
    replace (S (S (2 * k)) + 1) with (S (S (2 * k + 1))) by lia.
    exact (IH k Hk Hx).
Qed.

Lemma lookup_after_two {A} (a b : A) l n : ([a; b] ++ l) !! (2 + n) = l !! n.
Proof. done. Qed.

Lemma concat_pairs_length {A B} (f : B → list A) (l : list B) :
  (∀ y, length (f y) = 2) → length (concat (f <$> l)) = 2 * length l.
Proof.
  intros Hlen. induction l as [|y l IH]; csimpl; [done|].
  rewrite length_app, Hlen, IH. lia.
Qed.

Lemma periodCells_length nonTeachingSet cellValue :
  length (periodCells nonTeachingSet cellValue) = 2.
Proof. unfold periodCells. by destruct (setHas _ _). Qed.

Lemma orPrep_format classes : orPrep (formatClassForCsv classes) = dayCell classes.
Proof.
  destruct classes as [|[c r ty] rest]; [done|]. simpl.
  destruct r as [|x r]; simpl; [by destruct c|]. by destruct c.
Qed.

(** What the two cells of a period column are. *)
Lemma periodCells_cases nonTeachingSet cellValue :
  periodCells nonTeachingSet cellValue
  = if bool_decide (toLowerCase cellValue ∈ nonTeachingSet) then ["Prep"; "Prep"]
    else [dayCell (aDayClasses (parsePeriodCell cellValue));
          dayCell (bDayClasses (parsePeriodCell cellValue))].
Proof.
  unfold periodCells, setHas. case_bool_decide; [done|].
  by rewrite !orPrep_format.
Qed.

(** C2, as the code has it.  For every row and every period column (the
    [k]-th, say) the row gets exactly two cells, at positions [2+2k] (A
    day) and [3+2k] (B day).  When the trimmed, case-folded cell text is
    an entry of the non-teaching label set both are [Prep], whatever the
    text would parse to.  Otherwise each is made from the first
    assignment of its day: course and room when the room is not empty,
    the course alone when only the room is empty, and [Prep] when the
    day has no assignment or its first assignment has neither course nor
    room. *)
Theorem normaliser_period_cells nonTeachingLabelsStr periodColNames
    (r : row) dept teacherName k col :
  periodColNames !! k = Some col →
  let nonTeachingSet := nonTeachingSetOf nonTeachingLabelsStr in
  let cellValue := cellText r col in
  let parsed := parsePeriodCell cellValue in
  let out := outputRowOf nonTeachingSet periodColNames r dept teacherName in
  length out = 2 + 2 * length periodColNames ∧
  ((∃ label, label ∈ split "," nonTeachingLabelsStr ∧
             toLowerCase cellValue = toLowerCase (trim label)) →
   out !! (2 + 2 * k) = Some "Prep" ∧ out !! (3 + 2 * k) = Some "Prep") ∧
  ((∀ label, label ∈ split "," nonTeachingLabelsStr →
             toLowerCase cellValue ≠ toLowerCase (trim label)) →
   out !! (2 + 2 * k) = Some (dayCell (aDayClasses parsed)) ∧
   out !! (3 + 2 * k) = Some (dayCell (bDayClasses parsed))).
Proof.
  intros Hk. cbv zeta. rewrite outputRowOf_blocks.
  set (f := λ c, periodCells (nonTeachingSetOf nonTeachingLabelsStr) (cellText r c)).
  assert (Hlen : ∀ y, length (f y) = 2) by (intros; apply periodCells_length).
  split; [|split].
  - rewrite length_app, concat_pairs_length by done. simpl. lia.
  - intros Hin. apply elem_of_nonTeachingSetOf in Hin.
    replace (3 + 2 * k) with (2 + (2 * k + 1)) by lia.
    rewrite !lookup_after_two.
    apply (concat_pairs_lookup f _ _ col); [done..|].
    unfold f. rewrite periodCells_cases. by rewrite bool_decide_true.
  - intros Hnin.
    assert (Hnot : toLowerCase (cellText r col) ∉ nonTeachingSetOf nonTeachingLabelsStr).
    { intros (l & Hl & Heq)%elem_of_nonTeachingSetOf. by apply (Hnin l). }
    replace (3 + 2 * k) with (2 + (2 * k + 1)) by lia.
    rewrite !lookup_after_two.
    apply (concat_pairs_lookup f _ _ col); [done..|].
    unfold f. rewrite periodCells_cases. by rewrite bool_decide_false.
Qed.

Lemma normaliser_period_cells_witness :
  let out := outputRowOf (nonTeachingSetOf "prep,lunch") ["Period 1"] sampleRow
               "Math" "Lee, Anna" in
  length out = 4 ∧
  out !! 2 = Some "Algebra I (Room: 204)" ∧ out !! 3 = Some "Geometry (Room: 204)".
Proof.
  destruct (normaliser_period_cells "prep,lunch" ["Period 1"] sampleRow
              "Math" "Lee, Anna" 0 "Period 1" eq_refl) as (Hlen & _ & Hparse).
  split; [exact Hlen|].
  apply Hparse. intros label Hl.
  apply elem_of_cons in Hl as [->|Hl]; [discriminate|].
  apply elem_of_cons in Hl as [->|Hl]; [discriminate|].
  by apply elem_of_nil in Hl.
Defined.

(** C2, as stated, fails for a day whose first assignment has neither
    course nor room: the list of the B day is not empty, the words of the
    specification give the bare (empty) course, and the code gives
    [Prep]. *)
Lemma normaliser_blank_course_counterexample :
  let nonTeachingSet := nonTeachingSetOf "prep,lunch" in
  let cellValue := cellText [("Period 1", blankCourseCell)] "Period 1" in
  let parsed := parsePeriodCell cellValue in
  (toLowerCase cellValue ∉ nonTeachingSet) ∧
  bDayClasses parsed = [{| course := ""; room := ""; type := FY |}] ∧
  periodCells nonTeachingSet cellValue = ["Math"; "Prep"] ∧
  ¬ (periodCells nonTeachingSet cellValue
     = [specDayCell (aDayClasses parsed); specDayCell (bDayClasses parsed)]).
Proof.
  cbv zeta. split; [|by vm_compute].
  intros Hl. vm_compute in Hl.
  apply elem_of_cons in Hl as [|Hl]; [discriminate|].
  apply elem_of_cons in Hl as [|Hl]; [discriminate|].
  by apply elem_of_nil in Hl.
Qed.

(** *** The rows of the result *)

Lemma foldl_addTeacher nonTeachingSet teacherColName deptColName periodColNames
    (teachers : list teacherRow) (sheetData : list row) :
  foldl (addTeacher nonTeachingSet teacherColName deptColName periodColNames)
        teachers sheetData
  = teachers ++
    omap (λ r,
            let teacherName := resolveCell teacherColName r in
            let dept := resolveCell deptColName r in
            if isEmpty teacherName then None
            else Some {| teacher := teacherName; dept := dept;
                         data := outputRowOf nonTeachingSet periodColNames r
                                   dept teacherName |})
         sheetData.
Proof.
  revert teachers. induction sheetData as [|r rest IH]; intros teachers; csimpl.
  - by rewrite app_nil_r.
  - rewrite IH. unfold addTeacher.
    destruct (isEmpty (resolveCell teacherColName r)); [done|].
    by rewrite <- app_assoc.
Qed.

(** Every row of the result comes from a row of the sheet. *)
Lemma parseExcelSchedule_rows sheetData nonTeachingLabelsStr t :
  let res := parseExcelSchedule sheetData nonTeachingLabelsStr in
  t ∈ teachers res →
  ∃ r, r ∈ sheetData ∧
       teacher t = teacherNameOf sheetData r ∧ isEmpty (teacher t) = false ∧
       data t = outputRowOf (nonTeachingSetOf nonTeachingLabelsStr) (periodCols res)
                  r (dept t) (teacher t).
Proof.
  destruct sheetData as [|first rest]; cbv zeta.
  { simpl. by intros ?%elem_of_nil. }
  unfold parseExcelSchedule. cbn [teachers periodCols].
  rewrite foldl_addTeacher, app_nil_l.
  intros (r & Hr & Ht)%list_elem_of_omap. exists r. split; [done|].
  cbv zeta in Ht. unfold teacherNameOf.
  destruct (isEmpty (resolveCell _ r)) eqn:He; [done|].
  injection Ht as <-. by cbn.
Qed.

(** C10.  The result is rectangular: with [n] period columns detected,
    the header list has length [2 + 2n] and so has the data of every
    teacher row; the [k]-th period column fills positions [2+2k] and
    [3+2k] of the headers (its A-day and B-day header) and of every
    teacher row (the two cells made from that column's cell in the
    teacher's source row), so rows and headers follow the same
    left-to-right order of period columns. *)
Theorem parseExcelSchedule_rectangular sheetData nonTeachingLabelsStr :
  let res := parseExcelSchedule sheetData nonTeachingLabelsStr in
  let n := length (periodCols res) in
  let nonTeachingSet := nonTeachingSetOf nonTeachingLabelsStr in
  length (headers res) = 2 + 2 * n ∧
  (∀ k col, periodCols res !! k = Some col →
     headers res !! (2 + 2 * k) = Some (col +:+ " A Day") ∧
     headers res !! (3 + 2 * k) = Some (col +:+ " B Day")) ∧
  (∀ t, t ∈ teachers res →
     length (data t) = 2 + 2 * n ∧
     data t !! 0 = Some (dept t) ∧ data t !! 1 = Some (teacher t) ∧
     ∃ r, r ∈ sheetData ∧
       ∀ k col, periodCols res !! k = Some col →
         data t !! (2 + 2 * k) = periodCells nonTeachingSet (cellText r col) !! 0 ∧
         data t !! (3 + 2 * k) = periodCells nonTeachingSet (cellText r col) !! 1).
Proof.
  cbv zeta. split; [|split].
  - destruct sheetData as [|first rest]; [done|].
    unfold parseExcelSchedule. cbn [headers periodCols].
    rewrite outputHeadersOf_blocks, length_app, concat_pairs_length by done.
    simpl. lia.
  - intros k col Hk.
    destruct sheetData as [|first rest]; [done|].
    unfold parseExcelSchedule in *. cbn [headers periodCols] in *.
    rewrite outputHeadersOf_blocks.
    replace (3 + 2 * k) with (2 + (2 * k + 1)) by lia.
    rewrite !lookup_after_two.
    by apply (concat_pairs_lookup _ _ _ col).
  - intros t Ht.
    destruct (parseExcelSchedule_rows _ _ _ Ht) as (r & Hr & _ & _ & Hdata).
    rewrite Hdata, outputRowOf_blocks.
    split; [|split; [done|split; [done|]]].
    + rewrite length_app, concat_pairs_length by (intros; apply periodCells_length).
      simpl. lia.
    + exists r. split; [done|]. intros k col Hk.
      replace (3 + 2 * k) with (2 + (2 * k + 1)) by lia.
      rewrite !lookup_after_two.
      pose proof (periodCells_length (nonTeachingSetOf nonTeachingLabelsStr)
                    (cellText r col)) as Hlen.
      destruct (periodCells _ (cellText r col)) as [|a [|b [|]]] eqn:Hcells;
        try done.
      by apply (concat_pairs_lookup
                  (λ c, periodCells (nonTeachingSetOf nonTeachingLabelsStr) (cellText r c))
                  _ _ col); [intros; apply periodCells_length|..].
Qed.

(** ** Edit distance: the table against the recurrence *)

(** A loop over [start, start + n) keeps an invariant indexed by the
    loop counter. *)
Lemma foldl_seq_invariant {S} (P : nat → S → Prop) (f : S → nat → S) (s0 : S) start n :
  P start s0 →
  (∀ k s, start ≤ k < start + n → P k s → P (Datatypes.S k) (f s k)) →
  P (start + n) (foldl f s0 (seq start n)).
Proof.
  intros H0 Hstep. induction n as [|n IH].
  - by rewrite Nat.add_0_r.
  - rewrite seq_S, foldl_app. simpl.
    replace (start + Datatypes.S n) with (Datatypes.S (start + n)) by lia.
    apply Hstep; [lia|]. apply IH. intros k s Hk. apply Hstep. lia.
Qed.

Section table.
Variables a b : string.
Let aLen := String.length a.
Let bLen := String.length b.

Lemma dpGet_dpSet dp i j v i' j' :
  i < length dp → Forall (λ row, length row = bLen + 1) dp → j ≤ bLen →
  dpGet (dpSet dp i j v) i' j'
  = if decide (i' = i ∧ j' = j) then v else dpGet dp i' j'.
Proof.
  intros Hi Hrows Hj. unfold dpGet, dpSet.
  destruct (decide (i' = i)) as [->|Hne].
  - rewrite list_lookup_alter_eq.
    destruct (lookup_lt_is_Some_2 dp i Hi) as [row Hrow].
    rewrite Hrow. simpl.
    assert (Hlen : length row = bLen + 1).
    { eapply Forall_lookup_1 in Hrows; eauto. }
    destruct (decide (j' = j)) as [->|Hnj].
    + rewrite decide_True by done.
      by rewrite list_lookup_insert_eq by lia.
    + rewrite decide_False by (by intros [_ ?]).
      by rewrite list_lookup_insert_ne.
  - rewrite decide_False by (by intros [? _]).
    by rewrite list_lookup_alter_ne.
Qed.

Lemma dpSet_size dp i j v :
  length dp = aLen + 1 → Forall (λ row, length row = bLen + 1) dp →
  length (dpSet dp i j v) = aLen + 1 ∧
  Forall (λ row, length row = bLen + 1) (dpSet dp i j v).
Proof.
  intros Hlen Hrows. unfold dpSet. split; [by rewrite length_alter|].
  apply Forall_alter; [done|]. intros row _ Hrow. by rewrite length_insert.
Qed.

(** Writing the distance into one more cell. *)
Lemma known_set dp (K K' : nat → nat → Prop) i j v :
  known a b dp K → i ≤ aLen → j ≤ bLen →
  v = editDistance a b i j →
  (∀ i' j', i' ≤ aLen → j' ≤ bLen → K' i' j' → K i' j' ∨ (i' = i ∧ j' = j)) →
  known a b (dpSet dp i j v) K'.
Proof.
  intros (Hlen & Hrows & Hknown) Hi Hj -> Hsub.
  destruct (dpSet_size dp i j (editDistance a b i j) Hlen Hrows) as [Hlen' Hrows'].
  split; [done|]. split; [done|].
  intros i' j' Hi' Hj' HK'.
  rewrite dpGet_dpSet by (done || fold aLen; lia).
  case_decide as Heq; [by destruct Heq as [-> ->]|].
  apply Hknown; [done..|].
  destruct (Hsub _ _ Hi' Hj' HK'); [done|by destruct Heq].
Qed.

Lemma known_weaken dp (K K' : nat → nat → Prop) :
  known a b dp K →
  (∀ i j, i ≤ aLen → j ≤ bLen → K' i j → K i j) →
  known a b dp K'.
Proof. intros (? & ? & Hk) Hsub. split; [done|]. split; [done|]. auto. Qed.

Lemma editDistance_0_r i : editDistance a b i 0 = i.
Proof. by destruct i. Qed.

Lemma editDistance_S i j :
  editDistance a b (S i) (S j)
  = Nat.min (editDistance a b i (S j) + 1)
      (Nat.min (editDistance a b (S i) j + 1)
               (editDistance a b i j + substCost a b (S i) (S j))).
Proof. done. Qed.

(** One cell of the main loops. *)
Lemma dpCell_known dp (K : nat → nat → Prop) i j :
  known a b dp K → 1 ≤ i ≤ aLen → 1 ≤ j ≤ bLen →
  K (i - 1) j → K i (j - 1) → K (i - 1) (j - 1) →
  dpCell a b dp i j = editDistance a b i j.
Proof.
  intros (_ & _ & Hknown) Hi Hj H1 H2 H3. unfold dpCell.
  rewrite !Hknown by (done || fold aLen bLen; lia).
  destruct i as [|i]; [lia|]. destruct j as [|j]; [lia|].
  rewrite editDistance_S. simpl. by rewrite !Nat.sub_0_r.
Qed.

(** The table [levenshteinDistance] fills is the table of the
    recurrence, so its last cell is the edit distance of the two
    strings. *)
Lemma levenshteinDistance_editDistance :
  levenshteinDistance a b = editDistance a b (String.length a) (String.length b).
Proof.
  unfold levenshteinDistance. fold aLen bLen.
  set (dp0 := replicate (aLen + 1) (replicate (bLen + 1) 0)).
  assert (H0 : known a b dp0 (λ _ _, False)).
  { split; [apply length_replicate|]. split; [|done].
    apply Forall_replicate, length_replicate. }
  set (dp1 := foldl (λ dp i, dpSet dp i 0 i) dp0 (seq 0 (aLen + 1))).
  assert (H1 : known a b dp1 (λ i j, j = 0 ∧ i < 0 + (aLen + 1))).
  { apply (foldl_seq_invariant (λ k dp, known a b dp (λ i j, j = 0 ∧ i < k))).
    - eapply known_weaken; [exact H0|]. intros i j _ _ [_ ?]. lia.
    - intros k dp Hk HK. eapply known_set; [exact HK|lia|lia| |].
      + by rewrite editDistance_0_r.
      + intros i' j' _ _ [-> Hi']. destruct (decide (i' = k)); [by right|left].
        split; [done|lia]. }
  set (dp2 := foldl (λ dp j, dpSet dp 0 j j) dp1 (seq 0 (bLen + 1))).
  assert (H2 : known a b dp2 (λ i j, j = 0 ∨ (i = 0 ∧ j < 0 + (bLen + 1)))).
  { apply (foldl_seq_invariant
             (λ k dp, known a b dp (λ i j, j = 0 ∨ (i = 0 ∧ j < k)))).
    - eapply known_weaken; [exact H1|].
      intros i j Hi _ [->|[_ ?]]; [split; [done|lia]|lia].
    - intros k dp Hk HK. eapply known_set; [exact HK|lia|lia|done|].
      intros i' j' _ _ [->|[-> Hj']]; [left; by left|].
      destruct (decide (j' = k)); [by right|left]. right. split; [done|lia]. }
  set (inner := λ i dp j, dpSet dp i j (dpCell a b dp i j)).
  set (outer := λ dp i, foldl (inner i) dp (seq 1 bLen)).
  change (foldl _ dp2 (seq 1 aLen)) with (foldl outer dp2 (seq 1 aLen)).
  assert (H3 : known a b (foldl outer dp2 (seq 1 aLen))
                 (λ i j, j = 0 ∨ i = 0 ∨ i < 1 + aLen)).
  { apply (foldl_seq_invariant
             (λ k dp, known a b dp (λ i j, j = 0 ∨ i = 0 ∨ i < k))).
    - eapply known_weaken; [exact H2|].
      intros i j _ Hj [->|[->|?]]; [by left|right; split; [done|lia]|lia].
    - intros i dp Hi HK. unfold outer.
      eapply known_weaken.
      + apply (foldl_seq_invariant
                 (λ k dp, known a b dp
                    (λ i' j', j' = 0 ∨ i' = 0 ∨ i' < i ∨ (i' = i ∧ j' < k)))).
        * eapply known_weaken; [exact HK|].
          intros i' j' _ _ [->|[->|[?|[_ ?]]]]; [by left|right; by left| |].
          -- right; by right.
          -- destruct j'; [by left|lia].
        * intros j dp' Hj HK'. unfold inner.
          eapply known_set; [exact HK'|lia|lia| |].
          -- eapply dpCell_known; [exact HK'|lia|lia|..].
             ++ destruct (decide (i = 1)); [right; left; lia|].
                right; right; left. lia.
             ++ destruct (decide (j = 1)); [left; lia|].
                right; right; right. split; [done|lia].
             ++ destruct (decide (i = 1)); [right; left; lia|].
                right; right; left. lia.
          -- intros i' j' _ _ [->|[->|[?|[-> ?]]]];
               [left; by left|left; right; by left|left; right; right; by left|].
             destruct (decide (j' = j)); [by right|left].
             right; right; right. split; [done|lia].
      + intros i' j' _ Hj' [->|[->|Hlt]]; [by left|right; by left|].
        right; right.
        destruct (decide (i' = i)); [right; split; [done|lia]|left; lia]. }
  destruct H3 as (_ & _ & H3). apply H3; [done..|].
  destruct aLen; [right; by left|right; right; lia].
Qed.
End table.

(** ** Validator *)

(** *** The shape of the issue list *)

Lemma validateTeacher_issues st t :
  issues (validateTeacher st t) = issues st ++ teacherIssues (seenTeachers st) t.
Proof.
  unfold validateTeacher, teacherIssues. cbn [issues].
  destruct (isEmpty (teacher t) || isEmpty (trim (teacher t)));
    destruct (setHas (seenTeachers st) (toLowerCase (teacher t)));
    destruct (isAllPrep t); simpl; by rewrite <- ?app_assoc, ?app_nil_r.
Qed.

Lemma foldl_filter_push {A} (P : A → bool) (acc l : list A) :
  foldl (λ acc x, if P x then acc ++ [x] else acc) acc l
  = acc ++ filter (λ x, Is_true (P x)) l.
Proof.
  revert acc. induction l as [|x l IH]; intros acc; simpl.
  - by rewrite app_nil_r.
  - rewrite IH. destruct (P x) eqn:HP.
    + rewrite filter_cons_True; [|by apply Is_true_true]. by rewrite <- app_assoc.
    + rewrite filter_cons_False; [done|by apply Is_true_false].
Qed.

Lemma validateTeacher_courses st t :
  allCoursesStr (validateTeacher st t) = allCoursesStr st ++ coursesOf t.
Proof. unfold validateTeacher, coursesOf. cbn [allCoursesStr]. apply foldl_filter_push. Qed.

Lemma validateTeacher_seen st t :
  seenTeachers (validateTeacher st t) = setAdd (seenTeachers st) (toLowerCase (teacher t)).
Proof. done. Qed.

Lemma foldl_validateTeacher st ts :
  let st' := foldl validateTeacher st ts in
  issues st' = issues st ++ rowIssues (seenTeachers st) ts ∧
  allCoursesStr st' = allCoursesStr st ++ concat (coursesOf <$> ts).
Proof.
  revert st. induction ts as [|t ts IH]; intros st; csimpl.
  - by rewrite !app_nil_r.
  - destruct (IH (validateTeacher st t)) as [-> ->].
    rewrite validateTeacher_issues, validateTeacher_courses, validateTeacher_seen.
    by rewrite <- !app_assoc.
Qed.

Lemma foldl_typoCheck knownLabels acc courses :
  foldl (typoCheck knownLabels) acc courses
  = acc ++ omap (λ c, PossibleTypo c <$> typoLabel (toLowerCase c) knownLabels) courses.
Proof.
  revert acc. induction courses as [|c cs IH]; intros acc; csimpl.
  - by rewrite app_nil_r.
  - rewrite IH. unfold typoCheck.
    destruct (typoLabel (toLowerCase c) knownLabels); csimpl; [|done].
    by rewrite <- app_assoc.
Qed.

(** The issue list: the issues of the rows, row by row, then the typo
    warnings, one unique course text after the other. *)
Lemma validateSchedule_shape ts nonTeachingLabelsStr :
  validateSchedule ts nonTeachingLabelsStr
  = rowIssues [] ts ++
    omap (λ c, PossibleTypo c <$>
                 typoLabel (toLowerCase c) (nonTeachingSetOf nonTeachingLabelsStr))
         (newSet (concat (coursesOf <$> ts))).
Proof.
  unfold validateSchedule.
  destruct (foldl_validateTeacher (ValidatorState [] [] []) ts) as [Hi Hc].
  cbv zeta in Hi, Hc. rewrite foldl_typoCheck, Hi, Hc. done.
Qed.

Lemma filter_omap_None {A B} (P : B → bool) (f : A → option B) (l : list A) :
  (∀ x y, f x = Some y → P y = false) →
  filter (λ y, Is_true (P y)) (omap f l) = [].
Proof.
  intros H. induction l as [|x l IH]; csimpl; [done|].
  destruct (f x) as [y|] eqn:E; csimpl; [|done].
  rewrite filter_cons_False; [done|apply Is_true_false; eauto].
Qed.

(** *** Duplicate teachers *)

Lemma teacherIssues_duplicates seen t :
  filter (λ i, Is_true (isDuplicateIssue i)) (teacherIssues seen t)
  = if setHas seen (toLowerCase (teacher t)) then [DuplicateTeacher (teacher t)] else [].
Proof.
  unfold teacherIssues.
  destruct (isEmpty (teacher t) || isEmpty (trim (teacher t)));
    destruct (setHas seen (toLowerCase (teacher t)));
    by destruct (isAllPrep t).
Qed.

Lemma rowIssues_duplicates seen earlier ts :
  (∀ x, x ∈ seen ↔ x ∈ toLowerCase <$> earlier) →
  filter (λ i, Is_true (isDuplicateIssue i)) (rowIssues seen ts)
  = DuplicateTeacher <$>
      omap id
        (imap (λ i name,
                 if bool_decide (toLowerCase name
                                   ∈ toLowerCase <$> (earlier ++ take i (teacher <$> ts)))
                 then Some name else None)
              (teacher <$> ts)).
Proof.
  revert seen earlier. induction ts as [|t ts IH]; intros seen earlier Hseen; [done|].
  cbn [rowIssues]. rewrite filter_app, teacherIssues_duplicates.
  rewrite fmap_cons, imap_cons. cbn [take]. rewrite app_nil_r.
  rewrite (IH _ (earlier ++ [teacher t])).
  2:{ intros x. rewrite elem_of_setAdd, fmap_app, elem_of_app, Hseen.
      csimpl. by rewrite list_elem_of_singleton. }
  assert (Himap :
    imap ((λ i name,
             if bool_decide (toLowerCase name
                 ∈ toLowerCase <$> (earlier ++ take i (teacher t :: (teacher <$> ts))))
             then Some name else None) ∘ S) (teacher <$> ts)
    = imap (λ i name,
             if bool_decide (toLowerCase name
                 ∈ toLowerCase <$> ((earlier ++ [teacher t]) ++ take i (teacher <$> ts)))
             then Some name else None) (teacher <$> ts)).
  { apply imap_ext. intros i x _. simpl. by rewrite <- app_assoc. }
  rewrite Himap. clear Himap.
  unfold setHas.
  destruct (bool_decide (toLowerCase (teacher t) ∈ seen)) eqn:Hs.
  - apply bool_decide_eq_true in Hs. apply Hseen in Hs.
    by rewrite bool_decide_true.
  - apply bool_decide_eq_false in Hs. rewrite Hseen in Hs.
    by rewrite bool_decide_false.
Qed.

(** The names [repeatedNames] keeps are those that stand after a name
    equal to them up to letter case. *)
Lemma elem_of_repeatedNames names n :
  n ∈ repeatedNames names ↔
  ∃ i j m, j < i ∧ names !! i = Some n ∧ names !! j = Some m ∧
           toLowerCase m = toLowerCase n.
Proof.
  unfold repeatedNames. rewrite list_elem_of_omap. split.
  - intros (x & (i & y & -> & Hi)%elem_of_lookup_imap & Hx). simpl in Hx.
    case_bool_decide as Hin; [|done]. injection Hx as ->.
    apply list_elem_of_fmap in Hin as (m & Hm & (j & Hj & Hlt)%elem_of_take).
    by exists i, j, m.
  - intros (i & j & m & Hlt & Hi & Hj & Hm).
    exists (Some n). split; [|done].
    apply elem_of_lookup_imap. exists i, n. split; [|done].
    rewrite bool_decide_true; [done|].
    apply list_elem_of_fmap. exists m. split; [done|].
    apply elem_of_take. eauto.
Qed.

(** C9.  The duplicate-teacher warnings of the issue list are, in order,
    one for each row whose teacher name equals, up to letter case, the
    name of an earlier row: the second and every later occurrence of a
    name, and nothing else. *)
Theorem validateSchedule_duplicates ts nonTeachingLabelsStr :
  filter (λ i, Is_true (isDuplicateIssue i)) (validateSchedule ts nonTeachingLabelsStr)
  = DuplicateTeacher <$> repeatedNames (teacher <$> ts).
Proof.
  rewrite validateSchedule_shape, filter_app.
  rewrite (filter_omap_None isDuplicateIssue), app_nil_r.
  2:{ intros c i. by destruct (typoLabel _ _); intros [= <-]. }
  by rewrite (rowIssues_duplicates [] []).
Qed.

(** The example of the specification: of two rows named alike up to
    letter case the second gets the one duplicate warning. *)
Lemma validateSchedule_duplicates_example :
  filter (λ i, Is_true (isDuplicateIssue i))
    (validateSchedule
       [TeacherRow "Smith, Jane" "Math" ["Math"; "Smith, Jane"; "Algebra I (Room: 204)"];
        TeacherRow "smith, jane" "Science" ["Science"; "smith, jane"; "Biology (Room: 101)"]]
       "prep,lunch")
  = [DuplicateTeacher "smith, jane"].
Proof. by vm_compute. Qed.

(** *** All-prep rows *)

Lemma toLowerCase_app a b : toLowerCase (a +:+ b) = toLowerCase a +:+ toLowerCase b.
Proof. induction a as [|c a IH]; simpl; [done|]. by rewrite IH. Qed.

Lemma toLowerCase_join sep l :
  toLowerCase (join sep l) = join (toLowerCase sep) (toLowerCase <$> l).
Proof.
  induction l as [|x [|y l] IH]; [done..|].
  change (join sep (x :: y :: l)) with (x +:+ sep +:+ join sep (y :: l)).
  rewrite !toLowerCase_app, IH. done.
Qed.

(** A literal in which [c] does not occur begins [q +:+ String c rest]
    only if it begins [q]. *)
Lemma prefix_app_sep p q c rest :
  hasChar c p = false →
  String.prefix p (q +:+ String c rest) = String.prefix p q.
Proof.
  revert q. induction p as [|a p IH]; intros q Hp.
  - by destruct q.
  - simpl in Hp. apply orb_false_iff in Hp as [Ha Hp].
    destruct q as [|b q]; simpl.
    + destruct (ascii_dec a c) as [->|]; [|done].
      by rewrite Ascii.eqb_refl in Ha.
    + destruct (ascii_dec a b); [by apply IH|done].
Qed.

Lemma includes_app_sep a b c p :
  hasChar c p = false → p ≠ "" →
  includes (a +:+ String c b) p = includes a p || includes b p.
Proof.
  intros Hc Hp. induction a as [|x a IH].
  - simpl. destruct p as [|y p]; [done|]. simpl in *.
    apply orb_false_iff in Hc as [Hy _].
    destruct (ascii_dec y c) as [->|]; [|done].
    by rewrite Ascii.eqb_refl in Hy.
  - change (String x a +:+ String c b) with (String x (a +:+ String c b)).
    cbn [includes].
    change (String x (a +:+ String c b)) with (String x a +:+ String c b).
    rewrite prefix_app_sep, IH by done. by rewrite orb_assoc.
Qed.

Lemma includes_join c p l :
  hasChar c p = false → p ≠ "" →
  includes (join (String c "") l) p = existsb (λ e, includes e p) l.
Proof.
  intros Hc Hp. induction l as [|x [|y l] IH].
  - simpl. by destruct p.
  - simpl. by rewrite orb_false_r.
  - change (join (String c "") (x :: y :: l))
      with (x +:+ String c (join (String c "") (y :: l))).
    rewrite includes_app_sep, IH by done. done.
Qed.

Lemma existsb_fmap {A B} (f : A → B) (P : B → bool) (l : list A) :
  existsb P (f <$> l) = existsb (λ x, P (f x)) l.
Proof. induction l as [|x l IH]; csimpl; [done|]. by rewrite IH. Qed.

Lemma negb_existsb {A} (P : A → bool) (l : list A) :
  negb (existsb P l) = forallb (λ x, negb (P x)) l.
Proof. induction l as [|x l IH]; simpl; [done|]. by rewrite negb_orb, IH. Qed.

(** The test on the joined, case-folded row is a test on its entries. *)
Lemma isAllPrep_allPrepRow t : isAllPrep t = allPrepRow t.
Proof.
  unfold isAllPrep, allPrepRow.
  rewrite toLowerCase_join.
  change (toLowerCase "|") with (String "|" "").
  rewrite includes_join by done.
  rewrite existsb_fmap, negb_existsb. apply andb_comm.
Qed.

Lemma teacherIssues_allPrep seen t :
  filter (λ i, Is_true (isAllPrepIssue i)) (teacherIssues seen t)
  = if allPrepRow t then [AllPrep (teacher t)] else [].
Proof.
  unfold teacherIssues. rewrite isAllPrep_allPrepRow.
  destruct (isEmpty (teacher t) || isEmpty (trim (teacher t)));
    destruct (setHas seen (toLowerCase (teacher t)));
    by destruct (allPrepRow t).
Qed.

Lemma rowIssues_allPrep seen ts :
  filter (λ i, Is_true (isAllPrepIssue i)) (rowIssues seen ts)
  = (λ t, AllPrep (teacher t)) <$> filter (λ t, Is_true (allPrepRow t)) ts.
Proof.
  revert seen. induction ts as [|t ts IH]; intros seen; [done|].
  cbn [rowIssues]. rewrite filter_app, teacherIssues_allPrep, IH.
  destruct (allPrepRow t) eqn:Ht.
  - rewrite filter_cons_True; [done|by apply Is_true_true].
  - rewrite filter_cons_False; [done|by apply Is_true_false].
Qed.

(** C4, as the code has it.  The all-prep warnings of the issue list are,
    in row order, one for each row in which every period cell is [Prep]
    or empty and no entry of the row's data (department, teacher name or
    period cell) contains [(room:] in any letter case; a row that fails
    this gets none. *)
Theorem validateSchedule_allPrep ts nonTeachingLabelsStr :
  filter (λ i, Is_true (isAllPrepIssue i)) (validateSchedule ts nonTeachingLabelsStr)
  = (λ t, AllPrep (teacher t)) <$> filter (λ t, Is_true (allPrepRow t)) ts.
Proof.
  rewrite validateSchedule_shape, filter_app.
  rewrite (filter_omap_None isAllPrepIssue), app_nil_r.
  2:{ intros c i. by destruct (typoLabel _ _); intros [= <-]. }
  apply rowIssues_allPrep.
Qed.

(** The example of the specification: one taught period among [Prep]
    cells, and no all-prep warning. *)
Lemma validateSchedule_allPrep_example :
  filter (λ i, Is_true (isAllPrepIssue i))
    (validateSchedule [biologyRow] "prep,lunch") = [] ∧
  filter (λ i, Is_true (isAllPrepIssue i))
    (validateSchedule
       [TeacherRow "Lee, Anna" "Math" ["Math"; "Lee, Anna"; "Prep"; "Prep"]] "prep,lunch")
  = [AllPrep "Lee, Anna"].
Proof. by vm_compute. Qed.

(** C4, as stated, fails: every period cell of the row is [Prep] and no
    entry of it contains [(Room:] as written, yet the row gets no
    all-prep warning, because its teacher name contains [(ROOM:]. *)
Lemma validateSchedule_allPrep_counterexample :
  specAllPrepRow capitalRoomRow = true ∧
  filter (λ i, Is_true (isAllPrepIssue i))
    (validateSchedule [capitalRoomRow] "prep,lunch") = [].
Proof. by vm_compute. Qed.

(** *** Typo warnings *)

Lemma NoDup_newSet l : NoDup (newSet l).
Proof.
  unfold newSet. generalize (NoDup_nil_2 (A:=string)).
  generalize (@nil string) as s. induction l as [|x l IH]; intros s Hs; [done|].
  simpl. apply IH. unfold setAdd, setHas. case_bool_decide as Hx; [done|].
  apply NoDup_app. split; [done|]. split; [|apply NoDup_singleton].
  intros y Hy ->%list_elem_of_singleton. done.
Qed.

Lemma typoLabel_Some courseLower knownLabels label :
  typoLabel courseLower knownLabels = Some label ↔
  ∃ before after, knownLabels = before ++ label :: after ∧
    looksLikeTypo courseLower label = true ∧
    ∀ l, l ∈ before → looksLikeTypo courseLower l = false.
Proof.
  induction knownLabels as [|k ks IH]; simpl.
  - split; [done|]. intros (b & a & H & _). by destruct b.
  - destruct (looksLikeTypo courseLower k) eqn:Hk.
    + split.
      * intros [= <-]. exists [], ks. split; [done|]. split; [done|].
        by intros l ?%elem_of_nil.
      * intros ([|b bs] & a & H & Hl & Hb).
        -- by injection H as -> _.
        -- injection H as -> _. rewrite (Hb b) in Hk; [done|by left].
    + rewrite IH. split.
      * intros (b & a & -> & Hl & Hb). exists (k :: b), a.
        split; [done|]. split; [done|].
        intros l [->|?]%elem_of_cons; auto.
      * intros ([|b bs] & a & H & Hl & Hb).
        -- injection H as -> _. congruence.
        -- injection H as -> ->. exists bs, a. split; [done|]. split; [done|].
           intros l Hin. apply Hb. by right.
Qed.

Lemma typoLabel_is_Some courseLower knownLabels :
  is_Some (typoLabel courseLower knownLabels) ↔
  ∃ label, label ∈ knownLabels ∧ looksLikeTypo courseLower label = true.
Proof.
  induction knownLabels as [|k ks IH]; simpl.
  - split; [by intros [? ?]|]. by intros (? & ?%elem_of_nil & _).
  - destruct (looksLikeTypo courseLower k) eqn:Hk.
    + split; [|done]. intros _. exists k. split; [by left|done].
    + rewrite IH. split.
      * intros (l & Hl & H). exists l. split; [by right|done].
      * intros (l & [->|Hl]%elem_of_cons & H); [congruence|eauto].
Qed.

Lemma looksLikeTypo_cases courseLower label :
  looksLikeTypo courseLower label
  = withinTypoDistance courseLower label && negb (includes courseLower "(room:").
Proof.
  unfold looksLikeTypo, withinTypoDistance, distance.
  rewrite levenshteinDistance_editDistance.
  by destruct (editDistance _ _ _ _).
Qed.

Lemma isCourseRef_true cell :
  isCourseRef cell = true ↔ cell ≠ "" ∧ includes cell "(Room:" = false ∧ cell ≠ "Prep".
Proof.
  unfold isCourseRef. rewrite !andb_true_iff, !negb_true_iff.
  rewrite <- (not_true_iff_false (String.eqb cell "Prep")), String.eqb_eq.
  destruct cell; simpl; intuition congruence.
Qed.

Lemma elem_of_concat {A} (ls : list (list A)) x :
  x ∈ concat ls ↔ ∃ l, x ∈ l ∧ l ∈ ls.
Proof.
  induction ls as [|l ls IH]; simpl.
  - rewrite elem_of_nil. split; [done|]. by intros (? & _ & ?%elem_of_nil).
  - rewrite elem_of_app, IH. split.
    + intros [H|(l' & H & Hl')]; [exists l; split; [done|by left]|].
      exists l'. split; [done|by right].
    + intros (l' & H & [->|Hl']%elem_of_cons); [by left|right; eauto].
Qed.

Lemma elem_of_coursesOf ts c :
  c ∈ concat (coursesOf <$> ts) ↔
  ∃ t, t ∈ ts ∧ c ∈ drop 2 (data t) ∧ isCourseRef c = true.
Proof.
  rewrite elem_of_concat. split.
  - intros (l & Hc & (t & -> & Ht)%list_elem_of_fmap).
    unfold coursesOf in Hc. apply list_elem_of_filter in Hc as [Hp Hc].
    exists t. split; [done|]. split; [done|]. by apply Is_true_true.
  - intros (t & Ht & Hc & Hp). exists (coursesOf t). split.
    + unfold coursesOf. apply list_elem_of_filter. split; [by apply Is_true_true|done].
    + apply list_elem_of_fmap. eauto.
Qed.

Lemma rowIssues_no_typo seen ts c label : PossibleTypo c label ∉ rowIssues seen ts.
Proof.
  revert seen. induction ts as [|t ts IH]; intros seen; [by intros ?%elem_of_nil|].
  cbn [rowIssues]. rewrite elem_of_app. intros [H|H]; [|by eapply IH].
  unfold teacherIssues in H. rewrite !elem_of_app in H.
  destruct (isEmpty (teacher t) || isEmpty (trim (teacher t)));
    destruct (setHas seen (toLowerCase (teacher t)));
    destruct (isAllPrep t);
    repeat match goal with
           | H : _ ∨ _ |- _ => destruct H as [H|H]
           | H : _ ∈ [_] |- _ => apply list_elem_of_singleton in H
           | H : _ ∈ [] |- _ => apply elem_of_nil in H
           end; done.
Qed.

(** A typo warning for [c] naming [label] is in the issue list exactly
    when [c] is one of the collected course texts and [label] is what the
    inner loop stops at. *)
Lemma elem_of_validateSchedule_typo ts nonTeachingLabelsStr c label :
  PossibleTypo c label ∈ validateSchedule ts nonTeachingLabelsStr ↔
  (∃ t, t ∈ ts ∧ c ∈ drop 2 (data t) ∧ isCourseRef c = true) ∧
  typoLabel (toLowerCase c) (nonTeachingSetOf nonTeachingLabelsStr) = Some label.
Proof.
  rewrite validateSchedule_shape, elem_of_app, list_elem_of_omap.
  rewrite <- elem_of_coursesOf. split.
  - intros [H|(c' & Hc' & H)]; [destruct (rowIssues_no_typo _ _ _ _ H)|].
    destruct (typoLabel (toLowerCase c') _) eqn:E; [|done].
    injection H as -> ->. rewrite elem_of_newSet in Hc'. by split.
  - intros [Hc Hl]. right. exists c. split; [by rewrite elem_of_newSet|].
    by rewrite Hl.
Qed.

Lemma typo_count_NoDup (f : string → option string) (l : list string) c :
  NoDup l →
  length (filter (λ i, Is_true (isTypoFor c i)) (omap (λ c', PossibleTypo c' <$> f c') l))
  ≤ (if bool_decide (c ∈ l) then 1 else 0).
Proof.
  induction 1 as [|x l Hx Hl IH]; [done|]. csimpl.
  assert (Hrest : c = x →
    length (filter (λ i, Is_true (isTypoFor c i))
              (omap (λ c', PossibleTypo c' <$> f c') l)) = 0).
  { intros ->. rewrite bool_decide_false in IH by done. lia. }
  destruct (decide (c = x)) as [->|Hne].
  - rewrite bool_decide_true by (by left). specialize (Hrest eq_refl).
    destruct (f x); csimpl.
    + rewrite filter_cons_True.
      * cbn [length]. rewrite Hrest. lia.
      * simpl. rewrite String.eqb_refl. exact I.
    + rewrite Hrest. lia.
  - assert (Hc : bool_decide (c ∈ x :: l) = bool_decide (c ∈ l)).
    { apply bool_decide_ext. rewrite elem_of_cons. tauto. }
    rewrite Hc.
    destruct (f x); csimpl; [|done].
    rewrite filter_cons_False; [done|].
    simpl. apply Is_true_false, String.eqb_neq. congruence.
Qed.

Lemma rowIssues_typo_count seen ts c :
  filter (λ i, Is_true (isTypoFor c i)) (rowIssues seen ts) = [].
Proof.
  revert seen. induction ts as [|t ts IH]; intros seen; [done|].
  cbn [rowIssues]. rewrite filter_app, IH, app_nil_r.
  unfold teacherIssues.
  destruct (isEmpty (teacher t) || isEmpty (trim (teacher t)));
    destruct (setHas seen (toLowerCase (teacher t)));
    by destruct (isAllPrep t).
Qed.

(** C3, as the code has it, for a course text [c] that is not at once a
    configured label (distance 0) and at distance 1 or 2 from another
    one.  A typo warning for [c] is emitted exactly when [c] is a
    non-empty period cell of some row that is not [Prep] and does not
    contain [(Room:], its case-folded form does not contain [(room:], and
    some configured label is at edit distance 1 or 2 from the case-folded
    [c].  There is at most one typo warning for [c]; the label it names is
    the first configured label at distance 1 or 2; and a [c] that is a
    configured label gets no typo warning. *)
Theorem validateSchedule_typos ts nonTeachingLabelsStr c :
  let out := validateSchedule ts nonTeachingLabelsStr in
  let knownLabels := nonTeachingSetOf nonTeachingLabelsStr in
  exactLabel knownLabels (toLowerCase c) && nearLabel knownLabels (toLowerCase c) = false →
  ((∃ label, PossibleTypo c label ∈ out) ↔
     specCourseCell ts c ∧ c ≠ "" ∧
     includes (toLowerCase c) "(room:" = false ∧
     ∃ label, label ∈ knownLabels ∧ withinTypoDistance (toLowerCase c) label = true) ∧
  length (filter (λ i, Is_true (isTypoFor c i)) out) ≤ 1 ∧
  (∀ label, PossibleTypo c label ∈ out →
     distance (toLowerCase c) label ≠ 0 ∧
     ∃ before after, knownLabels = before ++ label :: after ∧
       withinTypoDistance (toLowerCase c) label = true ∧
       ∀ l, l ∈ before → withinTypoDistance (toLowerCase c) l = false) ∧
  (exactLabel knownLabels (toLowerCase c) = true → ∀ label, PossibleTypo c label ∉ out).
Proof.
  cbv zeta. intros Hslip.
  assert (Hwarned : ∀ label,
            PossibleTypo c label ∈ validateSchedule ts nonTeachingLabelsStr →
            specCourseCell ts c ∧ c ≠ "" ∧
            includes (toLowerCase c) "(room:" = false ∧
            ∃ l, l ∈ nonTeachingSetOf nonTeachingLabelsStr ∧
                 withinTypoDistance (toLowerCase c) l = true).
  { intros label ((t & Ht & Hc & Href) & Hl)%elem_of_validateSchedule_typo.
    apply isCourseRef_true in Href as (Hne & Hroom & Hprep).
    assert (Hsome : is_Some (typoLabel (toLowerCase c)
                               (nonTeachingSetOf nonTeachingLabelsStr))) by eauto.
    apply typoLabel_is_Some in Hsome as (l & Hin & Hlike).
    rewrite looksLikeTypo_cases in Hlike.
    apply andb_true_iff in Hlike as [Hd Hr]. apply negb_true_iff in Hr.
    split; [by exists t|]. eauto. }
  split; [|split; [|split]].
  - split.
    + intros (label & Hin). by apply (Hwarned label).
    + intros ((t & Ht & Hc & Hprep & Hroom) & Hne & Hr & (l & Hin & Hd)).
      assert (Hsome : is_Some (typoLabel (toLowerCase c)
                                 (nonTeachingSetOf nonTeachingLabelsStr))).
      { apply typoLabel_is_Some. exists l. split; [done|].
        by rewrite looksLikeTypo_cases, Hd, Hr. }
      destruct Hsome as [label Hlabel]. exists label.
      apply elem_of_validateSchedule_typo. split; [|done].
      exists t. split; [done|]. split; [done|]. by apply isCourseRef_true.
  - rewrite validateSchedule_shape, filter_app, rowIssues_typo_count, app_nil_l.
    etrans; [apply typo_count_NoDup, NoDup_newSet|]. case_bool_decide; lia.
  - intros label ((t & Ht & Hc & Href) & Hl)%elem_of_validateSchedule_typo.
    apply typoLabel_Some in Hl as (before & after & Heq & Hlike & Hbefore).
    rewrite looksLikeTypo_cases in Hlike.
    apply andb_true_iff in Hlike as [Hd Hr].
    split.
    + unfold withinTypoDistance in Hd. intros H0. by rewrite H0 in Hd.
    + exists before, after. split; [done|]. split; [done|].
      intros l Hin. specialize (Hbefore l Hin).
      rewrite looksLikeTypo_cases, Hr, andb_true_r in Hbefore. done.
  - intros Hexact label Hin. rewrite Hexact in Hslip.
    destruct (Hwarned label Hin) as (_ & _ & _ & l & Hl & Hd).
    assert (nearLabel (nonTeachingSetOf nonTeachingLabelsStr) (toLowerCase c) = true)
      as Hnear; [|by rewrite Hnear in Hslip].
    apply existsb_exists. exists l. split; [by apply list_elem_of_In|done].
Qed.

(** The examples of the specification: with the label [prep], [perp]
    (distance 2) and [xprep] (distance 1) get a warning each, [math]
    (distance 4) and [PREP] (distance 0) get none. *)
Lemma validateSchedule_typos_example :
  validateSchedule
    [TeacherRow "Lee, Anna" "Math" ["Math"; "Lee, Anna"; "perp"; "xprep"; "math"; "PREP"]]
    "prep"
  = [PossibleTypo "perp" "prep"; PossibleTypo "xprep" "prep"].
Proof. by vm_compute. Qed.

Lemma validateSchedule_typos_witness :
  let out := validateSchedule [typoRow] "prep" in
  ((∃ label, PossibleTypo "perp" label ∈ out) ↔
     specCourseCell [typoRow] "perp" ∧ "perp" ≠ "" ∧
     includes (toLowerCase "perp") "(room:" = false ∧
     ∃ label, label ∈ nonTeachingSetOf "prep" ∧
              withinTypoDistance (toLowerCase "perp") label = true) ∧
  length (filter (λ i, Is_true (isTypoFor "perp" i)) out) ≤ 1 ∧
  (∀ label, PossibleTypo "perp" label ∈ out →
     distance (toLowerCase "perp") label ≠ 0 ∧
     ∃ before after, nonTeachingSetOf "prep" = before ++ label :: after ∧
       withinTypoDistance (toLowerCase "perp") label = true ∧
       ∀ l, l ∈ before → withinTypoDistance (toLowerCase "perp") l = false) ∧
  (exactLabel (nonTeachingSetOf "prep") (toLowerCase "perp") = true →
   ∀ label, PossibleTypo "perp" label ∉ out).
Proof. apply (validateSchedule_typos [typoRow] "prep" "perp"). reflexivity. Defined.

(** C3, as stated, fails.  A cell in capitals that holds [(ROOM:] is not
    [Prep], does not contain [(Room:] and is at distance 1 from the
    configured label [(room:], and an empty cell is at distance 2 from
    the configured label [pd]; neither gets a typo warning. *)
Lemma validateSchedule_typo_counterexample :
  (specCourseCell [capitalRoomCellRow] "(ROOM:x" ∧
   "(room:" ∈ nonTeachingSetOf "prep,(room:" ∧
   distance (toLowerCase "(ROOM:x") "(room:" = 1 ∧
   validateSchedule [capitalRoomCellRow] "prep,(room:" = []) ∧
  (specCourseCell [emptyCellRow] "" ∧
   "pd" ∈ nonTeachingSetOf "Prep, Lunch, PD" ∧
   distance (toLowerCase "") "pd" = 2 ∧
   filter (λ i, Is_true (isTypoIssue i))
     (validateSchedule [emptyCellRow] "Prep, Lunch, PD") = []).
Proof.
  split; (split; [|split; [|split; [by vm_compute|by vm_compute]]]).
  - exists capitalRoomCellRow. split; [by left|]. split; [by left|]. done.
  - vm_compute. by right; left.
  - exists emptyCellRow. split; [by left|]. split; [by left|]. done.
  - vm_compute. by right; right; left.
Qed.

(** The case the theorem leaves out: a cell that is the configured label
    [lunch] and is at distance 2 from the configured label [lunch b].
    The test [dist > 0] passes over [lunch], and the loop goes on to
    [lunch b]. *)
Lemma validateSchedule_exact_label_example :
  exactLabel (nonTeachingSetOf "Prep, Lunch, Lunch B") (toLowerCase "Lunch") = true ∧
  nearLabel (nonTeachingSetOf "Prep, Lunch, Lunch B") (toLowerCase "Lunch") = true ∧
  validateSchedule [lunchRow] "Prep, Lunch, Lunch B" = [PossibleTypo "Lunch" "lunch b"].
Proof. by vm_compute. Qed.

(** *** Missing names *)

Lemma trimStart_head s :
  match trimStart s with
  | "" => True
  | String c _ => isSpace c = false
  end.
Proof.
  induction s as [|c s IH]; simpl; [done|].
  destruct (isSpace c) eqn:Hc; [done|]. simpl. done.
Qed.

Lemma trimEnd_idemp s : trimEnd (trimEnd s) = trimEnd s.
Proof.
  induction s as [|c s IH]; simpl; [done|].
  destruct (isSpace c && isEmpty (trimEnd s)) eqn:E; [done|].
  simpl. by rewrite IH, E.
Qed.

(** Trimming a trimmed string changes nothing. *)
Lemma trim_idemp s : trim (trim s) = trim s.
Proof.
  unfold trim.
  assert (Hstart : trimStart (trimEnd (trimStart s)) = trimEnd (trimStart s)).
  { pose proof (trimStart_head s) as Hh.
    destruct (trimStart s) as [|c u]; [done|].
    simpl. rewrite Hh. simpl. by rewrite Hh. }
  by rewrite Hstart, trimEnd_idemp.
Qed.

Lemma resolveCell_trimmed colName r : trim (resolveCell colName r) = resolveCell colName r.
Proof. unfold resolveCell. destruct (truthy colName); [apply trim_idemp|done]. Qed.

Lemma isEmpty_true s : isEmpty s = true ↔ s = "".
Proof. by destruct s. Qed.

Lemma rowIssues_missing seen ts :
  MissingName ∈ rowIssues seen ts →
  ∃ t, t ∈ ts ∧ (teacher t = "" ∨ trim (teacher t) = "").
Proof.
  revert seen. induction ts as [|t ts IH]; intros seen; [by intros ?%elem_of_nil|].
  cbn [rowIssues]. rewrite elem_of_app. intros [H|H].
  - exists t. split; [by left|].
    unfold teacherIssues in H.
    destruct (isEmpty (teacher t) || isEmpty (trim (teacher t))) eqn:E.
    + apply orb_true_iff in E as [E|E]; [left|right]; by apply isEmpty_true.
    + rewrite !elem_of_app in H.
      destruct (setHas seen (toLowerCase (teacher t))); destruct (isAllPrep t);
        repeat match goal with
               | H : _ ∨ _ |- _ => destruct H as [H|H]
               | H : _ ∈ [_] |- _ => apply list_elem_of_singleton in H
               | H : _ ∈ [] |- _ => apply elem_of_nil in H
               end; done.
  - destruct (IH _ H) as (t' & Ht' & Hn). exists t'. split; [by right|done].
Qed.

Lemma validateSchedule_missing ts nonTeachingLabelsStr :
  MissingName ∈ validateSchedule ts nonTeachingLabelsStr →
  ∃ t, t ∈ ts ∧ (teacher t = "" ∨ trim (teacher t) = "").
Proof.
  rewrite validateSchedule_shape, elem_of_app. intros [H|H].
  - by apply rowIssues_missing in H.
  - apply list_elem_of_omap in H as (c & _ & H).
    by destruct (typoLabel _ _).
Qed.

Lemma names_omap_filter {A B} (f : A → option B) (g : B → string) (name : A → string)
    (l : list A) :
  (∀ x, match f x with Some y => g y = name x ∧ name x ≠ "" | None => name x = "" end) →
  g <$> omap f l = filter (λ n, n ≠ "") (name <$> l).
Proof.
  intros H. induction l as [|x l IH]; [done|]. csimpl.
  specialize (H x). destruct (f x) as [y|]; csimpl.
  - destruct H as [Hg Hne]. rewrite filter_cons_True by done. by rewrite IH, Hg.
  - rewrite filter_cons_False; [done|]. by intros [].
Qed.

Lemma parseExcelSchedule_names sheetData nonTeachingLabelsStr :
  teacher <$> teachers (parseExcelSchedule sheetData nonTeachingLabelsStr)
  = filter (λ name, name ≠ "") (teacherNameOf sheetData <$> sheetData).
Proof.
  destruct sheetData as [|first rest]; [done|].
  unfold parseExcelSchedule. cbn [teachers].
  rewrite foldl_addTeacher, app_nil_l.
  apply names_omap_filter. intros r. unfold teacherNameOf. cbv zeta.
  by destruct (resolveCell _ r) eqn:E.
Qed.

(** C5.  Every teacher row the normaliser produces has a trimmed,
    non-empty teacher name; the names of the rows produced are the
    resolved names of the rows of the sheet, in order, with the empty
    ones left out (such rows produce no teacher row); and the validator,
    run on the rows the normaliser produced, never reports a missing
    teacher name, whatever labels it is given. *)
Theorem normaliser_names_present sheetData nonTeachingLabelsStr validatorLabelsStr :
  let res := parseExcelSchedule sheetData nonTeachingLabelsStr in
  (∀ t, t ∈ teachers res → teacher t ≠ "" ∧ trim (teacher t) = teacher t) ∧
  teacher <$> teachers res
  = filter (λ name, name ≠ "") (teacherNameOf sheetData <$> sheetData) ∧
  MissingName ∉ validateSchedule (teachers res) validatorLabelsStr.
Proof.
  cbv zeta.
  assert (Hnames : ∀ t,
    t ∈ teachers (parseExcelSchedule sheetData nonTeachingLabelsStr) →
    teacher t ≠ "" ∧ trim (teacher t) = teacher t).
  { intros t Ht.
    destruct (parseExcelSchedule_rows _ _ _ Ht) as (r & Hr & Hname & Hne & _).
    split; [by destruct (teacher t)|].
    rewrite Hname. unfold teacherNameOf.
    destruct sheetData; [done|]. apply resolveCell_trimmed. }
  split; [done|]. split; [apply parseExcelSchedule_names|].
  intros (t & Ht & Hempty)%validateSchedule_missing.
  destruct (Hnames t Ht) as [Hne Htrim].
  rewrite Htrim in Hempty. by destruct Hempty.
Qed.

(** *** End to end *)

(** The end-to-end example of the specification: the normalised cells of
    the row, and no issue for it. *)
Lemma end_to_end_example :
  let res := parseExcelSchedule [sampleRow] "prep,lunch" in
  headers res = ["Department"; "Teacher"; "Period 1 A Day"; "Period 1 B Day"] ∧
  data <$> teachers res
  = [["Math"; "Lee, Anna"; "Algebra I (Room: 204)"; "Geometry (Room: 204)"]] ∧
  validateSchedule (teachers res) "prep,lunch" = [].
Proof. by vm_compute. Qed.

(** ** Column mapper *)

Lemma lowerMapOf_snoc hs h :
  lowerMapOf (hs ++ [h]) = objectSet (lowerMapOf hs) (headerKey h) h.
Proof. unfold lowerMapOf. by rewrite foldl_app. Qed.

(** No assignment makes [__proto__] an own property. *)
Lemma lowerMapOf_proto hs : lowerMapOf hs !! "__proto__" = None.
Proof.
  induction hs as [|x hs IH] using rev_ind; [done|].
  rewrite lowerMapOf_snoc. unfold objectSet.
  destruct (String.eqb_spec (headerKey x) "__proto__") as [?|Hne]; [done|].
  by rewrite lookup_insert_ne.
Qed.

(** The object files each key under the last header that has it. *)
Lemma lowerMapOf_Some hs k h :
  lowerMapOf hs !! k = Some h →
  headerKey h = k ∧
  ∃ hs1 hs2, hs = hs1 ++ h :: hs2 ∧ ∀ h', h' ∈ hs2 → headerKey h' ≠ k.
Proof.
  revert h. induction hs as [|x hs IH] using rev_ind; intros h.
  - unfold lowerMapOf. simpl. by rewrite lookup_empty.
  - rewrite lowerMapOf_snoc. unfold objectSet.
    destruct (String.eqb_spec (headerKey x) "__proto__") as [Hx|Hx].
    + intros Hk. destruct (IH _ Hk) as (Hh & hs1 & hs2 & -> & Hlast).
      split; [done|].
      exists hs1, (hs2 ++ [x]). split; [by rewrite <- app_assoc|].
      intros h' [?| ->%list_elem_of_singleton]%elem_of_app; [auto|].
      intros <-. rewrite Hx, lowerMapOf_proto in Hk. done.
    + rewrite lookup_insert. case_decide as Hk.
      * intros [= <-]. split; [done|]. exists hs, []. split; [done|].
        by intros h' ?%elem_of_nil.
      * intros (Hh & hs1 & hs2 & -> & Hlast)%IH. split; [done|].
        exists hs1, (hs2 ++ [x]). split; [by rewrite <- app_assoc|].
        intros h' [?| ->%list_elem_of_singleton]%elem_of_app; auto.
Qed.

Lemma lowerMapOf_None hs k :
  k ≠ "__proto__" → lowerMapOf hs !! k = None → ∀ h, h ∈ hs → headerKey h ≠ k.
Proof.
  intros Hproto. induction hs as [|x hs IH] using rev_ind.
  - by intros _ h ?%elem_of_nil.
  - rewrite lowerMapOf_snoc. unfold objectSet.
    destruct (String.eqb_spec (headerKey x) "__proto__") as [Hx|Hx].
    + intros Hnone h [?| ->%list_elem_of_singleton]%elem_of_app; [auto|congruence].
    + rewrite lookup_insert. case_decide as Hk; [done|].
      intros Hnone h [?| ->%list_elem_of_singleton]%elem_of_app; auto.
Qed.

(** What the loop over the candidates returns, for any object. *)
Lemma firstMatch_spec lowerMap possibleNames :
  let found := firstMatch lowerMap possibleNames in
  if truthy found then
    ∃ before name after, possibleNames = before ++ name :: after ∧
      objectGet lowerMap (headerKey name) = found ∧
      ∀ n, n ∈ before → truthy (objectGet lowerMap (headerKey n)) = false
  else
    found = Null ∧
    ∀ n, n ∈ possibleNames → truthy (objectGet lowerMap (headerKey n)) = false.
Proof.
  cbv zeta. induction possibleNames as [|name rest IH]; cbn [firstMatch].
  - simpl. split; [done|]. by intros n ?%elem_of_nil.
  - cbv zeta. destruct (truthy (objectGet lowerMap (headerKey name))) eqn:Hname.
    + rewrite Hname. exists [], name, rest. split; [done|]. split; [done|].
      by intros n ?%elem_of_nil.
    + destruct (truthy (firstMatch lowerMap rest)).
      * destruct IH as (before & n & after & -> & Hn & Hbefore).
        exists (name :: before), n, after. split; [done|]. split; [done|].
        intros m [->|?]%elem_of_cons; auto.
      * destruct IH as [-> IH]. split; [done|].
        intros m [->|?]%elem_of_cons; auto.
Qed.

(** Case folding leaves no capital letter of the English alphabet. *)
Lemma lowerChar_not_capital c :
  let n := N_of_ascii (lowerChar c) in ((n <? 65) || (90 <? n))%N = true.
Proof. destruct c as [[] [] [] [] [] [] [] []]; by vm_compute. Qed.

Lemma toLowerCase_no_capital s x :
  ((65 <=? N_of_ascii x) && (N_of_ascii x <=? 90))%N = true →
  hasChar x (toLowerCase s) = false.
Proof.
  intros Hx. induction s as [|c s IH]; [done|]. simpl. rewrite IH, orb_false_r.
  destruct (Ascii.eqb_spec (lowerChar c) x) as [<-|]; [|done].
  pose proof (lowerChar_not_capital c) as Hc. cbv zeta in Hc.
  apply andb_true_iff in Hx as [H1%N.leb_le H2%N.leb_le].
  apply orb_true_iff in Hc as [Hc%N.ltb_lt|Hc%N.ltb_lt]; lia.
Qed.

Lemma headerKey_no_capital name x :
  ((65 <=? N_of_ascii x) && (N_of_ascii x <=? 90))%N = true →
  hasChar x (headerKey name) = false.
Proof. intros Hx. by apply hasChar_trim, toLowerCase_no_capital. Qed.

(** The only names every object inherits that a case-folded key can be
    are [constructor] and [__proto__]: the others hold a capital. *)
Lemma headerKey_not_inherited name :
  headerKey name ≠ "constructor" → headerKey name ≠ "__proto__" →
  existsb (String.eqb (headerKey name)) inheritedNames = false.
Proof.
  intros Hc Hp. apply not_true_is_false. intros (k & Hk & Heq)%existsb_exists.
  apply String.eqb_eq in Heq. subst k.
  unfold inheritedNames in Hk. cbn [In] in Hk.
  assert (Hcap : ∀ x key,
            ((65 <=? N_of_ascii x) && (N_of_ascii x <=? 90))%N = true →
            hasChar x key = true → key ≠ headerKey name).
  { intros x key Hx Hkey ->. by rewrite headerKey_no_capital in Hkey. }
  destruct Hk as [Hk|[Hk|[Hk|[Hk|[Hk|[Hk|[Hk|[Hk|[Hk|[Hk|[Hk|[Hk|[]]]]]]]]]]]]];
    try done.
  - by apply (Hcap "O"%char) in Hk.
  - by apply (Hcap "P"%char) in Hk.
  - by apply (Hcap "I"%char) in Hk.
  - by apply (Hcap "L"%char) in Hk.
  - by apply (Hcap "S"%char) in Hk.
  - by apply (Hcap "O"%char) in Hk.
  - by apply (Hcap "G"%char) in Hk.
  - by apply (Hcap "S"%char) in Hk.
  - by apply (Hcap "G"%char) in Hk.
  - by apply (Hcap "S"%char) in Hk.
Qed.

(** For a key that is no inherited name, the own properties decide. *)
Lemma objectGet_own lowerMap name :
  headerKey name ≠ "constructor" → headerKey name ≠ "__proto__" →
  objectGet lowerMap (headerKey name)
  = match lowerMap !! headerKey name with Some h => Text h | None => Undefined end.
Proof.
  intros Hc Hp. unfold objectGet. by rewrite headerKey_not_inherited.
Qed.

(** With candidates that are no inherited names, the result is a header
    or [null]. *)
Lemma firstMatch_header headers possibleNames :
  (∀ name, name ∈ possibleNames →
           headerKey name ≠ "constructor" ∧ headerKey name ≠ "__proto__") →
  match firstMatch (lowerMapOf headers) possibleNames with
  | Text h => h ∈ headers
  | Null => True
  | Undefined | Inherited _ => False
  end.
Proof.
  intros Hown.
  pose proof (firstMatch_spec (lowerMapOf headers) possibleNames) as Hspec.
  cbv zeta in Hspec.
  destruct (truthy (firstMatch (lowerMapOf headers) possibleNames)) eqn:Htruthy.
  - destruct Hspec as (before & name & after & -> & Hname & _).
    destruct (Hown name) as [Hc Hp]; [apply elem_of_app; right; by left|].
    rewrite objectGet_own in Hname by done.
    destruct (lowerMapOf headers !! headerKey name) as [h|] eqn:Hlook;
      rewrite <- Hname in *; [|done].
    apply lowerMapOf_Some in Hlook as (_ & hs1 & hs2 & -> & _).
    apply elem_of_app. right. by left.
  - by destruct Hspec as [-> _].
Qed.

(** The two columns of the parser are headers of the sheet, when found. *)
Lemma parser_columns_headers headers :
  match findColumnName headers teacherCandidates with
  | Text h => h ∈ headers
  | Null => True
  | Undefined | Inherited _ => False
  end ∧
  match findColumnName headers deptCandidates with
  | Text h => h ∈ headers
  | Null => True
  | Undefined | Inherited _ => False
  end.
Proof.
  split; apply firstMatch_header; intros name Hin;
    repeat (apply elem_of_cons in Hin as [->|Hin]; [by vm_compute|]);
    by apply elem_of_nil in Hin.
Qed.

(** C8, as the code has it: the claim, when no header is the empty
    string or no candidate is empty once trimmed, and for candidates none
    of which is, case-folded and trimmed, [constructor] or [__proto__].
    The candidates are tried in
    order and compared with the headers case-folded and trimmed on both
    sides; the result is an original header that matches the earliest
    candidate that matches any header (the last of the headers that match
    it), and there is no result exactly when no candidate matches any
    header.  [findColumnName] is the same function. *)
Theorem findColumn_first_match headers possibleNames :
  "" ∉ headers ∨ (∀ name, name ∈ possibleNames → headerKey name ≠ "") →
  (∀ name, name ∈ possibleNames →
           headerKey name ≠ "constructor" ∧ headerKey name ≠ "__proto__") →
  findColumnName headers possibleNames = findColumn headers possibleNames ∧
  match findColumn headers possibleNames with
  | Text h =>
      h ∈ headers ∧
      ∃ before name after, possibleNames = before ++ name :: after ∧
        matches h name ∧
        (∀ n h', n ∈ before → h' ∈ headers → ¬ matches h' n) ∧
        ∃ hs1 hs2, headers = hs1 ++ h :: hs2 ∧ ∀ h', h' ∈ hs2 → ¬ matches h' name
  | Null => ∀ n h', n ∈ possibleNames → h' ∈ headers → ¬ matches h' n
  | Undefined | Inherited _ => False
  end.
Proof.
  intros Hne Hown. split; [done|]. unfold findColumn, matches.
  assert (Hno : ∀ n, n ∈ possibleNames →
                     truthy (objectGet (lowerMapOf headers) (headerKey n)) = false →
                     ∀ h', h' ∈ headers → headerKey h' ≠ headerKey n).
  { intros n Hn. destruct (Hown n Hn) as [Hc Hp].
    rewrite objectGet_own by done.
    destruct (lowerMapOf headers !! headerKey n) as [h|] eqn:Hlook.
    - destruct h as [|c h]; [|done]. intros _.
      apply lowerMapOf_Some in Hlook as (Hkey & hs1 & hs2 & -> & _).
      destruct Hne as [Hne|Hne].
      + destruct Hne. apply elem_of_app. right. by left.
      + destruct (Hne n Hn). by rewrite <- Hkey.
    - intros _. by apply lowerMapOf_None. }
  pose proof (firstMatch_spec (lowerMapOf headers) possibleNames) as Hspec.
  cbv zeta in Hspec.
  destruct (truthy (firstMatch (lowerMapOf headers) possibleNames)) eqn:Htruthy.
  - destruct Hspec as (before & name & after & -> & Hname & Hbefore).
    assert (Hin : name ∈ before ++ name :: after)
      by (apply elem_of_app; right; by left).
    destruct (Hown name Hin) as [Hc Hp].
    rewrite objectGet_own in Hname by done.
    destruct (lowerMapOf headers !! headerKey name) as [h|] eqn:Hlook;
      rewrite <- Hname in *; [|done].
    apply lowerMapOf_Some in Hlook as (Hkey & hs1 & hs2 & -> & Hlast).
    split; [apply elem_of_app; right; by left|].
    exists before, name, after. split; [done|]. split; [done|]. split.
    + intros n h' Hn Hh'. apply Hno; [|by apply Hbefore|done].
      apply elem_of_app. by left.
    + by exists hs1, hs2.
  - destruct Hspec as [-> Hall]. intros n h' Hn Hh'. by apply Hno; [|apply Hall|].
Qed.

Lemma findColumn_first_match_witness :
  let headers := ["Dept"; "teacher "; " TEACHER"] in
  findColumnName headers teacherCandidates = findColumn headers teacherCandidates ∧
  match findColumn headers teacherCandidates with
  | Text h =>
      h ∈ headers ∧
      ∃ before name after, teacherCandidates = before ++ name :: after ∧
        matches h name ∧
        (∀ n h', n ∈ before → h' ∈ headers → ¬ matches h' n) ∧
        ∃ hs1 hs2, headers = hs1 ++ h :: hs2 ∧ ∀ h', h' ∈ hs2 → ¬ matches h' name
  | Null => ∀ n h', n ∈ teacherCandidates → h' ∈ headers → ¬ matches h' n
  | Undefined | Inherited _ => False
  end.
Proof.
  apply (findColumn_first_match ["Dept"; "teacher "; " TEACHER"] teacherCandidates).
  - left. intros Hin. repeat (apply elem_of_cons in Hin as [Hin|Hin]; [discriminate|]).
    by apply elem_of_nil in Hin.
  - intros name Hin.
    repeat (apply elem_of_cons in Hin as [Hin|Hin];
            [rewrite Hin; split; vm_compute; discriminate|]).
    by apply elem_of_nil in Hin.
Defined.

(** C8, as stated, fails when a header is the empty string: the
    candidate matches that header, yet there is no result; and a later
    candidate is preferred to an earlier one that matches only it. *)
Lemma findColumn_empty_header_counterexample :
  (matches "" "" ∧ findColumn [""] [""] = Null) ∧
  (matches "" " " ∧ findColumn [""; "Name"] [" "; "Name"] = Text "Name").
Proof. by vm_compute. Qed.

(** The case the theorem leaves out: the object literal inherits
    [constructor] and [__proto__], so a candidate of that name finds
    something that is no header, whatever the headers are; a header of
    the name [constructor] is found as any other, a header [__proto__] is
    not filed at all. *)
Lemma findColumn_inherited_example :
  findColumn ["Name"] ["constructor"] = Inherited "constructor" ∧
  findColumn ["Constructor"; "Name"] ["constructor"] = Text "Constructor" ∧
  findColumn ["__proto__"; "Name"] ["__proto__"; "Name"] = Inherited "__proto__".
Proof. by vm_compute. Qed.

(** ** CSV serialiser and line reader *)

Lemma includes_char s c : includes s (String c "") = hasChar c s.
Proof.
  induction s as [|a s IH]; simpl; [done|]. rewrite IH.
  destruct (ascii_dec c a) as [->|Hne].
  - rewrite Ascii.eqb_refl. by destruct s.
  - apply Ascii.eqb_neq in Hne. rewrite Ascii.eqb_sym in Hne. by rewrite Hne.
Qed.

Lemma needsQuoting_special str : needsQuoting str = special str.
Proof.
  unfold needsQuoting, special, dq, lf.
  by rewrite (includes_char str ","), !includes_char.
Qed.

(** Outside quotes, a field with no comma and no double quote is read
    character by character into the current field. *)
Lemma scanCSV_bare str rest result current :
  hasChar "," str = false → hasChar DQ str = false →
  scanCSV (str +:+ rest) result current false
  = scanCSV rest result (current +:+ str) false.
Proof.
  revert current. induction str as [|c str IH]; intros current Hc Hq.
  - simpl. by rewrite str_app_nil_r.
  - simpl in Hc, Hq.
    apply orb_false_iff in Hc as [Hc Hc'].
    apply orb_false_iff in Hq as [Hq Hq'].
    change (String c str +:+ rest) with (String c (str +:+ rest)).
    cbn [scanCSV]. rewrite Hq, Hc, IH by done.
    by rewrite str_app_assoc.
Qed.

Lemma prefix_dq_false rest :
  String.prefix dq rest = false →
  match rest with "" => True | String c _ => Ascii.eqb c DQ = false end.
Proof.
  destruct rest as [|c rest]; [done|]. intros H.
  change (String.prefix dq (String c rest))
    with (if ascii_dec DQ c then String.prefix "" rest else false) in H.
  destruct (ascii_dec DQ c) as [<-|Hne]; [by destruct rest|].
  apply Ascii.eqb_neq. congruence.
Qed.

(** Inside quotes, the doubled text followed by the closing quote is read
    back as the text, provided no quote follows the closing one. *)
Lemma scanCSV_quoted str rest result current :
  String.prefix dq rest = false →
  scanCSV (doubleQuotes str +:+ dq +:+ rest) result current true
  = scanCSV rest result (current +:+ str) false.
Proof.
  intros Hrest. revert current. induction str as [|c str IH]; intros current.
  - rewrite str_app_nil_r. apply prefix_dq_false in Hrest.
    destruct rest as [|c rest]; [done|].
    simpl. by rewrite Hrest.
  - cbn [doubleQuotes]. destruct (Ascii.eqb_spec c DQ) as [->|Hne].
    + simpl. rewrite IH. by rewrite str_app_assoc.
    + simpl. apply Ascii.eqb_neq in Hne. rewrite Hne, IH.
      by rewrite str_app_assoc.
Qed.

(** An escaped field, followed by the end of the line or by a comma, is
    read back whole. *)
Lemma scanCSV_escapeCsv str rest result current :
  String.prefix dq rest = false →
  scanCSV (escapeCsv str +:+ rest) result current false
  = scanCSV rest result (current +:+ str) false.
Proof.
  intros Hrest. unfold escapeCsv. rewrite needsQuoting_special.
  destruct (special str) eqn:Hs.
  - rewrite !str_app_assoc. simpl. by apply scanCSV_quoted.
  - unfold special in Hs.
    apply orb_false_iff in Hs as [[Hc Hq]%orb_false_iff _].
    by apply scanCSV_bare.
Qed.

Lemma scanCSV_row fields result :
  fields ≠ [] →
  scanCSV (join "," (escapeCsv <$> fields)) result "" false = result ++ fields.
Proof.
  revert result.
  induction fields as [|f [|g fields] IH]; intros result Hne; [done|..].
  - csimpl. rewrite <- (str_app_nil_r (escapeCsv f)).
    by rewrite scanCSV_escapeCsv.
  - change (join "," (escapeCsv <$> f :: g :: fields))
      with (escapeCsv f +:+ "," +:+ join "," (escapeCsv <$> g :: fields)).
    rewrite scanCSV_escapeCsv by done.
    change ("," +:+ ?s) with (String "," s). cbn [scanCSV].
    change (Ascii.eqb "," DQ) with false. cbn iota.
    rewrite Ascii.eqb_refl.
    rewrite IH by done. by rewrite <- app_assoc.
Qed.

(** A whole row: the escaped fields joined by commas are read back as the
    fields. *)
Lemma parseCSVLine_row fields :
  fields ≠ [] → parseCSVLine (join "," (escapeCsv <$> fields)) = fields.
Proof. intros Hne. unfold parseCSVLine. by rewrite scanCSV_row. Qed.

(** C6.  [escapeCsv] quotes a field, doubling the double quotes in it,
    exactly when a comma, a double quote or a line feed occurs in the
    field, and leaves it as it is otherwise; so its result begins with a
    double quote exactly in the first case.  [parseCSVLine] reads the
    escaped field back as the one field it was: for every field, with or
    without a line feed in it. *)
Theorem escapeCsv_round_trip str :
  escapeCsv str = (if special str then dq +:+ doubleQuotes str +:+ dq else str) ∧
  String.prefix dq (escapeCsv str) = special str ∧
  parseCSVLine (escapeCsv str) = [str].
Proof.
  split; [|split].
  - unfold escapeCsv. by rewrite needsQuoting_special.
  - unfold escapeCsv. rewrite needsQuoting_special.
    destruct (special str) eqn:Hs.
    { change (dq +:+ doubleQuotes str +:+ dq)
        with (String DQ (doubleQuotes str +:+ dq)).
      change (String.prefix dq (String DQ (doubleQuotes str +:+ dq)))
        with (if ascii_dec DQ DQ then String.prefix "" (doubleQuotes str +:+ dq)
              else false).
      destruct (ascii_dec DQ DQ); [|done].
      by destruct (doubleQuotes str +:+ dq). }
    unfold special in Hs.
    apply orb_false_iff in Hs as [[_ Hq]%orb_false_iff _].
    destruct str as [|c str]; [done|]. simpl in Hq.
    apply orb_false_iff in Hq as [Hq _].
    change (String.prefix dq (String c str))
      with (if ascii_dec DQ c then String.prefix "" str else false).
    destruct (ascii_dec DQ c) as [<-|]; [|done].
    by rewrite Ascii.eqb_refl in Hq.
  - apply (parseCSVLine_row [str]). done.
Qed.

(** The example of the specification. *)
Lemma escapeCsv_round_trip_example :
  escapeCsv sampleField
  = dq +:+ "He said " +:+ dq +:+ dq +:+ "hi" +:+ dq +:+ dq +:+ ", ok" +:+ dq ∧
  parseCSVLine (escapeCsv sampleField) = [sampleField].
Proof. by vm_compute. Qed.

(** * Further properties *)

(** ** Cell parser: blank cells and the shape of a class *)

Lemma trimStart_empty s : trimStart s = "" ↔ allSpace s = true.
Proof.
  induction s as [|c s IH]; simpl; [done|].
  destruct (isSpace c); simpl; [done|]. split; discriminate.
Qed.

Lemma trimEnd_empty s : trimEnd s = "" ↔ allSpace s = true.
Proof.
  induction s as [|c s IH]; simpl; [done|].
  destruct (isSpace c); simpl.
  - rewrite <- IH. destruct (trimEnd s); simpl; [done|]. split; discriminate.
  - split; discriminate.
Qed.

Lemma allSpace_trimStart s : allSpace (trimStart s) = allSpace s.
Proof.
  induction s as [|c s IH]; simpl; [done|].
  destruct (isSpace c) eqn:Hc; simpl; [done|]. by rewrite Hc.
Qed.

(** A string trims to nothing exactly when it is white space only. *)
Lemma trim_empty s : trim s = "" ↔ allSpace s = true.
Proof. unfold trim. by rewrite trimEnd_empty, allSpace_trimStart. Qed.

Lemma allSpace_split s :
  allSpace s = true ↔ Forall (λ l, allSpace l = true) (split LF s).
Proof.
  induction s as [|c s IH]; simpl.
  - split; [by repeat constructor|done].
  - destruct (Ascii.eqb_spec c LF) as [->|Hne].
    + change (isSpace LF) with true. simpl. rewrite IH.
      split; [by constructor|]. by intros [_ ?]%Forall_cons.
    + destruct (split LF s) as [|w ws] eqn:Hs.
      * destruct s; simpl in Hs; [done|]. by destruct (Ascii.eqb _ _), (split LF s).
      * rewrite andb_true_iff, IH, !Forall_cons. simpl.
        rewrite andb_true_iff. tauto.
Qed.

(** Both tracks come out empty only when every line is blank. *)
Lemma parseLines_noClasses lines :
  allClasses (parseLines lines) = [] → Forall (λ l, allSpace l = true) lines.
Proof.
  remember (length lines) as n eqn:Hn. revert lines Hn.
  induction n as [n IH] using lt_wf_ind. intros lines -> Hnil.
  destruct lines as [|line [|d rest]]; [done|..].
  - constructor; [|done]. revert Hnil. cbn [parseLines]. unfold loneClasses.
    destruct (isEmpty (trim line)) eqn:He; [|done].
    intros _. apply trim_empty. by apply isEmpty_true.
  - destruct (isDetails d) eqn:Hd.
    + rewrite parseLines_pair in Hnil by done. exfalso. revert Hnil.
      unfold pairClasses, allClasses, appendClasses. simpl.
      by destruct (daysMatch d) as [[]|]; simpl; destruct (aDayClasses _).
    + rewrite parseLines_lone in Hnil by done.
      unfold loneClasses in Hnil.
      destruct (isEmpty (trim line)) eqn:He; [|done].
      constructor; [apply trim_empty; by apply isEmpty_true|].
      apply (IH (length (d :: rest))); [simpl; lia|done|].
      revert Hnil. unfold allClasses, appendClasses. simpl. done.
Qed.

(** X1.  [parsePeriodCell] returns no class at all, on either day,
    exactly for the cells that consist of white space only (the empty
    cell among them). *)
Theorem parsePeriodCell_blank cellValue :
  allClasses (parsePeriodCell cellValue) = [] ↔ allSpace cellValue = true.
Proof.
  split.
  - intros Hnil. destruct (isEmpty (trim cellValue)) eqn:He.
    + apply trim_empty. by apply isEmpty_true.
    + rewrite parsePeriodCell_lines in Hnil by done.
      by apply allSpace_split, parseLines_noClasses.
  - intros Hsp. unfold parsePeriodCell.
    apply trim_empty in Hsp. rewrite Hsp. simpl.
    by rewrite orb_true_r.
Qed.

Lemma split_no_sep sep s : Forall (λ l, hasChar sep l = false) (split sep s).
Proof.
  induction s as [|c s IH]; simpl; [by repeat constructor|].
  destruct (Ascii.eqb c sep) eqn:Hc; [by constructor|].
  destruct (split sep s) as [|w ws]; [by repeat constructor; simpl; rewrite Hc|].
  apply Forall_cons in IH as [Hw Hws].
  constructor; [|done]. simpl. by rewrite Hc, Hw.
Qed.

Lemma noSpace_nonSpaceRun s : noSpace (nonSpaceRun s) = true.
Proof.
  induction s as [|c s IH]; simpl; [done|].
  destruct (isSpace c) eqn:Hc; simpl; [done|]. by rewrite Hc.
Qed.

Lemma search_Some {A} (m : string → option A) s x :
  search m s = Some x → ∃ q, m q = Some x.
Proof.
  induction s as [|c s IH]; simpl.
  - destruct (m "") eqn:E; [|done]. intros [= <-]. eauto.
  - destruct (m (String c s)) eqn:E; [intros [= <-]; eauto|]. apply IH.
Qed.

(** The room read off a details line has no white space in it. *)
Lemma roomMatch_noSpace d : noSpace (default "" (roomMatch d)) = true.
Proof.
  destruct (roomMatch d) as [r|] eqn:Hr; [|done]. simpl.
  apply search_Some in Hr as [q Hq]. unfold roomAt in Hq.
  destruct (stripPrefix "Room:" q) as [rest|]; [|done].
  pose proof (noSpace_nonSpaceRun rest) as Hns.
  destruct (nonSpaceRun rest); [done|]. by injection Hq as <-.
Qed.

(** Every class the loop builds has the trimmed text of some line as its
    course, and the empty string or a match of the room pattern as its
    room. *)
Lemma parseLines_classes lines c :
  c ∈ allClasses (parseLines lines) →
  (∃ line, line ∈ lines ∧ course c = trim line) ∧ noSpace (room c) = true.
Proof.
  remember (length lines) as n eqn:Hn. revert lines Hn.
  induction n as [n IH] using lt_wf_ind. intros lines -> Hc.
  assert (Hlone : ∀ line, c ∈ allClasses (loneClasses line) →
            course c = trim line ∧ noSpace (room c) = true).
  { intros line. unfold loneClasses, allClasses.
    destruct (isEmpty (trim line)); simpl; [by intros ?%elem_of_nil|].
    intros [->|[->|?%elem_of_nil]%elem_of_cons]%elem_of_cons; done. }
  assert (Happ : ∀ x y, c ∈ allClasses (appendClasses x y) →
            c ∈ allClasses x ∨ c ∈ allClasses y).
  { intros x y. unfold allClasses, appendClasses. simpl.
    rewrite !elem_of_app. tauto. }
  destruct lines as [|line [|d rest]].
  - by apply elem_of_nil in Hc.
  - rewrite parseLines_lone in Hc by done.
    apply Happ in Hc as [Hc|Hc]; [|by apply elem_of_nil in Hc].
    destruct (Hlone _ Hc) as [? ?]. split; [|done]. exists line. split; [by left|done].
  - destruct (isDetails d) eqn:Hd.
    + rewrite parseLines_pair in Hc by done.
      apply Happ in Hc as [Hc|Hc].
      * assert (c = detailedClass line d) as ->.
        { revert Hc. unfold pairClasses, allClasses.
          destruct (daysMatch d) as [[]|]; simpl;
            intros [->|Hc]%elem_of_cons; try done;
            try (by apply elem_of_nil in Hc).
          apply elem_of_cons in Hc as [->|Hc]; [done|by apply elem_of_nil in Hc]. }
        split; [exists line; split; [by left|done]|apply roomMatch_noSpace].
      * destruct (IH (length rest)) with (lines := rest) as [(l & Hl & Hcl) Hr];
          [simpl; lia|done|done|].
        split; [|done]. exists l. split; [by do 2 right|done].
    + rewrite parseLines_lone in Hc by done.
      apply Happ in Hc as [Hc|Hc].
      * destruct (Hlone _ Hc) as [? ?]. split; [|done].
        exists line. split; [by left|done].
      * destruct (IH (length (d :: rest))) with (lines := d :: rest)
          as [(l & Hl & Hcl) Hr]; [simpl; lia|done|done|].
        split; [|done]. exists l. split; [by right|done].
Qed.

Lemma parsePeriodCell_classes cellValue c :
  c ∈ allClasses (parsePeriodCell cellValue) →
  trim (course c) = course c ∧ hasChar LF (course c) = false ∧
  noSpace (room c) = true.
Proof.
  intros Hc. destruct (isEmpty (trim cellValue)) eqn:He.
  - unfold parsePeriodCell in Hc. rewrite He, orb_true_r in Hc.
    by apply elem_of_nil in Hc.
  - rewrite parsePeriodCell_lines in Hc by done.
    apply parseLines_classes in Hc as [(line & Hline & ->) Hroom].
    split; [apply trim_idemp|]. split; [|done].
    apply hasChar_trim.
    pose proof (split_no_sep LF cellValue) as Hsep.
    rewrite Forall_forall in Hsep. by apply Hsep.
Qed.

(** X2.  Every class [parsePeriodCell] returns, on either day, has a
    course that is trimmed and holds no line feed, and a room without
    white space. *)
Theorem parsePeriodCell_class_shape cellValue c :
  c ∈ allClasses (parsePeriodCell cellValue) →
  trim (course c) = course c ∧ hasChar LF (course c) = false ∧
  noSpace (room c) = true.
Proof. apply parsePeriodCell_classes. Qed.

Lemma hasChar_app c a b : hasChar c (a +:+ b) = hasChar c a || hasChar c b.
Proof. induction a as [|x a IH]; simpl; [done|]. by rewrite IH, orb_assoc. Qed.

Lemma noSpace_hasChar c s : isSpace c = true → noSpace s = true → hasChar c s = false.
Proof.
  intros Hc. induction s as [|a s IH]; simpl; [done|].
  intros [Ha Hs]%andb_true_iff. rewrite (IH Hs), orb_false_r.
  destruct (Ascii.eqb_spec a c) as [->|]; [|done]. by rewrite Hc in Ha.
Qed.

Lemma isEmpty_app a b : isEmpty (a +:+ b) = isEmpty a && isEmpty b.
Proof. by destruct a. Qed.

(** The cell written for one day is never empty and stays on one line,
    when the first class of the day is shaped as the cell parser shapes
    it. *)
Lemma dayCell_one_line classes :
  (∀ c, c ∈ classes → hasChar LF (course c) = false ∧ noSpace (room c) = true) →
  isEmpty (dayCell classes) = false ∧ hasChar LF (dayCell classes) = false.
Proof.
  destruct classes as [|c rest]; [done|]. intros H.
  destruct (H c) as [Hcourse Hroom]; [by left|]. simpl.
  destruct (isEmpty (room c)) eqn:Er.
  - by destruct (isEmpty (course c)) eqn:Ec.
  - split.
    + rewrite !isEmpty_app. by rewrite andb_false_r.
    + rewrite hasChar_app, Hcourse. simpl.
      by rewrite hasChar_app, (noSpace_hasChar LF (room c)).
Qed.

Lemma periodCells_one_line nonTeachingSet cellValue cell :
  cell ∈ periodCells nonTeachingSet cellValue →
  isEmpty cell = false ∧ hasChar LF cell = false.
Proof.
  rewrite periodCells_cases.
  assert (Hday : ∀ classes,
            (∀ c, c ∈ classes → c ∈ allClasses (parsePeriodCell cellValue)) →
            isEmpty (dayCell classes) = false ∧ hasChar LF (dayCell classes) = false).
  { intros classes Hsub. apply dayCell_one_line. intros c Hc.
    destruct (parsePeriodCell_classes cellValue c (Hsub c Hc)) as (_ & ? & ?).
    done. }
  case_bool_decide.
  - by intros [->|[->|?%elem_of_nil]%elem_of_cons]%elem_of_cons.
  - intros [->|[->|?%elem_of_nil]%elem_of_cons]%elem_of_cons.
    + apply Hday. intros c Hc. unfold allClasses. apply elem_of_app. by left.
    + apply Hday. intros c Hc. unfold allClasses. apply elem_of_app. by right.
    + done.
Qed.

(** X3.  In every row the normaliser writes, each cell after the
    department and the teacher is non-empty and holds no line feed. *)
Theorem parseExcelSchedule_cells_one_line sheetData nonTeachingLabelsStr t cell :
  t ∈ teachers (parseExcelSchedule sheetData nonTeachingLabelsStr) →
  cell ∈ drop 2 (data t) →
  cell ≠ "" ∧ hasChar LF cell = false.
Proof.
  intros Ht Hcell.
  apply parseExcelSchedule_rows in Ht as (r & _ & _ & _ & Hdata).
  rewrite Hdata, outputRowOf_blocks in Hcell. cbn [drop app] in Hcell.
  apply elem_of_concat in Hcell as (block & Hcell & Hblock).
  apply list_elem_of_fmap in Hblock as (col & -> & _).
  apply periodCells_one_line in Hcell as [Hne Hlf].
  split; [|done]. by intros ->.
Qed.

(** ** The errors of the validator *)

Lemma filter_errors_teacherIssues seen t :
  filter (λ i, Is_true (isErrorIssue i)) (teacherIssues seen t)
  = if blankName t then [MissingName] else [].
Proof.
  unfold teacherIssues, blankName.
  by destruct (isEmpty (teacher t) || isEmpty (trim (teacher t)));
    destruct (setHas seen _); destruct (isAllPrep t).
Qed.

Lemma filter_errors_rowIssues seen ts :
  filter (λ i, Is_true (isErrorIssue i)) (rowIssues seen ts)
  = replicate (length (filter (λ t, Is_true (blankName t)) ts)) MissingName.
Proof.
  revert seen. induction ts as [|t ts IH]; intros seen; [done|].
  cbn [rowIssues]. rewrite filter_app, filter_errors_teacherIssues, IH.
  destruct (blankName t) eqn:E.
  - rewrite filter_cons_True by by apply Is_true_true. done.
  - rewrite filter_cons_False by by apply Is_true_false. done.
Qed.

Lemma filter_errors_typos (f : string → option string) (l : list string) :
  filter (λ i, Is_true (isErrorIssue i)) (omap (λ c, PossibleTypo c <$> f c) l) = [].
Proof.
  induction l as [|c l IH]; [done|]. csimpl.
  destruct (f c); csimpl; [|done]. rewrite filter_cons_False; [done|]. by intros [].
Qed.

(** X4.  The issues of severity [error] the validator returns are one
    missing-name issue for each row whose teacher name is empty or blank,
    and nothing else: duplicates, all-prep rows and typos are warnings. *)
Theorem validateSchedule_errors ts nonTeachingLabelsStr :
  filter (λ i, Is_true (isErrorIssue i)) (validateSchedule ts nonTeachingLabelsStr)
  = replicate (length (filter (λ t, Is_true (blankName t)) ts)) MissingName.
Proof.
  rewrite validateSchedule_shape, filter_app, filter_errors_rowIssues.
  by rewrite filter_errors_typos, app_nil_r.
Qed.

Lemma existsb_filter_nil {A} (P : A → bool) (l : list A) :
  filter (λ x, Is_true (P x)) l = [] → existsb P l = false.
Proof.
  induction l as [|x l IH]; [done|]. simpl. destruct (P x) eqn:E.
  - rewrite filter_cons_True by by apply Is_true_true. done.
  - rewrite filter_cons_False by by apply Is_true_false. done.
Qed.

Lemma filter_blankName_nil ts :
  (∀ t, t ∈ ts → teacher t ≠ "" ∧ trim (teacher t) = teacher t) →
  filter (λ t, Is_true (blankName t)) ts = [].
Proof.
  induction ts as [|t ts IH]; intros H; [done|].
  destruct (H t) as [Hne Htrim]; [by left|].
  rewrite filter_cons_False.
  - apply IH. intros t' Ht'. apply H. by right.
  - unfold blankName. rewrite Htrim. destruct (teacher t); [done|]. by intros [].
Qed.

(** X5.  [onParse] never disables the download: the issues the validator
    reports for the rows the normaliser produced hold no error, whatever
    the sheet and the labels. *)
Theorem onParse_no_errors sheetData nonTeachingLabels :
  hasErrors
    (validateSchedule (teachers (parseExcelSchedule sheetData nonTeachingLabels))
                      nonTeachingLabels) = false.
Proof.
  apply existsb_filter_nil.
  rewrite validateSchedule_shape, filter_app, filter_errors_rowIssues.
  rewrite filter_errors_typos, app_nil_r, filter_blankName_nil; [done|].
  intros t Ht.
  destruct (parseExcelSchedule_rows _ _ _ Ht) as (r & Hr & Hname & Hne & _).
  split; [by destruct (teacher t)|].
  rewrite Hname. unfold teacherNameOf.
  destruct sheetData; [done|]. apply resolveCell_trimmed.
Qed.

Lemma parsePeriodCell_class_shape_witness :
  trim (course sampleClass) = course sampleClass ∧
  hasChar LF (course sampleClass) = false ∧
  noSpace (room sampleClass) = true.
Proof.
  apply (parsePeriodCell_class_shape sampleCell sampleClass).
  vm_compute. apply list_elem_of_here.
Defined.

Lemma parseExcelSchedule_cells_one_line_witness :
  "Geometry (Room: 204)" ≠ "" ∧ hasChar LF "Geometry (Room: 204)" = false.
Proof.
  apply (parseExcelSchedule_cells_one_line [sampleRow] "Lunch" sampleTeacherRow).
  - vm_compute. apply list_elem_of_here.
  - vm_compute. apply list_elem_of_further, list_elem_of_here.
Defined.

(** ** Properties of the edit distance *)

Lemma substCost_sym a b i j : substCost a b i j = substCost b a j i.
Proof. unfold substCost. by repeat case_bool_decide. Qed.

Lemma editDistance_0_l a b j : editDistance a b 0 j = j.
Proof. done. Qed.

Lemma editDistance_sym a b i j : editDistance a b i j = editDistance b a j i.
Proof.
  revert j. induction i as [|i IHi]; intros j.
  - by rewrite editDistance_0_l, editDistance_0_r.
  - induction j as [|j IHj]; [by rewrite editDistance_0_l, editDistance_0_r|].
    rewrite !editDistance_S, IHj, !IHi, substCost_sym. lia.
Qed.

Lemma substCost_le a b i j : substCost a b i j ≤ 1.
Proof. unfold substCost. case_bool_decide; lia. Qed.

Lemma editDistance_bounds a b i j :
  i - j ≤ editDistance a b i j ∧ j - i ≤ editDistance a b i j ∧
  editDistance a b i j ≤ Nat.max i j.
Proof.
  revert j. induction i as [|i IHi]; intros j.
  - rewrite editDistance_0_l. lia.
  - induction j as [|j IHj]; [rewrite editDistance_0_r; lia|].
    rewrite editDistance_S.
    pose proof (IHi (S j)). pose proof (IHi j).
    pose proof (substCost_le a b (S i) (S j)). lia.
Qed.

(** The distance of two prefixes is zero exactly when they are the same
    prefix. *)
Lemma editDistance_zero a b i j :
  editDistance a b i j = 0 ↔
  i = j ∧ ∀ k, k < i → String.get k a = String.get k b.
Proof.
  revert j. induction i as [|i IHi]; intros j.
  - rewrite editDistance_0_l. split; [intros ->; split; [done|lia]|by intros [<- _]].
  - destruct j as [|j]; [rewrite editDistance_0_r; split; [done|by intros [? _]]|].
    rewrite editDistance_S. split.
    + intros H.
      assert (editDistance a b i j = 0 ∧ substCost a b (S i) (S j) = 0) as [Hd Hs] by lia.
      apply IHi in Hd as [-> Hk]. split; [done|].
      intros k Hlt. destruct (decide (k = j)) as [->|]; [|apply Hk; lia].
      unfold substCost in Hs. case_bool_decide as Hg; [|done].
      by rewrite !Nat.sub_succ, !Nat.sub_0_r in Hg.
    + intros [[= ->] Hk].
      assert (editDistance a b j j = 0) as -> by (apply IHi; split; [done|]; intros; apply Hk; lia).
      unfold substCost. rewrite bool_decide_true; [lia|].
      rewrite !Nat.sub_succ, !Nat.sub_0_r. apply Hk. lia.
Qed.

Lemma get_beyond s k : String.length s ≤ k → String.get k s = None.
Proof.
  revert k. induction s as [|c s IH]; intros k; [by destruct k|].
  destruct k as [|k]; simpl; [lia|]. intros ?. apply IH. lia.
Qed.

(** X6.  [levenshteinDistance] is zero exactly for equal strings. *)
Theorem levenshteinDistance_zero a b : levenshteinDistance a b = 0 ↔ a = b.
Proof.
  rewrite levenshteinDistance_editDistance, editDistance_zero. split.
  - intros [Hlen Hk]. apply String.get_correct. intros k.
    destruct (decide (k < String.length a)) as [?|?]; [by apply Hk|].
    rewrite !get_beyond; [done|lia..].
  - by intros ->.
Qed.

(** X7.  [levenshteinDistance] is symmetric. *)
Theorem levenshteinDistance_sym a b : levenshteinDistance a b = levenshteinDistance b a.
Proof. rewrite !levenshteinDistance_editDistance. apply editDistance_sym. Qed.

(** X8.  [levenshteinDistance] lies between the difference of the two
    lengths and the greater of them. *)
Theorem levenshteinDistance_bounds a b :
  String.length a - String.length b ≤ levenshteinDistance a b ∧
  String.length b - String.length a ≤ levenshteinDistance a b ∧
  levenshteinDistance a b ≤ Nat.max (String.length a) (String.length b).
Proof. rewrite levenshteinDistance_editDistance. apply editDistance_bounds. Qed.

(** ** The CSV file: from [generateCsv] to [parseCSV] *)

Lemma scanCSV_length line result current inQuotes :
  length result < length (scanCSV line result current inQuotes).
Proof.
  remember (String.length line) as n eqn:Hn.
  revert line Hn result current inQuotes.
  induction n as [n IH] using lt_wf_ind. intros line -> result current inQuotes.
  destruct line as [|ch rest]; simpl; [rewrite length_app; simpl; lia|].
  destruct inQuotes.
  - destruct (Ascii.eqb ch DQ).
    + destruct rest as [|next rest']; [simpl; rewrite length_app; simpl; lia|].
      destruct (Ascii.eqb next DQ); eapply IH; try done; simpl; lia.
    + eapply IH; try done; simpl; lia.
  - destruct (Ascii.eqb ch DQ); [eapply IH; try done; simpl; lia|].
    destruct (Ascii.eqb ch ",").
    + etrans; [|eapply IH; try done; simpl; lia]. rewrite length_app. simpl. lia.
    + eapply IH; try done; simpl; lia.
Qed.

Lemma parseCSV_rows_fold headers (others : list string) (rows0 : list (gmap string string)) :
  foldl (λ rows line,
           let values := parseCSVLine line in
           if 0 <? length values then rows ++ [Roster.rowOf headers values]
           else rows)
        rows0 others
  = rows0 ++ ((λ line, Roster.rowOf headers (parseCSVLine line)) <$> others).
Proof.
  revert rows0. induction others as [|line others IH]; intros rows0; csimpl.
  - by rewrite app_nil_r.
  - rewrite IH.
    pose proof (scanCSV_length line [] "" false) as Hlen. fold (parseCSVLine line) in Hlen.
    destruct (Nat.ltb_spec 0 (length (parseCSVLine line))) as [_|Hle]; [|simpl in Hlen; lia].
    by rewrite <- app_assoc.
Qed.

Lemma fillRow_dom row headersLeft values j :
  dom (Roster.fillRow row headersLeft values j)
  = dom row ∪ list_to_set (filter (λ h, h ≠ "__proto__") headersLeft).
Proof.
  revert row j. induction headersLeft as [|h rest IH]; intros row j; simpl.
  - by rewrite (right_id_L ∅ (∪)).
  - rewrite IH. unfold objectSet.
    destruct (String.eqb_spec h "__proto__") as [->|Hne].
    + by rewrite filter_cons_False by (by intros []).
    + rewrite filter_cons_True by done. rewrite dom_insert_L. cbn [list_to_set].
      by rewrite (comm_L (∪) {[h]}), <- (assoc_L (∪)).
Qed.

(** X9.  [parseCSV] takes the first non-blank line as the header line and
    makes one row of every other non-blank line (the test on the number of
    values never fails); the keys of each row are exactly the headers
    other than [__proto__], under which an object keeps no string. *)
Theorem parseCSV_rows text :
  let lines := filter (λ line, Is_true (Roster.notBlank line)) (splitLines text) in
  let res := Roster.parseCSV text in
  Roster.headers res = default [] (parseCSVLine <$> head lines) ∧
  length (Roster.rows res) = length lines - 1 ∧
  ∀ row, row ∈ Roster.rows res →
         dom row = list_to_set (filter (λ h, h ≠ "__proto__") (Roster.headers res)).
Proof.
  cbv zeta. unfold Roster.parseCSV.
  destruct (filter _ (splitLines text)) as [|first others]; cbn [Roster.headers Roster.rows].
  - split; [done|]. split; [done|]. by intros row ?%elem_of_nil.
  - rewrite parseCSV_rows_fold, app_nil_l. split; [done|]. split.
    + rewrite length_fmap. simpl. lia.
    + intros row (line & -> & _)%list_elem_of_fmap. unfold Roster.rowOf.
      rewrite fillRow_dom, dom_empty_L. by rewrite (left_id_L ∅ (∪)).
Qed.

Lemma endsWithCR_cons c s : s ≠ "" → endsWithCR (String c s) = endsWithCR s.
Proof. by destruct s. Qed.

Lemma splitLines_last l : hasChar LF l = false → splitLines l = [l].
Proof.
  induction l as [|c l IH]; [done|]. simpl.
  intros [Hc Hl]%orb_false_iff. rewrite Hc, (IH Hl).
  destruct l as [|d l]; [by rewrite andb_false_r|].
  simpl in Hl. apply orb_false_iff in Hl as [Hd _].
  simpl. by rewrite Hd, andb_false_r.
Qed.

Lemma splitLines_line l rest :
  hasChar LF l = false → endsWithCR l = false →
  splitLines (l +:+ lf +:+ rest) = l :: splitLines rest.
Proof.
  induction l as [|c l IH]; [done|].
  intros Hlf Hcr. simpl in Hlf. apply orb_false_iff in Hlf as [Hc Hl].
  change (String c l +:+ lf +:+ rest) with (String c (l +:+ lf +:+ rest)).
  cbn [splitLines]. rewrite Hc.
  destruct l as [|d l].
  - simpl in Hcr. rewrite Hcr. done.
  - rewrite endsWithCR_cons in Hcr by done.
    rewrite (IH Hl Hcr).
    simpl in Hl. apply orb_false_iff in Hl as [Hd _].
    simpl. by rewrite Hd, andb_false_r.
Qed.

Lemma splitLines_join lines :
  lines ≠ [] →
  Forall (λ l, hasChar LF l = false ∧ endsWithCR l = false) lines →
  splitLines (join lf lines) = lines.
Proof.
  induction lines as [|l [|l' lines] IH]; intros Hne Hall; [done|..].
  - apply Forall_cons in Hall as [[Hl _] _]. simpl. by apply splitLines_last.
  - apply Forall_cons in Hall as [[Hl Hcr] Hall].
    change (join lf (l :: l' :: lines)) with (l +:+ lf +:+ join lf (l' :: lines)).
    rewrite splitLines_line by done. by rewrite IH.
Qed.

Lemma hasChar_doubleQuotes c str :
  hasChar c (doubleQuotes str) = hasChar c str.
Proof.
  induction str as [|a str IH]; [done|]. cbn [doubleQuotes hasChar].
  destruct (Ascii.eqb a DQ) eqn:E; cbn [hasChar]; rewrite IH; [|done].
  apply Ascii.eqb_eq in E as ->. by destruct (Ascii.eqb DQ c).
Qed.

Lemma hasChar_escapeCsv str : hasChar LF (escapeCsv str) = hasChar LF str.
Proof.
  unfold escapeCsv. destruct (needsQuoting str); [|done].
  rewrite !hasChar_app, hasChar_doubleQuotes. simpl. by rewrite orb_false_r.
Qed.

Lemma hasChar_csvLine fields :
  forallb (λ f, negb (hasChar LF f)) fields = true → hasChar LF (csvLine fields) = false.
Proof.
  unfold csvLine. induction fields as [|f [|g fields] IH]; [done|..].
  - simpl. rewrite andb_true_r, hasChar_escapeCsv. by intros ->%negb_true_iff.
  - intros [Hf Hrest]%andb_true_iff. apply negb_true_iff in Hf.
    rewrite !fmap_cons.
    change (join "," (escapeCsv f :: escapeCsv g :: (escapeCsv <$> fields)))
      with (escapeCsv f +:+ "," +:+ join "," (escapeCsv <$> g :: fields)).
    rewrite !hasChar_app, hasChar_escapeCsv, Hf, (IH Hrest). done.
Qed.

Lemma endsWithCR_app a b : b ≠ "" → endsWithCR (a +:+ b) = endsWithCR b.
Proof.
  intros Hb. induction a as [|c a IH]; [done|].
  change (String c a +:+ b) with (String c (a +:+ b)).
  rewrite endsWithCR_cons; [done|]. by destruct a, b.
Qed.

Lemma endsWithCR_escapeCsv str : endsWithCR str = false → endsWithCR (escapeCsv str) = false.
Proof.
  intros H. unfold escapeCsv. destruct (needsQuoting str); [|done].
  rewrite endsWithCR_app by (by destruct (doubleQuotes str)).
  by rewrite endsWithCR_app.
Qed.

Lemma endsWithCR_csvLine fields :
  endsWithCR (default "" (last fields)) = false → endsWithCR (csvLine fields) = false.
Proof.
  unfold csvLine. induction fields as [|f [|g fields] IH]; [done|..].
  - apply endsWithCR_escapeCsv.
  - intros H. rewrite !fmap_cons.
    change (join "," (escapeCsv f :: escapeCsv g :: (escapeCsv <$> fields)))
      with (escapeCsv f +:+ "," +:+ join "," (escapeCsv <$> g :: fields)).
    destruct (decide (join "," (escapeCsv <$> g :: fields) = "")) as [Hj|Hj].
    + rewrite Hj. by rewrite endsWithCR_app.
    + rewrite endsWithCR_app by (by destruct (join _ _)).
      rewrite endsWithCR_app by done. by apply IH.
Qed.

Lemma notBlank_hasChar c s :
  isSpace c = false → hasChar c s = true → Roster.notBlank s = true.
Proof.
  intros Hc Hs. unfold Roster.notBlank.
  destruct (trim s) eqn:Ht; [|done].
  apply trim_empty in Ht. exfalso.
  induction s as [|a s IH]; [done|]. simpl in *.
  apply andb_true_iff in Ht as [Ha Hrest].
  apply orb_true_iff in Hs as [->%Ascii.eqb_eq|Hs]; [congruence|by apply IH].
Qed.

Lemma notBlank_csvLine fields : 2 ≤ length fields → Roster.notBlank (csvLine fields) = true.
Proof.
  destruct fields as [|f [|g fields]]; simpl; [lia..|]. intros _.
  apply (notBlank_hasChar ","); [done|]. unfold csvLine. rewrite !fmap_cons.
  change (join "," (escapeCsv f :: escapeCsv g :: (escapeCsv <$> fields)))
    with (escapeCsv f +:+ "," +:+ join "," (escapeCsv <$> g :: fields)).
  rewrite !hasChar_app. simpl. by rewrite orb_true_r.
Qed.

Lemma generateCsv_lines headers teachers :
  generateCsv headers teachers = join lf (csvLine <$> headers :: (data <$> teachers)).
Proof.
  unfold generateCsv. cbv zeta. f_equal.
  rewrite (foldl_push (λ t, [join "," (escapeCsv <$> data t)])).
  rewrite fmap_cons. f_equal.
  induction teachers as [|t ts IH]; [done|]. csimpl. by rewrite IH.
Qed.

Lemma csvRowOk_cases fields :
  csvRowOk fields = true →
  2 ≤ length fields ∧ forallb (λ f, negb (hasChar LF f)) fields = true ∧
  endsWithCR (default "" (last fields)) = false.
Proof.
  unfold csvRowOk. intros [[H1 H2]%andb_true_iff H3]%andb_true_iff.
  apply Nat.leb_le in H1. by apply negb_true_iff in H3.
Qed.

(** The lines [parseCSV] reads in the text [generateCsv] wrote are the
    lines of the rows. *)
Lemma parseCSV_lines (table : list (list string)) :
  table ≠ [] → Forall (λ fields, csvRowOk fields = true) table →
  filter (λ line, Is_true (Roster.notBlank line)) (splitLines (join lf (csvLine <$> table)))
  = csvLine <$> table.
Proof.
  intros Hne Hok. rewrite splitLines_join.
  - induction Hok as [|fields table Hf _ IH]; [done|]. csimpl.
    apply csvRowOk_cases in Hf as (Hlen & _ & _).
    rewrite filter_cons_True by by apply Is_true_true, notBlank_csvLine.
    f_equal. destruct table; [done|]. by apply IH.
  - by destruct table.
  - apply Forall_fmap. eapply Forall_impl; [done|]. intros fields Hf. simpl.
    apply csvRowOk_cases in Hf as (_ & Hlf & Hcr).
    split; [by apply hasChar_csvLine|by apply endsWithCR_csvLine].
Qed.

Lemma parseCSV_generateCsv_rows headers teachers :
  csvRowOk headers = true →
  Forall (λ t, csvRowOk (data t) = true) teachers →
  Roster.parseCSV (generateCsv headers teachers)
  = {| Roster.headers := headers;
       Roster.rows := (λ t, Roster.rowOf headers (data t)) <$> teachers |}.
Proof.
  intros Hh Ht. unfold Roster.parseCSV.
  rewrite generateCsv_lines, parseCSV_lines; [|done|].
  - rewrite fmap_cons. cbv zeta.
    pose proof (csvRowOk_cases _ Hh) as (Hlen & _ & _).
    unfold csvLine at 1 2. rewrite parseCSVLine_row by (by destruct headers).
    f_equal. rewrite parseCSV_rows_fold, app_nil_l.
    induction Ht as [|t ts Hok _ IH]; [done|]. csimpl. rewrite IH. f_equal.
    apply csvRowOk_cases in Hok as (Hl & _ & _).
    unfold csvLine. rewrite parseCSVLine_row; [done|].
    intros E. rewrite E in Hl. simpl in Hl. lia.
  - constructor; [done|]. by apply Forall_fmap.
Qed.

Lemma fillRow_lookup_notin row headersLeft values j k :
  k ∉ headersLeft → Roster.fillRow row headersLeft values j !! k = row !! k.
Proof.
  revert row j. induction headersLeft as [|h rest IH]; intros row j Hk; [done|].
  simpl. apply not_elem_of_cons in Hk as [Hne Hk].
  rewrite IH by done. unfold objectSet.
  destruct (String.eqb h "__proto__"); [done|]. by rewrite lookup_insert_ne.
Qed.

(** The last assignment to a key is the one the row keeps. *)
Lemma fillRow_lookup row headersLeft values j i k :
  headersLeft !! i = Some k → k ≠ "__proto__" → k ∉ drop (S i) headersLeft →
  Roster.fillRow row headersLeft values j !! k
  = Some (trim (default "" (values !! (j + i)))).
Proof.
  revert row j i. induction headersLeft as [|h rest IH]; intros row j i Hi Hp Hk; [done|].
  destruct i as [|i]; simpl in *.
  - injection Hi as ->. rewrite drop_0 in Hk.
    rewrite fillRow_lookup_notin by done. unfold objectSet.
    destruct (String.eqb_spec k "__proto__"); [done|].
    by rewrite lookup_insert_eq, Nat.add_0_r.
  - rewrite (IH _ _ i) by done. do 4 f_equal. lia.
Qed.

(** A row keeps nothing under [__proto__]. *)
Lemma fillRow_proto row headersLeft values j :
  Roster.fillRow row headersLeft values j !! "__proto__" = row !! "__proto__".
Proof.
  revert row j. induction headersLeft as [|h rest IH]; intros row j; [done|].
  simpl. rewrite IH. unfold objectSet.
  destruct (String.eqb_spec h "__proto__") as [->|Hne]; [done|].
  by rewrite lookup_insert_ne.
Qed.

(** X10.  The round trip of the file: [parseCSV] reads the text
    [generateCsv] wrote back as the headers and one row for each teacher,
    when every row written has at least two fields, no line feed in a
    field and no carriage return at the end of its last field.  The row of
    a teacher holds, under each header other than [__proto__], the trimmed
    field of the teacher at the last position of that header, and nothing
    under [__proto__]. *)
Theorem parseCSV_generateCsv headers teachers :
  csvRowOk headers = true →
  Forall (λ t, csvRowOk (data t) = true) teachers →
  Roster.parseCSV (generateCsv headers teachers)
  = {| Roster.headers := headers;
       Roster.rows := (λ t, Roster.rowOf headers (data t)) <$> teachers |} ∧
  (∀ t j h, headers !! j = Some h → h ≠ "__proto__" → h ∉ drop (S j) headers →
            Roster.rowOf headers (data t) !! h = Some (trim (default "" (data t !! j)))) ∧
  (∀ t, Roster.rowOf headers (data t) !! "__proto__" = None).
Proof.
  intros Hh Ht. split; [by apply parseCSV_generateCsv_rows|]. split.
  - intros t j h Hj Hp Hlast. unfold Roster.rowOf.
    by rewrite (fillRow_lookup _ _ _ 0 j h).
  - intros t. unfold Roster.rowOf. by rewrite fillRow_proto.
Qed.

Lemma parseCSV_generateCsv_witness :
  let headers := ["Department"; "Teacher"; "P1 A Day"; "P1 B Day"] in
  Roster.parseCSV (generateCsv headers [lunchRow])
  = {| Roster.headers := headers;
       Roster.rows := [Roster.rowOf headers (data lunchRow)] |} ∧
  (∀ t j h, headers !! j = Some h → h ≠ "__proto__" → h ∉ drop (S j) headers →
            Roster.rowOf headers (data t) !! h = Some (trim (default "" (data t !! j)))) ∧
  (∀ t, Roster.rowOf headers (data t) !! "__proto__" = None).
Proof.
  apply (parseCSV_generateCsv ["Department"; "Teacher"; "P1 A Day"; "P1 B Day"] [lunchRow]).
  - reflexivity.
  - constructor; [reflexivity|constructor].
Defined.

(** X12.  A row of fields written as one line, each field through
    [escapeCsv] and commas between them, is read back by [parseCSVLine]
    as the same fields, whatever characters the fields hold. *)
Theorem parseCSVLine_csvLine fields :
  fields ≠ [] → parseCSVLine (csvLine fields) = fields.
Proof. apply parseCSVLine_row. Qed.

Lemma parseCSVLine_csvLine_witness :
  parseCSVLine (csvLine ["Lee, Anna"; sampleField; lf]) = ["Lee, Anna"; sampleField; lf].
Proof. apply (parseCSVLine_csvLine ["Lee, Anna"; sampleField; lf]). discriminate. Defined.

(** ** From the normaliser to the roster *)

Lemma foldl_addRosterRow st rows :
  (foldl Roster.addRosterRow st rows).1
  = st.1 ++
    omap (λ row : gmap string string,
            let name := trim (default "" (row !! "Teacher")) in
            let dept := trim (default "" (row !! "Department")) in
            if isEmpty name then None else Some (name, Roster.orGeneral dept))
         rows.
Proof.
  revert st. induction rows as [|row rows IH]; intros [ts m]; csimpl.
  - by rewrite app_nil_r.
  - rewrite IH. unfold Roster.addRosterRow.
    destruct (isEmpty (trim (default "" (row !! "Teacher")))); [done|].
    simpl. by rewrite <- app_assoc.
Qed.

Lemma parseTeacherRoster_teachers csvText :
  Roster.teachers (Roster.parseTeacherRoster csvText)
  = (foldl Roster.addRosterRow ([], ∅) (Roster.rows (Roster.parseCSV csvText))).1 ∧
  Roster.teacherCount (Roster.parseTeacherRoster csvText)
  = length (Roster.teachers (Roster.parseTeacherRoster csvText)).
Proof.
  unfold Roster.parseTeacherRoster.
  by destruct (foldl Roster.addRosterRow _ _) as [ts m].
Qed.

Lemma lastChar_cons c s : s ≠ "" → lastChar (String c s) = lastChar s.
Proof. by destruct s. Qed.

Lemma lastChar_app a b : b ≠ "" → lastChar (a +:+ b) = lastChar b.
Proof.
  intros Hb. induction a as [|c a IH]; [done|].
  change (String c a +:+ b) with (String c (a +:+ b)).
  rewrite lastChar_cons; [done|]. by destruct a, b.
Qed.

Lemma endsWithCR_lastChar s : endsWithCR s = true ↔ lastChar s = Some CR.
Proof.
  induction s as [|c s IH]; [done|]. destruct s as [|d s].
  - simpl. rewrite Ascii.eqb_eq. split; [by intros ->|by intros [= ->]].
  - by rewrite endsWithCR_cons, lastChar_cons.
Qed.

Lemma endsWithCR_trimEnd s : endsWithCR (trimEnd s) = false.
Proof.
  induction s as [|c s IH]; [done|]. simpl.
  destruct (isSpace c && isEmpty (trimEnd s)) eqn:E; [done|].
  destruct (trimEnd s) as [|d t] eqn:Et.
  - simpl. rewrite andb_true_r in E.
    destruct (Ascii.eqb_spec c CR) as [->|]; [done|done].
  - by rewrite endsWithCR_cons.
Qed.

Lemma endsWithCR_trimmed s : trim s = s → endsWithCR s = false.
Proof. intros <-. apply endsWithCR_trimEnd. Qed.

Lemma dayCell_no_CR classes :
  (∀ c, c ∈ classes → trim (course c) = course c) →
  endsWithCR (dayCell classes) = false.
Proof.
  destruct classes as [|c rest]; [done|]. intros H.
  specialize (H c (list_elem_of_here _ _)). cbn [dayCell].
  destruct (isEmpty (room c)).
  - destruct (isEmpty (course c)); [done|]. by apply endsWithCR_trimmed.
  - rewrite endsWithCR_app by done.
    rewrite endsWithCR_app by (by destruct (room c)).
    by rewrite endsWithCR_app.
Qed.

Lemma periodCells_no_CR nonTeachingSet cellValue cell :
  cell ∈ periodCells nonTeachingSet cellValue → endsWithCR cell = false.
Proof.
  rewrite periodCells_cases.
  assert (Hday : ∀ classes,
            (∀ c, c ∈ classes → c ∈ allClasses (parsePeriodCell cellValue)) →
            endsWithCR (dayCell classes) = false).
  { intros classes Hsub. apply dayCell_no_CR. intros c Hc.
    by destruct (parsePeriodCell_classes cellValue c (Hsub c Hc)) as (? & _ & _). }
  case_bool_decide.
  - by intros [->|[->|?%elem_of_nil]%elem_of_cons]%elem_of_cons.
  - intros [->|[->|?%elem_of_nil]%elem_of_cons]%elem_of_cons.
    + apply Hday. intros c Hc. unfold allClasses. apply elem_of_app. by left.
    + apply Hday. intros c Hc. unfold allClasses. apply elem_of_app. by right.
    + done.
Qed.

(** What the normaliser puts in a teacher row. *)
Lemma parseExcelSchedule_row sheetData nonTeachingLabelsStr t :
  let res := parseExcelSchedule sheetData nonTeachingLabelsStr in
  t ∈ teachers res →
  isEmpty (teacher t) = false ∧ trim (teacher t) = teacher t ∧
  trim (dept t) = dept t ∧
  ∃ r, data t = [dept t; teacher t] ++
         concat ((λ col, periodCells (nonTeachingSetOf nonTeachingLabelsStr) (cellText r col))
                   <$> periodCols res).
Proof.
  destruct sheetData as [|first rest]; cbv zeta; [by intros ?%elem_of_nil|].
  unfold parseExcelSchedule. cbn [teachers periodCols].
  rewrite foldl_addTeacher, app_nil_l.
  intros (r & _ & Ht)%list_elem_of_omap. cbv zeta in Ht.
  destruct (isEmpty (resolveCell _ r)) eqn:E in Ht; [done|]. injection Ht as <-.
  cbn [teacher dept data]. split; [done|].
  split; [apply resolveCell_trimmed|]. split; [apply resolveCell_trimmed|].
  exists r. apply outputRowOf_blocks.
Qed.

Lemma parseExcelSchedule_headers sheetData nonTeachingLabelsStr :
  let res := parseExcelSchedule sheetData nonTeachingLabelsStr in
  headers res
  = ["Department"; "Teacher"] ++
    concat ((λ col, [col +:+ " A Day"; col +:+ " B Day"]) <$> periodCols res).
Proof.
  destruct sheetData as [|first rest]; cbv zeta; [done|].
  unfold parseExcelSchedule. cbn [headers periodCols]. apply outputHeadersOf_blocks.
Qed.

Lemma last_no_CR (fields : list string) :
  Forall (λ f, endsWithCR f = false) fields →
  endsWithCR (default "" (last fields)) = false.
Proof.
  intros H. destruct (last fields) as [f|] eqn:E; [|done]. simpl.
  apply last_Some in E as [l ->].
  apply Forall_app in H as [_ H]. by apply Forall_cons in H as [? _].
Qed.

Lemma csvRowOk_intro (fields : list string) :
  2 ≤ length fields →
  Forall (λ f, hasChar LF f = false ∧ endsWithCR f = false) fields →
  csvRowOk fields = true.
Proof.
  intros Hlen Hall. unfold csvRowOk.
  rewrite (proj2 (Nat.leb_le _ _) Hlen). simpl.
  rewrite last_no_CR by (eapply Forall_impl; [done|]; by intros f [_ ?]).
  rewrite andb_true_r. apply forallb_forall. intros f Hf%list_elem_of_In.
  rewrite Forall_forall in Hall. by destruct (Hall f Hf) as [-> _].
Qed.

Lemma Forall_concat_fmap {A B} (P : A → Prop) (f : B → list A) (l : list B) :
  (∀ y x, y ∈ l → x ∈ f y → P x) → Forall P (concat (f <$> l)).
Proof.
  intros H. apply Forall_forall. intros x (block & Hx & Hb)%elem_of_concat.
  apply list_elem_of_fmap in Hb as (y & -> & Hy). eauto.
Qed.

Lemma day_header_ne col suffix name :
  suffix ≠ "" → ¬ (lastChar suffix = lastChar name) → ¬ (col +:+ suffix = name).
Proof. intros Hs Hl <-. by rewrite lastChar_app in Hl. Qed.

Lemma headers_ok sheetData nonTeachingLabelsStr :
  let res := parseExcelSchedule sheetData nonTeachingLabelsStr in
  (∀ col, col ∈ periodCols res → hasChar LF col = false) →
  csvRowOk (headers res) = true ∧
  "Department" ∉ drop 1 (headers res) ∧ "Teacher" ∉ drop 2 (headers res).
Proof.
  cbv zeta. intros Hcols. rewrite parseExcelSchedule_headers. cbn [drop app].
  set (day := concat _).
  assert (Hday : Forall (λ h, (hasChar LF h = false ∧ endsWithCR h = false) ∧
                              h ≠ "Department" ∧ h ≠ "Teacher") day).
  { apply Forall_concat_fmap. intros col h Hcol Hh. specialize (Hcols col Hcol).
    apply elem_of_cons in Hh as [->|Hh];
      [|apply elem_of_cons in Hh as [->|Hh]; [|by apply elem_of_nil in Hh]].
    - split; [split|split].
      + by rewrite hasChar_app, Hcols.
      + by rewrite endsWithCR_app.
      + by apply day_header_ne.
      + by apply day_header_ne.
    - split; [split|split].
      + by rewrite hasChar_app, Hcols.
      + by rewrite endsWithCR_app.
      + by apply day_header_ne.
      + by apply day_header_ne. }
  split; [|split].
  - apply csvRowOk_intro; [simpl; lia|].
    repeat (constructor; [done|]).
    eapply Forall_impl; [done|]. by intros h [? _].
  - intros [?|Hin]%elem_of_cons; [done|].
    rewrite Forall_forall in Hday. by destruct (Hday _ Hin) as (_ & ? & _).
  - intros Hin. rewrite Forall_forall in Hday. by destruct (Hday _ Hin) as (_ & _ & ?).
Qed.

(** X11.  The roster the absence-report generator reads from the file
    the master-schedule parser wrote: one teacher for each row of the
    normaliser, in order, with the name of the row and its department,
    [General] standing for an empty department and for [nan]; this when
    no period column name, teacher name or department holds a line
    feed. *)
Theorem parseTeacherRoster_generateCsv sheetData nonTeachingLabelsStr :
  let res := parseExcelSchedule sheetData nonTeachingLabelsStr in
  let roster := Roster.parseTeacherRoster (generateCsv (headers res) (teachers res)) in
  (∀ col, col ∈ periodCols res → hasChar LF col = false) →
  (∀ t, t ∈ teachers res → hasChar LF (teacher t) = false ∧ hasChar LF (dept t) = false) →
  Roster.teachers roster
  = (λ t, (teacher t, Roster.orGeneral (dept t))) <$> teachers res ∧
  Roster.teacherCount roster = length (teachers res).
Proof.
  cbv zeta. intros Hcols Hnames.
  destruct (headers_ok sheetData nonTeachingLabelsStr Hcols) as (Hh & Hdept & Hteacher).
  pose proof (parseExcelSchedule_headers sheetData nonTeachingLabelsStr) as Hheaders.
  cbv zeta in Hheaders.
  set (res := parseExcelSchedule sheetData nonTeachingLabelsStr) in *.
  assert (Hrows : Forall (λ t, csvRowOk (data t) = true) (teachers res)).
  { apply Forall_forall. intros t Ht.
    destruct (parseExcelSchedule_row _ _ _ Ht) as (_ & Htn & Htd & r & ->).
    destruct (Hnames t Ht) as [Hn Hd].
    apply csvRowOk_intro; [simpl; lia|].
    constructor; [by split; [|apply endsWithCR_trimmed]|].
    constructor; [by split; [|apply endsWithCR_trimmed]|].
    apply Forall_concat_fmap. intros col cell _ Hcell. split.
    - by destruct (periodCells_one_line _ _ _ Hcell).
    - by apply periodCells_no_CR in Hcell. }
  destruct (parseTeacherRoster_teachers (generateCsv (headers res) (teachers res)))
    as [Hts Hcount].
  assert (Roster.teachers
            (Roster.parseTeacherRoster (generateCsv (headers res) (teachers res)))
          = (λ t, (teacher t, Roster.orGeneral (dept t))) <$> teachers res) as Heq.
  { rewrite Hts, parseCSV_generateCsv_rows by done. cbn [Roster.rows].
    rewrite foldl_addRosterRow, app_nil_l.
    clear Hts Hcount Hrows Hnames.
    assert (Hsub : ∀ ts : list teacherRow, (∀ t, t ∈ ts → t ∈ teachers res) →
              omap (λ row : gmap string string,
                      let name := trim (default "" (row !! "Teacher")) in
                      let dept := trim (default "" (row !! "Department")) in
                      if isEmpty name then None
                      else Some (name, Roster.orGeneral dept))
                   ((λ t, Roster.rowOf (headers res) (data t)) <$> ts)
              = (λ t, (teacher t, Roster.orGeneral (dept t))) <$> ts);
      [|by apply Hsub].
    induction ts as [|t ts IH]; intros Hall; [done|]. csimpl.
    destruct (parseExcelSchedule_row _ _ _ (Hall t (list_elem_of_here _ _)))
      as (Hne & Htn & Htd & r & Hdata).
    unfold Roster.rowOf.
    rewrite (fillRow_lookup _ _ _ 0 1 "Teacher"); [|by rewrite Hheaders|done|done].
    rewrite (fillRow_lookup _ _ _ 0 0 "Department"); [|by rewrite Hheaders|done|done].
    rewrite Hdata. cbn [lookup list_lookup app Nat.add from_option]. unfold id.
    rewrite !trim_idemp, Htn, Htd, Hne. csimpl.
    rewrite <- IH; [done|]. intros t' Ht'. apply Hall. by right. }
  split; [done|]. by rewrite Hcount, Heq, length_fmap.
Qed.

Lemma parseTeacherRoster_generateCsv_witness :
  let res := parseExcelSchedule [sampleRow] "Lunch" in
  let roster := Roster.parseTeacherRoster (generateCsv (headers res) (teachers res)) in
  Roster.teachers roster = [("Lee, Anna", "Math")] ∧ Roster.teacherCount roster = 1.
Proof.
  apply (parseTeacherRoster_generateCsv [sampleRow] "Lunch").
  - intros col Hcol. vm_compute in Hcol.
    apply list_elem_of_singleton in Hcol. rewrite Hcol. reflexivity.
  - intros t Ht. vm_compute in Ht.
    apply list_elem_of_singleton in Ht. rewrite Ht. split; reflexivity.
Defined.

(** ** The seed hash *)

Lemma toInt32_range x : (- 2 ^ 31 ≤ toInt32 x < 2 ^ 31)%Z.
Proof. unfold toInt32. pose proof (Z.mod_pos_bound (x + 2 ^ 31) (2 ^ 32)). lia. Qed.

Lemma toInt32_wrap x : ∃ k : Z, toInt32 x = (x + 2 ^ 32 * k)%Z.
Proof.
  exists (- ((x + 2 ^ 31) / 2 ^ 32))%Z. unfold toInt32.
  rewrite Z.mod_eq by lia. lia.
Qed.

Lemma toInt32_add_mul x k : toInt32 (x + 2 ^ 32 * k) = toInt32 x.
Proof.
  unfold toInt32. f_equal.
  replace (x + 2 ^ 32 * k + 2 ^ 31)%Z with (x + 2 ^ 31 + k * 2 ^ 32)%Z by lia.
  apply Z.mod_add. lia.
Qed.

(** One turn of the loop multiplies by 31 and adds the code, within 32
    bits. *)
Lemma toInt32_congr a b k : a = (b + 2 ^ 32 * k)%Z → toInt32 a = toInt32 b.
Proof. intros ->. apply toInt32_add_mul. Qed.

Lemma wrap_31 (M a b d p k1 k2 k3 code : Z) :
  a = (p + M * k1)%Z → b = (a + M * k2)%Z → d = (b * 32 + M * k3)%Z →
  (d - a + code = 31 * p + code + M * (31 * k1 + 32 * k2 + k3))%Z.
Proof. intros -> -> ->. ring. Qed.

Lemma shift_31 p c :
  ∃ k, (toInt32 (toInt32 (toInt32 p) * 32) - toInt32 p + charCode c
        = 31 * p + charCode c + 2 ^ 32 * k)%Z.
Proof.
  destruct (toInt32_wrap p) as [k1 Hk1].
  destruct (toInt32_wrap (toInt32 p)) as [k2 Hk2].
  destruct (toInt32_wrap (toInt32 (toInt32 p) * 32)) as [k3 Hk3].
  exists (31 * k1 + 32 * k2 + k3)%Z.
  by apply (wrap_31 _ _ (toInt32 (toInt32 p))).
Qed.

Lemma shiftl_5 x : Z.shiftl x 5 = (x * 32)%Z.
Proof. by rewrite Z.shiftl_mul_pow2. Qed.

Lemma wrap_step p c :
  toInt32 (toInt32 (toInt32 (toInt32 p) * 32) - toInt32 p + charCode c)
  = toInt32 (31 * p + charCode c).
Proof. destruct (shift_31 p c) as [k Hk]. by apply (toInt32_congr _ _ k). Qed.

Lemma hashStep_polynomial p c :
  hashStep (toInt32 p) c = toInt32 (31 * p + charCode c).
Proof.
  unfold hashStep. cbv zeta. rewrite Z.land_diag, shiftl_5. apply wrap_step.
Qed.

Lemma hashLoop_cons c str hash :
  hashLoop (String c str) hash = hashLoop str (hashStep hash c).
Proof. done. Qed.

Lemma polynomial31_cons c str acc :
  polynomial31 (String c str) acc = polynomial31 str (31 * acc + charCode c).
Proof. done. Qed.

Lemma hashLoop_polynomial str p :
  hashLoop str (toInt32 p) = toInt32 (polynomial31 str p).
Proof.
  revert p. induction str as [|c str IH]; intros p; [done|].
  by rewrite hashLoop_cons, polynomial31_cons, hashStep_polynomial, IH.
Qed.

Lemma hashLoop_0 str : hashLoop str 0 = toInt32 (polynomial31 str 0).
Proof. by rewrite <- hashLoop_polynomial. Qed.

(** X13.  [hashSeed] is the absolute value of the polynomial hash in 31
    of the character codes, taken as a signed 32-bit integer. *)
Theorem hashSeed_polynomial str :
  hashSeed str = Z.abs (toInt32 (polynomial31 str 0)).
Proof.
  unfold hashSeed, toUint32. rewrite hashLoop_0.
  pose proof (toInt32_range (polynomial31 str 0)).
  apply Z.mod_small. lia.
Qed.

(** X14.  [hashSeed] returns an integer from 0 to 2^31, so the unsigned
    conversion in the constructor of the generator leaves it as it is. *)
Theorem hashSeed_range str :
  (0 ≤ hashSeed str ≤ 2 ^ 31)%Z ∧
  SeededRandom.constructor (hashSeed str) = hashSeed str.
Proof.
  assert (0 ≤ hashSeed str ≤ 2 ^ 31)%Z as H.
  { unfold hashSeed, toUint32. rewrite hashLoop_0.
    pose proof (toInt32_range (polynomial31 str 0)).
    rewrite Z.mod_small; lia. }
  split; [done|]. unfold SeededRandom.constructor, toUint32 at 1.
  apply Z.mod_small. lia.
Qed.

(** ** The seeded generator *)

(** An integer of no more than 53 bits is a double. *)
Lemma round53_small n : (Z.abs n < 2 ^ 53)%Z → round53 n = n.
Proof.
  intros Hn. unfold round53. cbv zeta.
  destruct (Z.leb_spec (Z.log2 (Z.abs n) + 1) 53) as [_|Hbits]; [done|].
  destruct (decide (Z.abs n = 0%Z)) as [H0|H0].
  - rewrite H0 in Hbits. simpl in Hbits. lia.
  - assert (Z.log2 (Z.abs n) < 53)%Z; [|lia].
    apply Z.log2_lt_pow2; lia.
Qed.

Lemma random_range seed :
  (0 ≤ (SeededRandom.random seed).2 < 4294967296)%Z.
Proof.
  unfold SeededRandom.random. cbv zeta. cbn [snd]. unfold toUint32.
  apply Z.mod_pos_bound. lia.
Qed.

(** Where the arithmetic of doubles is exact, the result lies in the
    range. *)
Lemma randint_bounds seed min max :
  (min < max)%Z → (max - min ≤ 2 ^ 21)%Z → (- 2 ^ 52 ≤ min)%Z → (max ≤ 2 ^ 52)%Z →
  (min ≤ (SeededRandom.randint seed min max).2 < max)%Z.
Proof.
  intros Hlt Hwidth Hmin Hmax. unfold SeededRandom.randint.
  pose proof (random_range seed) as Hu.
  destruct (SeededRandom.random seed) as [seed' u]. cbn [snd] in *. cbv zeta.
  rewrite (round53_small (max - min)) by lia.
  assert (0 ≤ u * (max - min) < 2 ^ 53)%Z as Hprod.
  { change (2 ^ 53)%Z with (4294967296 * 2 ^ 21)%Z. nia. }
  rewrite (round53_small (u * (max - min))) by lia.
  assert (0 ≤ u * (max - min) / 4294967296 < max - min)%Z as Hk.
  { split; [apply Z.div_pos; lia|apply Z.div_lt_upper_bound; nia]. }
  rewrite round53_small by lia. lia.
Qed.

(** X15.  [randint(min, max)] returns an integer from [min] up to, but
    not including, [max], for integers [min < max] that are no more than
    2^21 apart and lie between -2^52 and 2^52, where the arithmetic of
    doubles is exact. *)
Theorem randint_range seed min max :
  (min < max)%Z → (max - min ≤ 2 ^ 21)%Z → (- 2 ^ 52 ≤ min)%Z → (max ≤ 2 ^ 52)%Z →
  (min ≤ (SeededRandom.randint seed min max).2 < max)%Z.
Proof. apply randint_bounds. Qed.

Lemma randint_range_witness :
  (1 ≤ (SeededRandom.randint 42 1 7).2 < 7)%Z.
Proof. apply (randint_range 42 1 7); lia. Defined.

(** Beyond 2^53 the sum is rounded, and the result can be [max]. *)
Lemma randint_rounded_example :
  (SeededRandom.randint 4 (2 ^ 54) (2 ^ 54 + 4)).2 = (2 ^ 54 + 4)%Z.
Proof. by vm_compute. Qed.

(** X16.  [choice] returns [undefined] for the empty array, and an
    element of the array otherwise (for an array of up to 2^21
    elements). *)
Theorem choice_elem {A} seed (arr : list A) :
  (Z.of_nat (length arr) ≤ 2 ^ 21)%Z →
  match (SeededRandom.choice seed arr).2 with
  | Some x => x ∈ arr
  | None => arr = []
  end.
Proof.
  intros Hlen. unfold SeededRandom.choice.
  destruct (Nat.eqb_spec (length arr) 0) as [Hz|Hnz].
  - simpl. by apply nil_length_inv.
  - pose proof (randint_bounds seed 0 (Z.of_nat (length arr))) as Hr.
    destruct (SeededRandom.randint seed 0 _) as [seed' idx]. cbn [snd] in *.
    assert (0 ≤ idx < Z.of_nat (length arr))%Z as Hidx by (apply Hr; lia).
    destruct (Z.ltb_spec idx 0) as [?|_]; [lia|].
    destruct (lookup_lt_is_Some_2 arr (Z.to_nat idx)) as [x Hx]; [lia|].
    rewrite Hx. by eapply list_elem_of_lookup_2.
Qed.

Lemma choice_elem_witness :
  match (SeededRandom.choice 42 ["Math"; "Science"; "Art"]).2 with
  | Some x => x ∈ ["Math"; "Science"; "Art"]
  | None => ["Math"; "Science"; "Art"] = []
  end.
Proof. apply (choice_elem 42 ["Math"; "Science"; "Art"]). cbn [length]. lia. Defined.

(** After [k] turns, [copy] is a rearrangement of the array and [result]
    holds its first [k] elements. *)
Lemma sampleStep_invariant {A} (arr : list A) (st : Z * list A * list A) k :
  (Z.of_nat (length arr) ≤ 2 ^ 21)%Z →
  k < length arr →
  st.1.2 ≡ₚ arr ∧ st.2 = take k st.1.2 →
  (SeededRandom.sampleStep st k).1.2 ≡ₚ arr ∧
  (SeededRandom.sampleStep st k).2 = take (S k) (SeededRandom.sampleStep st k).1.2.
Proof.
  destruct st as [[seed copy] result]. cbn [fst snd]. intros Hsize Hk [Hperm ->].
  assert (length copy = length arr) as Hlen by by rewrite Hperm.
  unfold SeededRandom.sampleStep.
  pose proof (randint_bounds seed (Z.of_nat k) (Z.of_nat (length copy))) as Hr.
  destruct (SeededRandom.randint seed _ _) as [seed' idx]. cbn [snd] in Hr.
  assert (Z.of_nat k ≤ idx < Z.of_nat (length copy))%Z as Hidx by (apply Hr; lia).
  destruct (lookup_lt_is_Some_2 copy (Z.to_nat idx)) as [a Ha]; [lia|].
  destruct (lookup_lt_is_Some_2 copy k) as [b Hb]; [lia|].
  rewrite Ha, Hb. cbn [fst snd].
  set (copy' := <[Z.to_nat idx := b]> (<[k := a]> copy)).
  assert (copy' ≡ₚ copy) as Hswap by by apply Permutation_insert_swap.
  split; [by rewrite Hswap|].
  destruct (lookup_lt_is_Some_2 copy' k) as [x Hx];
    [unfold copy'; rewrite !length_insert; lia|].
  rewrite Hx. cbn [option_list].
  rewrite (take_S_r _ _ _ Hx). f_equal.
  unfold copy'. rewrite take_insert_ge by lia. by rewrite take_insert_ge by lia.
Qed.

Lemma sample_invariant {A} (arr : list A) seed n :
  (Z.of_nat (length arr) ≤ 2 ^ 21)%Z →
  let st := foldl SeededRandom.sampleStep (seed, arr, [])
                  (seq 0 (Nat.min n (length arr))) in
  st.1.2 ≡ₚ arr ∧ st.2 = take (Nat.min n (length arr)) st.1.2.
Proof.
  intros Hsize. cbv zeta.
  apply (foldl_seq_invariant
           (λ k (st : Z * list A * list A), st.1.2 ≡ₚ arr ∧ st.2 = take k st.1.2)
           SeededRandom.sampleStep (seed, arr, []) 0 (Nat.min n (length arr))).
  - done.
  - intros k st Hk Hinv. apply sampleStep_invariant; [done|lia|done].
Qed.

(** X17.  [sample(arr, n)] returns as many elements as asked for, or all
    of them when the array has fewer, and they are elements taken from
    distinct positions of the array: the result is a sub-multiset of
    [arr], and has no element twice when [arr] has none (for an array of
    up to 2^21 elements). *)
Theorem sample_distinct {A} seed (arr : list A) n :
  (Z.of_nat (length arr) ≤ 2 ^ 21)%Z →
  length (SeededRandom.sample seed arr n).2 = Nat.min n (length arr) ∧
  (SeededRandom.sample seed arr n).2 ⊆+ arr ∧
  (NoDup arr → NoDup (SeededRandom.sample seed arr n).2).
Proof.
  intros Hsize. unfold SeededRandom.sample.
  pose proof (sample_invariant arr seed n Hsize) as [Hperm Hres]. cbv zeta in *.
  destruct (foldl SeededRandom.sampleStep _ _) as [[seed' copy] result].
  cbn [fst snd] in *. subst result. split; [|split].
  - rewrite length_take, Hperm. lia.
  - trans copy; [apply submseteq_take|by apply Permutation_submseteq].
  - intros Hnd. apply (sublist_NoDup _ copy); [|apply sublist_take].
    by rewrite Hperm.
Qed.

Lemma sample_distinct_witness :
  let result := (SeededRandom.sample 42 ["Math"; "Science"; "Art"] 2).2 in
  length result = 2 ∧ result ⊆+ ["Math"; "Science"; "Art"] ∧
  (NoDup ["Math"; "Science"; "Art"] → NoDup result).
Proof. apply (sample_distinct 42 ["Math"; "Science"; "Art"] 2). cbn [length]. lia. Defined.

(** ** The file name stem *)

Ltac each_char c :=
  destruct c as [[] [] [] [] [] [] [] []]; vm_compute; try done.

(** What is left of a lowered string after the first replacement is a
    stem character or white space. *)
Lemma kept_lower_char c :
  isWordChar (lowerChar c) || isSpace (lowerChar c) || isHyphen (lowerChar c) = true →
  isStemChar (lowerChar c) || isSpace (lowerChar c) = true.
Proof. each_char c. Qed.

Lemma stemChar_lower c : isStemChar c = true → lowerChar c = c.
Proof. each_char c. Qed.

Lemma stemChar_kept c :
  isStemChar c = true → isWordChar c || isSpace c || isHyphen c = true.
Proof. each_char c. Qed.

Lemma stemChar_not_space c : isStemChar c = true → isSpace c = false.
Proof. each_char c. Qed.

Lemma isHyphen_eq c : isHyphen c = true → c = HYPHEN.
Proof. apply Ascii.eqb_eq. Qed.

Lemma removeOther_lower_chars s :
  allChars (λ c, isStemChar c || isSpace c) (removeOther (toLowerCase s)) = true.
Proof.
  induction s as [|c s IH]; [done|]. simpl.
  destruct (isWordChar (lowerChar c) || isSpace (lowerChar c) || isHyphen (lowerChar c))
    eqn:E; [|done].
  simpl. by rewrite (kept_lower_char c E), IH.
Qed.

Lemma collapse_spaces_chars s :
  allChars (λ c, isStemChar c || isSpace c) s = true →
  allChars isStemChar (collapseRuns isSpace s) = true.
Proof.
  induction s as [|c s IH]; [done|]. simpl.
  intros [Hc Hs]%andb_true_iff. specialize (IH Hs).
  destruct (isSpace c) eqn:Ec.
  - destruct (startsWith isSpace s); [done|]. simpl. by rewrite IH.
  - rewrite orb_false_r in Hc. simpl. by rewrite Hc, IH.
Qed.

Lemma collapse_hyphens_chars s :
  allChars isStemChar s = true →
  allChars isStemChar (collapseRuns isHyphen s) = true.
Proof.
  induction s as [|c s IH]; [done|]. simpl.
  intros [Hc Hs]%andb_true_iff. specialize (IH Hs).
  destruct (isHyphen c).
  - destruct (startsWith isHyphen s); [done|]. simpl. by rewrite IH.
  - simpl. by rewrite Hc, IH.
Qed.

Lemma startsWith_collapse s :
  startsWith isHyphen (collapseRuns isHyphen s) = startsWith isHyphen s.
Proof.
  induction s as [|c s IH]; [done|]. simpl.
  destruct (isHyphen c) eqn:Ec; [|by simpl].
  destruct (startsWith isHyphen s) eqn:Es; [by rewrite IH|done].
Qed.

Lemma collapse_hyphens_single s : noDoubleHyphen (collapseRuns isHyphen s) = true.
Proof.
  induction s as [|c s IH]; [done|]. simpl.
  destruct (isHyphen c) eqn:Ec.
  - destruct (startsWith isHyphen s) eqn:Es; [done|].
    simpl. by rewrite startsWith_collapse, Es, IH.
  - simpl. by rewrite Ec, IH.
Qed.

Lemma dropLastHyphen_cons c d s :
  dropLastHyphen (String c (String d s)) = String c (dropLastHyphen (String d s)).
Proof. done. Qed.

Lemma dropLastHyphen_chars p s :
  allChars p s = true → allChars p (dropLastHyphen s) = true.
Proof.
  induction s as [|c s IH]; [done|]. destruct s as [|d s].
  - simpl. by destruct (isHyphen c); simpl.
  - rewrite dropLastHyphen_cons. cbn [allChars].
    intros [Hc Hs]%andb_true_iff. by rewrite Hc, IH.
Qed.

Lemma dropLastHyphen_starts s :
  startsWith isHyphen s = false → startsWith isHyphen (dropLastHyphen s) = false.
Proof.
  destruct s as [|c [|d s]]; [done|..].
  - simpl. intros H. rewrite H. simpl. by rewrite H.
  - by rewrite dropLastHyphen_cons.
Qed.

Lemma dropLastHyphen_single s :
  noDoubleHyphen s = true → noDoubleHyphen (dropLastHyphen s) = true.
Proof.
  induction s as [|c s IH]; [done|]. destruct s as [|d s].
  - intros H. cbn [dropLastHyphen]. by destruct (isHyphen c).
  - rewrite dropLastHyphen_cons. cbn [noDoubleHyphen].
    intros [Hc Hs]%andb_true_iff. rewrite (IH Hs), andb_true_r.
    destruct (isHyphen c) eqn:Ec; [|done].
    rewrite andb_true_l in Hc |- *. apply negb_true_iff in Hc.
    by rewrite dropLastHyphen_starts.
Qed.

Lemma dropLastHyphen_last s :
  noDoubleHyphen s = true → lastChar (dropLastHyphen s) ≠ Some HYPHEN.
Proof.
  induction s as [|c s IH]; [done|]. destruct s as [|d s].
  - simpl. destruct (isHyphen c) eqn:Ec; [done|].
    simpl. intros _ [= ->]. done.
  - rewrite dropLastHyphen_cons. cbn [noDoubleHyphen].
    intros [Hc Hs]%andb_true_iff. specialize (IH Hs).
    destruct (dropLastHyphen (String d s)) as [|e t] eqn:Ed.
    + assert (isHyphen d = true) as Hd.
      { destruct s; [|done]. simpl in Ed. by destruct (isHyphen d). }
      simpl in Hc. rewrite Hd, andb_true_r in Hc. apply negb_true_iff in Hc.
      simpl. intros [= ->]. done.
    + by rewrite lastChar_cons.
Qed.

Lemma noDoubleHyphen_tail c s :
  noDoubleHyphen (String c s) = true →
  noDoubleHyphen s = true ∧ (isHyphen c = true → startsWith isHyphen s = false).
Proof.
  simpl. intros [Hc Hs]%andb_true_iff. split; [done|].
  intros Ec. rewrite Ec in Hc. by apply negb_true_iff in Hc.
Qed.

Lemma stripEdgeHyphens_stem s :
  allChars isStemChar s = true → noDoubleHyphen s = true →
  isStem (stripEdgeHyphens s) = true.
Proof.
  intros Hchars Hsingle. unfold isStem.
  assert (∀ r, allChars isStemChar r = true → noDoubleHyphen r = true →
               startsWith isHyphen r = false →
               allChars isStemChar (dropLastHyphen r) &&
               negb (startsWith isHyphen (dropLastHyphen r)) &&
               negb (bool_decide (lastChar (dropLastHyphen r) = Some HYPHEN)) &&
               noDoubleHyphen (dropLastHyphen r) = true) as Hdrop.
  { intros r H1 H2 H3.
    rewrite dropLastHyphen_chars, dropLastHyphen_starts, dropLastHyphen_single by done.
    rewrite bool_decide_false by by apply dropLastHyphen_last. done. }
  destruct s as [|c s]; [done|]. unfold stripEdgeHyphens.
  destruct (noDoubleHyphen_tail _ _ Hsingle) as [Hs Hstart].
  destruct (isHyphen c) eqn:Ec.
  - apply Hdrop; [|done|by apply Hstart].
    simpl in Hchars. by apply andb_true_iff in Hchars as [_ ?].
  - by apply Hdrop.
Qed.

Lemma kebabCase_isStem str : isStem (kebabCase str) = true.
Proof.
  unfold kebabCase. apply stripEdgeHyphens_stem.
  - apply collapse_hyphens_chars, collapse_spaces_chars, removeOther_lower_chars.
  - apply collapse_hyphens_single.
Qed.

(** X18.  [kebabCase] returns a stem: small letters, digits, underscores
    and hyphens only, with no hyphen at the start or at the end and no
    two hyphens in a row. *)
Theorem kebabCase_stem str :
  let stem := kebabCase str in
  allChars isStemChar stem = true ∧
  startsWith isHyphen stem = false ∧
  lastChar stem ≠ Some HYPHEN ∧
  noDoubleHyphen stem = true.
Proof.
  cbv zeta. pose proof (kebabCase_isStem str) as H. unfold isStem in H.
  apply andb_true_iff in H as [[[H1 H2]%andb_true_iff H3]%andb_true_iff H4].
  apply negb_true_iff in H2.
  apply negb_true_iff, bool_decide_eq_false in H3. done.
Qed.

Lemma stem_lower s : allChars isStemChar s = true → toLowerCase s = s.
Proof.
  induction s as [|c s IH]; [done|]. simpl.
  intros [Hc Hs]%andb_true_iff. by rewrite (stemChar_lower c Hc), IH.
Qed.

Lemma stem_removeOther s : allChars isStemChar s = true → removeOther s = s.
Proof.
  induction s as [|c s IH]; [done|]. simpl.
  intros [Hc Hs]%andb_true_iff. by rewrite (stemChar_kept c Hc), IH.
Qed.

Lemma stem_collapse_spaces s :
  allChars isStemChar s = true → collapseRuns isSpace s = s.
Proof.
  induction s as [|c s IH]; [done|]. simpl.
  intros [Hc Hs]%andb_true_iff. by rewrite (stemChar_not_space c Hc), IH.
Qed.

Lemma single_collapse_hyphens s :
  noDoubleHyphen s = true → collapseRuns isHyphen s = s.
Proof.
  induction s as [|c s IH]; [done|]. intros Hs.
  destruct (noDoubleHyphen_tail _ _ Hs) as [Htail Hstart]. simpl.
  destruct (isHyphen c) eqn:Ec.
  - rewrite (Hstart eq_refl), (IH Htail). by rewrite (isHyphen_eq c Ec).
  - by rewrite (IH Htail).
Qed.

Lemma dropLastHyphen_id s : lastChar s ≠ Some HYPHEN → dropLastHyphen s = s.
Proof.
  induction s as [|c s IH]; [done|]. destruct s as [|d s].
  - simpl. destruct (isHyphen c) eqn:Ec; [|done].
    intros H. by rewrite (isHyphen_eq c Ec) in H.
  - rewrite dropLastHyphen_cons, lastChar_cons by done. intros H. by rewrite IH.
Qed.

Lemma isStem_fixed s : isStem s = true → kebabCase s = s.
Proof.
  unfold isStem.
  intros [[[H1 H2]%andb_true_iff H3]%andb_true_iff H4]%andb_true_iff.
  apply negb_true_iff in H2. apply negb_true_iff, bool_decide_eq_false in H3.
  unfold kebabCase.
  rewrite stem_lower, stem_removeOther, stem_collapse_spaces by done.
  rewrite single_collapse_hyphens by done.
  unfold stripEdgeHyphens. destruct s as [|c s]; [done|].
  simpl in H2. rewrite H2. by apply dropLastHyphen_id.
Qed.

(** X19.  The strings [kebabCase] leaves as they are are exactly the
    stems, and [kebabCase] applied twice gives what it gives applied
    once. *)
Theorem kebabCase_idempotent str :
  (kebabCase str = str ↔ isStem str = true) ∧
  kebabCase (kebabCase str) = kebabCase str.
Proof.
  split; [split|].
  - intros H. rewrite <- H. apply kebabCase_isStem.
  - apply isStem_fixed.
  - apply isStem_fixed, kebabCase_isStem.
Qed.

(** ** Times of the bell-schedule builder *)

Lemma roundTripOk_day : forallb Bell.roundTripOk (seq 0 1440) = true.
Proof. by vm_compute. Qed.

Lemma minutes_eqb_eq a b : Bell.minutes_eqb a b = true → a = b.
Proof.
  destruct a, b; simpl; try done. by intros ->%Nat.eqb_eq.
Qed.

Lemma time_round_trip n :
  n < 1440 →
  Bell.valid (Bell.validateTimeFormat (Bell.minutesToTime (Some n))) = true ∧
  Bell.parseTimeToMinutes (Bell.minutesToTime (Some n)) = Bell.Minutes n.
Proof.
  intros Hn. pose proof roundTripOk_day as H.
  rewrite forallb_forall in H. specialize (H n).
  unfold Bell.roundTripOk in H. apply andb_true_iff in H as [H1 H2].
  - split; [done|by apply minutes_eqb_eq].
  - apply in_seq. lia.
Qed.

(** X20.  Every minute of the day, written by [minutesToTime], passes
    [validateTimeFormat] and is read back by [parseTimeToMinutes] as the
    same count of minutes. *)
Theorem minutesToTime_round_trip n :
  n < 1440 →
  Bell.valid (Bell.validateTimeFormat (Bell.minutesToTime (Some n))) = true ∧
  Bell.parseTimeToMinutes (Bell.minutesToTime (Some n)) = Bell.Minutes n.
Proof. apply time_round_trip. Qed.

Lemma minutesToTime_round_trip_witness :
  Bell.valid (Bell.validateTimeFormat (Bell.minutesToTime (Some 485))) = true ∧
  Bell.parseTimeToMinutes (Bell.minutesToTime (Some 485)) = Bell.Minutes 485.
Proof. apply (minutesToTime_round_trip 485). lia. Defined.

Lemma isDigit_existsb c :
  Bell.isDigit c = true → existsb (Ascii.eqb c) Bell.digitChars = true.
Proof. destruct c as [[] [] [] [] [] [] [] []]; vm_compute; done. Qed.

Lemma isDigit_cases c : Bell.isDigit c = true → In c Bell.digitChars.
Proof.
  intros H%isDigit_existsb. apply existsb_exists in H as (x & Hx & Heq).
  by apply Ascii.eqb_eq in Heq as ->.
Qed.

Lemma twoDigitsOk_all :
  forallb (λ a, forallb (Bell.twoDigitsOk a) Bell.digitChars) Bell.digitChars = true.
Proof. by vm_compute. Qed.

Lemma twoDigits a b :
  Bell.isDigit a = true → Bell.isDigit b = true →
  let n := 10 * Bell.digitValue a + Bell.digitValue b in
  Bell.decimalValue (String a (String b "")) = n ∧
  Bell.padStart2 (pretty n) = String a (String b "").
Proof.
  intros Ha%isDigit_cases Hb%isDigit_cases. cbv zeta.
  pose proof twoDigitsOk_all as H. rewrite forallb_forall in H.
  specialize (H a Ha). rewrite forallb_forall in H. specialize (H b Hb).
  unfold Bell.twoDigitsOk in H. apply andb_true_iff in H as [H1 H2].
  split; [by apply Nat.eqb_eq|by apply String.eqb_eq].
Qed.

Lemma isDigit_not_colon c : Bell.isDigit c = true → Ascii.eqb c ":" = false.
Proof. destruct c as [[] [] [] [] [] [] [] []]; vm_compute; done. Qed.

Lemma digitValue_bound c : Bell.isDigit c = true → Bell.digitValue c < 10.
Proof. destruct c as [[] [] [] [] [] [] [] []]; vm_compute; try done; lia. Qed.

(** A time [validateTimeFormat] accepts is two digits, a colon and two
    digits, with hours up to 23 and minutes up to 59. *)
Lemma validateTimeFormat_shape str :
  Bell.valid (Bell.validateTimeFormat str) = true →
  ∃ a b d e,
    str = String a (String b (String ":" (String d (String e "")))) ∧
    Bell.isDigit a = true ∧ Bell.isDigit b = true ∧
    Bell.isDigit d = true ∧ Bell.isDigit e = true ∧
    10 * Bell.digitValue a + Bell.digitValue b ≤ 23 ∧
    10 * Bell.digitValue d + Bell.digitValue e ≤ 59.
Proof.
  unfold Bell.validateTimeFormat.
  destruct (isEmpty str); [done|].
  destruct (Bell.matchTime str) as [[hours mins]|] eqn:Hm; [|done].
  destruct str as [|a [|b [|c [|d [|e [|f rest]]]]]]; try done.
  unfold Bell.matchTime in Hm.
  destruct (Bell.isDigit a) eqn:Ha; [|done].
  destruct (Bell.isDigit b) eqn:Hb; [|done].
  destruct (Ascii.eqb_spec c ":") as [->|]; [|done].
  destruct (Bell.isDigit d) eqn:Hd; [|done].
  destruct (Bell.isDigit e) eqn:He; [|done].
  simpl in Hm. injection Hm as <- <-. cbv zeta. unfold Bell.parseInt.
  destruct (twoDigits a b Ha Hb) as [-> _].
  destruct (twoDigits d e Hd He) as [-> _].
  destruct (Nat.ltb_spec 23 (10 * Bell.digitValue a + Bell.digitValue b)); [done|].
  destruct (Nat.ltb_spec 59 (10 * Bell.digitValue d + Bell.digitValue e)); [done|].
  intros _. by exists a, b, d, e.
Qed.

Lemma split_time a b d e :
  Bell.isDigit a = true → Bell.isDigit b = true →
  Bell.isDigit d = true → Bell.isDigit e = true →
  split ":" (String a (String b (String ":" (String d (String e "")))))
  = [String a (String b ""); String d (String e "")].
Proof.
  intros Ha%isDigit_not_colon Hb%isDigit_not_colon
         Hd%isDigit_not_colon He%isDigit_not_colon.
  cbn [split]. by rewrite Ha, Hb, Hd, He.
Qed.

Lemma Number_twoDigits a b :
  Bell.isDigit a = true → Bell.isDigit b = true →
  Bell.Number (String a (String b ""))
  = Bell.Num (10 * Bell.digitValue a + Bell.digitValue b).
Proof.
  intros Ha Hb. unfold Bell.Number. cbn [isEmpty allChars String.length].
  rewrite Ha, Hb. cbn [negb andb Nat.leb].
  by destruct (twoDigits a b Ha Hb) as [-> _].
Qed.

Lemma time_read_back str :
  Bell.valid (Bell.validateTimeFormat str) = true →
  ∃ n, n < 1440 ∧ Bell.parseTimeToMinutes str = Bell.Minutes n ∧
       Bell.minutesToTime (Some n) = str.
Proof.
  intros (a & b & d & e & -> & Ha & Hb & Hd & He & Hh & Hm)%validateTimeFormat_shape.
  set (h := 10 * Bell.digitValue a + Bell.digitValue b) in *.
  set (m := 10 * Bell.digitValue d + Bell.digitValue e) in *.
  exists (h * 60 + m). split; [lia|]. split.
  - unfold Bell.parseTimeToMinutes. cbn [isEmpty].
    rewrite split_time by done. rewrite !fmap_cons.
    by rewrite !Number_twoDigits.
  - unfold Bell.minutesToTime. cbv zeta.
    rewrite Nat.div_add_l by done. rewrite (Nat.div_small m) by lia.
    rewrite Nat.add_0_r.
    replace ((h * 60 + m) mod 60) with m
      by (rewrite Nat.add_comm, Nat.Div0.mod_add; symmetry; apply Nat.mod_small; lia).
    destruct (twoDigits a b Ha Hb) as [_ Hp1]. fold h in Hp1.
    destruct (twoDigits d e Hd He) as [_ Hp2]. fold m in Hp2.
    by rewrite Hp1, Hp2.
Qed.

(** X21.  A time [validateTimeFormat] accepts is a minute of the day:
    [parseTimeToMinutes] reads it as a count below 1440, and
    [minutesToTime] writes that count back as the same text. *)
Theorem validateTimeFormat_round_trip str :
  Bell.valid (Bell.validateTimeFormat str) = true →
  ∃ n, n < 1440 ∧ Bell.parseTimeToMinutes str = Bell.Minutes n ∧
       Bell.minutesToTime (Some n) = str.
Proof. apply time_read_back. Qed.

Lemma validateTimeFormat_round_trip_witness :
  ∃ n, n < 1440 ∧ Bell.parseTimeToMinutes "08:05" = Bell.Minutes n ∧
       Bell.minutesToTime (Some n) = "08:05".
Proof. apply (validateTimeFormat_round_trip "08:05"). reflexivity. Defined.

(** ** Periods *)

Lemma app_nil_both {A} (l k : list A) : l ++ k = [] ↔ l = [] ∧ k = [].
Proof. split; [apply app_eq_nil|by intros [-> ->]]. Qed.

Lemma nameBlank_false s :
  isEmpty s || isEmpty (trim s) = false ↔ trim s ≠ "".
Proof.
  destruct s as [|c s]; [by split|]. cbn [isEmpty orb].
  destruct (trim (String c s)); by split.
Qed.

(** What [validatePeriod] returns, from the three tests it makes. *)
Lemma validatePeriod_cases p schedule :
  Bell.validatePeriod p schedule = [] ↔
  trim (Bell.name p) ≠ "" ∧
  Bell.valid (Bell.validateTimeFormat (Bell.startTime p)) = true ∧
  Bell.valid (Bell.validateTimeFormat (Bell.endTime p)) = true ∧
  Bell.durationIssues p schedule = [].
Proof.
  unfold Bell.validatePeriod. cbv zeta. rewrite <- nameBlank_false.
  destruct (isEmpty (Bell.name p) || isEmpty (trim (Bell.name p)));
    destruct (Bell.valid (Bell.validateTimeFormat (Bell.startTime p)));
    destruct (Bell.valid (Bell.validateTimeFormat (Bell.endTime p)));
    cbn [negb andb app]; split; try done; try (by intros (? & ? & ? & ?)).
Qed.

Lemma durationIssues_nil p schedule a b :
  Bell.parseTimeToMinutes (Bell.startTime p) = Bell.Minutes a →
  Bell.parseTimeToMinutes (Bell.endTime p) = Bell.Minutes b →
  Bell.durationIssues p schedule = [] ↔ a + 5 ≤ b ∧ b ≤ a + 120.
Proof.
  intros Ha Hb. unfold Bell.durationIssues. rewrite Ha, Hb.
  destruct (Nat.leb_spec b a); [split; [done|lia]|]. cbv zeta.
  destruct (Nat.ltb_spec (b - a) 5); destruct (Nat.ltb_spec 120 (b - a));
    cbn [app]; split; try done; lia.
Qed.

Lemma validatePeriod_fine p schedule :
  Bell.validatePeriod p schedule = [] ↔ ∃ startMin endMin, periodFine p startMin endMin.
Proof.
  rewrite validatePeriod_cases. unfold periodFine. split.
  - intros (Hname & Hs & He & Hd).
    destruct (time_read_back _ Hs) as (a & Ha & Hpa & Hta).
    destruct (time_read_back _ He) as (b & Hb & Hpb & Htb).
    apply (durationIssues_nil p schedule a b Hpa Hpb) in Hd.
    exists a, b. by rewrite Hta, Htb.
  - intros (a & b & Hname & Ha & Hb & Hs & He & Hlo & Hhi).
    destruct (time_round_trip a Ha) as [Hva Hpa].
    destruct (time_round_trip b Hb) as [Hvb Hpb].
    rewrite <- Hs in Hva, Hpa. rewrite <- He in Hvb, Hpb.
    split; [done|]. split; [done|]. split; [done|].
    by apply (durationIssues_nil p schedule a b).
Qed.

(** X22.  [validatePeriod] returns no issue exactly for a period with a
    name that is not blank and two times HH:MM of the day, the end at
    least 5 and at most 120 minutes after the start. *)
Theorem validatePeriod_no_issue p schedule :
  Bell.validatePeriod p schedule = [] ↔ ∃ startMin endMin, periodFine p startMin endMin.
Proof. apply validatePeriod_fine. Qed.

Lemma durationIssues_errors p schedule a b :
  Bell.parseTimeToMinutes (Bell.startTime p) = Bell.Minutes a →
  Bell.parseTimeToMinutes (Bell.endTime p) = Bell.Minutes b →
  existsb isBellError (Bell.durationIssues p schedule) = negb (a <? b).
Proof.
  intros Ha Hb. unfold Bell.durationIssues. rewrite Ha, Hb.
  destruct (Nat.leb_spec b a); destruct (Nat.ltb_spec a b); try lia; [done|].
  cbv zeta. by destruct (b - a <? 5); destruct (120 <? b - a).
Qed.

(** X23.  [validatePeriod] reports an error exactly when the name is
    blank, one of the two times is not a valid HH:MM time, or the start is
    not before the end; the length of the period only gives warnings. *)
Theorem validatePeriod_errors p schedule :
  existsb isBellError (Bell.validatePeriod p schedule) = false ↔
  trim (Bell.name p) ≠ "" ∧
  ∃ startMin endMin,
    Bell.valid (Bell.validateTimeFormat (Bell.startTime p)) = true ∧
    Bell.valid (Bell.validateTimeFormat (Bell.endTime p)) = true ∧
    Bell.parseTimeToMinutes (Bell.startTime p) = Bell.Minutes startMin ∧
    Bell.parseTimeToMinutes (Bell.endTime p) = Bell.Minutes endMin ∧
    startMin < endMin.
Proof.
  unfold Bell.validatePeriod. cbv zeta. rewrite <- nameBlank_false.
  destruct (isEmpty (Bell.name p) || isEmpty (trim (Bell.name p)));
    destruct (Bell.valid (Bell.validateTimeFormat (Bell.startTime p))) eqn:Hs;
    destruct (Bell.valid (Bell.validateTimeFormat (Bell.endTime p))) eqn:He;
    cbn [negb andb app];
    try (split; [by intros H|by intros (? & ? & ? & ? & ? & _)]).
  destruct (time_read_back _ Hs) as (a & _ & Hpa & _).
  destruct (time_read_back _ He) as (b & _ & Hpb & _).
  rewrite (durationIssues_errors p schedule a b Hpa Hpb). split.
  - intros Hlt%negb_false_iff%Nat.ltb_lt. split; [done|]. by exists a, b.
  - intros (_ & a' & b' & _ & _ & Ha' & Hb' & Hlt).
    rewrite Hpa in Ha'. rewrite Hpb in Hb'. injection Ha' as <-. injection Hb' as <-.
    by apply negb_false_iff, Nat.ltb_lt.
Qed.

(** X24.  Every issue [validateSegment] returns carries the label of the
    segment as its period name, and there is none exactly when
    [validatePeriod] has none for the segment read as a period and the
    master name is not blank. *)
Theorem validateSegment_issues seg schedule splitName :
  let periodLike :=
    {| Bell.name := Bell.parsedName seg; Bell.startTime := Bell.segStartTime seg;
       Bell.endTime := Bell.segEndTime seg |} in
  (∀ i, i ∈ Bell.validateSegment seg schedule splitName →
        Bell.periodName i = Bell.segmentLabel seg splitName) ∧
  (Bell.validateSegment seg schedule splitName = [] ↔
   Bell.validatePeriod periodLike schedule = [] ∧ trim (Bell.masterName seg) ≠ "").
Proof.
  cbv zeta. unfold Bell.validateSegment. cbv zeta. rewrite <- nameBlank_false.
  set (issues := Bell.validatePeriod _ schedule).
  destruct (isEmpty (Bell.masterName seg) || isEmpty (trim (Bell.masterName seg))).
  - split.
    + intros i [(j & -> & _)%list_elem_of_fmap| ->%list_elem_of_singleton]%elem_of_app;
        done.
    + split; [by intros [_ ?]%app_nil_both|by intros [_ ?]].
  - split.
    + by intros i (j & -> & _)%list_elem_of_fmap.
    + split.
      * intros H%fmap_nil_inv. by split.
      * by intros [-> _].
Qed.

(** ** Course lines without a details line *)

(** Where the loop starts a turn, the lines before and the lines from
    there on contribute independently. *)
Lemma parseLines_turn pre rest :
  courseLineAt (pre ++ rest) (length pre) = true →
  parseLines (pre ++ rest) = appendClasses (parseLines pre) (parseLines rest).
Proof.
  remember (length pre) as n eqn:Hn. revert pre Hn.
  induction n as [n IH] using lt_wf_ind. intros pre -> Hat.
  destruct pre as [|p [|q pre]].
  - cbn [app]. by destruct (parseLines rest).
  - destruct rest as [|line rest]; [done|].
    cbn [app length courseLineAt] in *.
    destruct (isDetails line) eqn:Hl; [done|].
    rewrite parseLines_lone by done.
    rewrite (parseLines_lone p []) by done.
    change (parseLines []) with noClasses.
    by rewrite appendClasses_noClasses_r.
  - cbn [app length courseLineAt] in *.
    destruct (isDetails q) eqn:Hq.
    + rewrite !(parseLines_pair p q) by done.
      rewrite (IH (length pre)) by (done || lia).
      by rewrite appendClasses_assoc.
    + rewrite !(parseLines_lone p) by done.
      change (q :: pre ++ rest) with ((q :: pre) ++ rest) in *.
      rewrite (IH (S (length pre))) by (done || cbn [length]; lia).
      by rewrite appendClasses_assoc.
Qed.

(** X25.  In a cell where the loop reads [line] as a course line and the
    next line is no details line (or there is none), the line gives the
    same class on both days, with its trimmed text as the course, no room
    and the full-year type, between what the lines before and the lines
    after it contribute; a blank line gives nothing. *)
Theorem parsePeriodCell_lone_line cellValue pre line post :
  isEmpty (trim cellValue) = false →
  split LF cellValue = pre ++ line :: post →
  courseLineAt (split LF cellValue) (length pre) = true →
  match post with d :: _ => isDetails d = false | [] => True end →
  let here := if isEmpty (trim line) then [] else [loneClass line] in
  let parsed := parsePeriodCell cellValue in
  let before := parseLines pre in
  let after := parseLines post in
  aDayClasses parsed = aDayClasses before ++ here ++ aDayClasses after ∧
  bDayClasses parsed = bDayClasses before ++ here ++ bDayClasses after.
Proof.
  intros Hne Hsplit Hat Hpost. cbv zeta.
  rewrite parsePeriodCell_lines by done.
  rewrite Hsplit in *.
  rewrite parseLines_turn by done.
  rewrite parseLines_lone by done.
  unfold loneClasses, loneClass. by destruct (isEmpty (trim line)).
Qed.

Lemma parsePeriodCell_lone_line_witness :
  let pre := ["AP Statistics"; "      FY  Room:B208  Days:A"] in
  let c := loneClass " Study Hall " in
  aDayClasses (parsePeriodCell loneLineCell) = aDayClasses (parseLines pre) ++ [c] ++ [] ∧
  bDayClasses (parsePeriodCell loneLineCell) = bDayClasses (parseLines pre) ++ [c] ++ [].
Proof.
  exact (parsePeriodCell_lone_line loneLineCell
           ["AP Statistics"; "      FY  Room:B208  Days:A"] " Study Hall " []
           eq_refl eq_refl eq_refl I).
Defined.

(** ** The name columns and the period columns *)

Lemma prefix_cons a p c s :
  String.prefix (String a p) (String c s)
  = if ascii_dec a c then String.prefix p s else false.
Proof. done. Qed.

Lemma prefix_nil s : String.prefix "" s = true.
Proof. by destruct s. Qed.

Lemma prefix_trimEnd p s :
  noSpace p = true → String.prefix p s = true → String.prefix p (trimEnd s) = true.
Proof.
  revert s. induction p as [|a p IH]; intros s Hp Hpre; [apply prefix_nil|].
  destruct s as [|c s]; [done|].
  rewrite prefix_cons in Hpre. destruct (ascii_dec a c) as [->|]; [|done].
  simpl in Hp. apply andb_true_iff in Hp as [Hc Hp]. apply negb_true_iff in Hc.
  cbn [trimEnd]. rewrite Hc. cbn [andb].
  rewrite prefix_cons. destruct (ascii_dec c c); [|done]. by apply IH.
Qed.

Lemma includes_nil_false p : p ≠ "" → includes "" p = false.
Proof. by destruct p. Qed.

Lemma includes_cons c s p :
  includes (String c s) p = String.prefix p (String c s) || includes s p.
Proof. done. Qed.

(** Text without white space that occurs in a string occurs in what
    trimming leaves of the string. *)
Lemma includes_trimEnd p s :
  noSpace p = true → p ≠ "" → includes s p = true → includes (trimEnd s) p = true.
Proof.
  intros Hp Hne. induction s as [|c s IH]; [done|].
  rewrite includes_cons. intros [Hpre|Hin]%orb_true_iff.
  - apply (prefix_trimEnd p) in Hpre; [|done].
    destruct (trimEnd (String c s)) as [|d t]; [by destruct p|].
    rewrite includes_cons. by rewrite Hpre.
  - specialize (IH Hin). cbn [trimEnd].
    destruct (trimEnd s) as [|d t] eqn:Et;
      [by rewrite includes_nil_false in IH|].
    cbn [isEmpty]. rewrite andb_false_r, includes_cons, IH. apply orb_true_r.
Qed.

Lemma includes_trimStart p s :
  noSpace p = true → p ≠ "" → includes s p = true → includes (trimStart s) p = true.
Proof.
  intros Hp Hne. induction s as [|c s IH]; [done|].
  cbn [trimStart]. destruct (isSpace c) eqn:Hc; [|done].
  rewrite includes_cons. intros [Hpre|Hin]%orb_true_iff; [|by apply IH].
  destruct p as [|a p]; [done|]. rewrite prefix_cons in Hpre.
  destruct (ascii_dec a c) as [->|]; [|done].
  simpl in Hp. by rewrite Hc in Hp.
Qed.

Lemma includes_trim p s :
  noSpace p = true → p ≠ "" → includes s p = true → includes (trim s) p = true.
Proof. intros Hp Hne Hin. by apply includes_trimEnd, includes_trimStart. Qed.

Lemma findColumnName_key headers possibleNames h :
  findColumnName headers possibleNames = Text h →
  ∃ name, name ∈ possibleNames ∧ headerKey h = headerKey name.
Proof.
  unfold findColumnName. intros Hfind.
  pose proof (firstMatch_spec (lowerMapOf headers) possibleNames) as Hspec.
  cbv zeta in Hspec. rewrite Hfind in Hspec.
  destruct (truthy (Text h)); [|by destruct Hspec].
  destruct Hspec as (before & name & after & -> & Hname & _).
  exists name. split; [apply elem_of_app; right; by left|].
  unfold objectGet in Hname.
  destruct (lowerMapOf headers !! headerKey name) as [h'|] eqn:Hlook.
  - injection Hname as ->. by apply lowerMapOf_Some in Hlook as [? _].
  - by destruct (existsb _ inheritedNames).
Qed.

Lemma candidate_not_period name :
  name ∈ teacherCandidates ++ deptCandidates →
  includes (headerKey name) "period" = false.
Proof.
  unfold teacherCandidates, deptCandidates. cbn [app]. intros H.
  repeat (apply elem_of_cons in H as [->|H]; [by vm_compute|]).
  by apply elem_of_nil in H.
Qed.

Lemma name_column_key headers h :
  findColumnName headers teacherCandidates = Text h ∨
  findColumnName headers deptCandidates = Text h →
  includes (toLowerCase h) "period" = false.
Proof.
  intros H. apply not_true_is_false. intros Hin.
  apply (includes_trim "period") in Hin; [|done..].
  fold (headerKey h) in Hin.
  destruct H as [H|H]; apply findColumnName_key in H as (name & Hname & Hkey);
    rewrite Hkey, candidate_not_period in Hin; try done;
    apply elem_of_app; auto.
Qed.

(** X26.  The column the normaliser takes the teacher names from, and
    the one it takes the departments from, are never among its period
    columns. *)
Theorem name_columns_not_period first rest nonTeachingLabelsStr h :
  findColumnName (map fst first) teacherCandidates = Text h ∨
  findColumnName (map fst first) deptCandidates = Text h →
  h ∉ periodCols (parseExcelSchedule (first :: rest) nonTeachingLabelsStr).
Proof.
  intros H%name_column_key. unfold parseExcelSchedule. cbn [periodCols].
  intros [Hp _]%list_elem_of_filter. rewrite H in Hp. done.
Qed.

Lemma name_columns_not_period_witness :
  "Teacher" ∉ periodCols (parseExcelSchedule [sampleRow] "Lunch").
Proof.
  apply (name_columns_not_period sampleRow [] "Lunch" "Teacher").
  left. reflexivity.
Defined.

(** ** Lines without quotes, and line ends *)

Lemma split_cons sep s : ∃ field fields, split sep s = field :: fields.
Proof.
  induction s as [|c s (field & fields & IH)]; simpl; [by eauto|].
  destruct (Ascii.eqb c sep); [by eauto|]. rewrite IH. by eauto.
Qed.

Lemma scanCSV_unquoted line result current :
  hasChar DQ line = false →
  scanCSV line result current false
  = result ++
    match split "," line with
    | field :: fields => (current +:+ field) :: fields
    | [] => [current]
    end.
Proof.
  revert result current. induction line as [|ch rest IH]; intros result current Hq.
  - simpl. by rewrite str_app_nil_r.
  - simpl in Hq. apply orb_false_iff in Hq as [Hch Hrest].
    cbn [scanCSV split]. rewrite Hch.
    destruct (Ascii.eqb ch ",") eqn:Hcomma.
    + rewrite IH by done. destruct (split_cons "," rest) as (field & fields & ->).
      by rewrite str_app_nil_r, <- app_assoc.
    + rewrite IH by done. destruct (split_cons "," rest) as (field & fields & ->).
      by rewrite str_app_assoc.
Qed.

(** X27.  A line with no double quote in it is cut at every comma:
    [parseCSVLine] returns what [split(',')] returns. *)
Theorem parseCSVLine_unquoted line :
  hasChar DQ line = false → parseCSVLine line = split "," line.
Proof.
  intros Hq. unfold parseCSVLine. rewrite scanCSV_unquoted by done.
  by destruct (split_cons "," line) as (field & fields & ->).
Qed.

Lemma parseCSVLine_unquoted_witness :
  parseCSVLine "Math,Lee,,Prep" = split "," "Math,Lee,,Prep".
Proof. apply (parseCSVLine_unquoted "Math,Lee,,Prep"). reflexivity. Defined.

Lemma startsWithLF_app l rest :
  hasChar LF l = false → startsWithLF (l +:+ crlf +:+ rest) = false.
Proof.
  destruct l as [|d l]; [done|]. simpl. by intros [? _]%orb_false_iff.
Qed.

Lemma splitLines_crlf_line l rest :
  hasChar LF l = false →
  splitLines (l +:+ crlf +:+ rest) = l :: splitLines rest.
Proof.
  induction l as [|c l IH]; [done|].
  intros Hlf. simpl in Hlf. apply orb_false_iff in Hlf as [Hc Hl].
  change (String c l +:+ crlf +:+ rest) with (String c (l +:+ crlf +:+ rest)).
  cbn [splitLines]. rewrite Hc, startsWithLF_app, andb_false_r by done.
  by rewrite IH.
Qed.

Lemma splitLines_crlf lines :
  lines ≠ [] → Forall (λ l, hasChar LF l = false) lines →
  splitLines (join crlf lines) = lines.
Proof.
  induction lines as [|l [|l' lines] IH]; intros Hne Hall; [done|..].
  - apply Forall_cons in Hall as [Hl _]. simpl. by apply splitLines_last.
  - apply Forall_cons in Hall as [Hl Hall].
    change (join crlf (l :: l' :: lines)) with (l +:+ crlf +:+ join crlf (l' :: lines)).
    rewrite splitLines_crlf_line by done. by rewrite IH.
Qed.

(** X28.  [parseCSV] reads a text with Windows line ends as it reads the
    same lines with plain line feeds: joined either way, lines that hold
    no line feed and do not end with a carriage return give the same
    result. *)
Theorem parseCSV_crlf lines :
  lines ≠ [] →
  Forall (λ l, hasChar LF l = false ∧ endsWithCR l = false) lines →
  splitLines (join crlf lines) = lines ∧
  Roster.parseCSV (join crlf lines) = Roster.parseCSV (join lf lines).
Proof.
  intros Hne Hall.
  assert (splitLines (join crlf lines) = lines) as Hcrlf.
  { apply splitLines_crlf; [done|]. eapply Forall_impl; [done|]. by intros l [? _]. }
  split; [done|]. unfold Roster.parseCSV.
  by rewrite Hcrlf, splitLines_join.
Qed.

Lemma parseCSV_crlf_witness :
  splitLines (join crlf ["Department,Teacher"; "Math,Lee"]) = ["Department,Teacher"; "Math,Lee"] ∧
  Roster.parseCSV (join crlf ["Department,Teacher"; "Math,Lee"])
  = Roster.parseCSV (join lf ["Department,Teacher"; "Math,Lee"]).
Proof.
  apply (parseCSV_crlf ["Department,Teacher"; "Math,Lee"]).
  - discriminate.
  - repeat constructor.
Defined.
